(** * Grok image-edit plugin: access gate, response parser, API client and
      task orchestrator of [main.py], embedded and verified.

    Modelling conventions.
    - A Python [str] is a [string]; one [ascii] stands for one character, so
      lengths, slices and case folding are exact on ASCII text (URLs, JSON
      keys).  The user-visible messages are kept as the literals of the source.
    - A Python [int] is a [Z].  [time.time()] is read as an integer timestamp.
    - [dict]s owned by the plugin are [gmap]s, [set]s are [gset]s; a decoded
      JSON object is an association list read with [get].
    - Code that can raise returns an [outcome]; [try]/[except] is a [match].
    - The network, the chat platform and the file system are oracles passed
      as arguments: the theorems hold for every behaviour they can show. *)

From Stdlib Require Import Ascii.
From stdpp Require Import base gmap strings list pretty.

#[local] Set Warnings "-register-all,-clear-no-such-hyp".

(** ** Python helpers *)

(** What a block of Python code does: it produces a value or raises. *)
Inductive outcome (A : Type) : Type :=
| Ok (a : A)
| Raised (e : string).
Arguments Ok {A} a.
Arguments Raised {A} e.

(** A numeric setting as the host's configuration loader hands it over: an
    [int], or a value that arithmetic rejects (a string, [None]). *)
Inductive cfgval : Type :=
| CInt (n : Z)
| CStr (s : string)
| CNone.

(** [f"{v}"] *)
Definition cfg_format (v : cfgval) : string :=
  match v with
  | CInt n => pretty n
  | CStr s => s
  | CNone => "None"
  end.

(** [x >= v] for a number [x] whose type is named [ty]: a [TypeError] unless
    [v] is a number too. *)
Definition py_ge (ty : string) (x : Z) (v : cfgval) : outcome bool :=
  match v with
  | CInt n => Ok (bool_decide (n ≤ x)%Z)
  | CStr _ =>
      Raised ("'>=' not supported between instances of '" +:+ ty +:+ "' and 'str'")
  | CNone =>
      Raised ("'>=' not supported between instances of '" +:+ ty +:+ "' and 'NoneType'")
  end.

(** ** Configuration and plugin state ([__init__]) *)

Record Config : Type := {
  server_url : string;
  api_url : string;
  model_id : string;
  api_key : string;
  enabled : bool;
  prompt_prefix : string;
  status_message_mode : string;
  timeout_seconds : Z;
  max_retry_attempts : Z;
  group_control_mode : string;
  group_list : list string;
  rate_limit_enabled : bool;
  rate_limit_window_seconds : cfgval;
  rate_limit_max_calls : cfgval;
  max_images_per_response : Z;
  save_image_enabled : bool;
  nap_server_address : string;
  nap_server_port : Z
}.

(** One entry of [_rate_limit_bucket]. *)
Record Bucket : Type := { window_start : Z; count : Z }.

Record State : Type := {
  _rate_limit_bucket : gmap string Bucket;
  _rate_limit_locks : gset string;
  _processing_tasks : gmap string string
}.

Definition init_state : State :=
  {| _rate_limit_bucket := ∅; _rate_limit_locks := ∅; _processing_tasks := ∅ |}.

Definition set_bucket (g : string) (b : Bucket) (st : State) : State :=
  {| _rate_limit_bucket := <[g := b]> (_rate_limit_bucket st);
     _rate_limit_locks := _rate_limit_locks st;
     _processing_tasks := _processing_tasks st |}.

Definition add_lock (g : string) (st : State) : State :=
  {| _rate_limit_bucket := _rate_limit_bucket st;
     _rate_limit_locks := {[g]} ∪ _rate_limit_locks st;
     _processing_tasks := _processing_tasks st |}.

Definition set_tasks (m : gmap string string) (st : State) : State :=
  {| _rate_limit_bucket := _rate_limit_bucket st;
     _rate_limit_locks := _rate_limit_locks st;
     _processing_tasks := m |}.

(** ** 4.1 Access gate: [_check_group_access] *)

Definition msg_not_authorized : string := "当前群组未被授权使用图片编辑功能".
Definition msg_restricted : string := "当前群组已被限制使用图片编辑功能".

Definition msg_rate_limited (max_calls window_seconds : cfgval) : string :=
  "本群调用已达上限（" +:+ cfg_format max_calls +:+ "次/"
  +:+ cfg_format window_seconds +:+ "秒），请稍后再试".

(** The white/black list test of lines 114-117. *)
Definition group_control_denial (cfg : Config) (group_id : string) : option string :=
  if bool_decide (group_control_mode cfg = "whitelist")
     && negb (bool_decide (group_id ∈ group_list cfg))
  then Some msg_not_authorized
  else if bool_decide (group_control_mode cfg = "blacklist")
          && bool_decide (group_id ∈ group_list cfg)
  then Some msg_restricted
  else None.

(** The body guarded by the per-group lock (lines 124-140).  It holds no
    suspension point, so under the cooperative scheduler it runs as one step. *)
Definition rate_limit_locked (cfg : Config) (st : State) (group_id : string) (now : Z)
  : State * outcome (option string) :=
  let bucket := default {| window_start := now; count := 0 |}
                        (_rate_limit_bucket st !! group_id) in
  match py_ge "float" (now - window_start bucket) (rate_limit_window_seconds cfg) with
  | Raised e => (st, Raised e)
  | Ok expired =>
      let '(ws, c) := if expired then (now, 0%Z) else (window_start bucket, count bucket) in
      match py_ge "int" c (rate_limit_max_calls cfg) with
      | Raised e => (st, Raised e)
      | Ok true =>
          (st, Ok (Some (msg_rate_limited (rate_limit_max_calls cfg)
                                          (rate_limit_window_seconds cfg))))
      | Ok false =>
          (set_bucket group_id {| window_start := ws; count := c + 1 |} st, Ok None)
      end
  end.

(** A message component: an [Image] with what awaiting its
    [convert_to_base64()] gives, a [Reply] with its [chain] and the identifier
    [_extract_reply_message_id] finds on it, or any other component. *)
Inductive component : Type :=
| Image (convert_to_base64 : outcome string)
| Reply (chain : list component) (reply_id : option string)
| OtherComponent.

(** The part of a message event the plugin reads. *)
Record Event : Type := {
  get_group_id : outcome string;
  get_sender_id : string;
  message : list component
}.

(** The [try] block of [_check_group_access] (lines 107-140). *)
Definition _check_group_access_try (cfg : Config) (st : State) (event : Event) (now : Z)
  : State * outcome (option string) :=
  let group_id := match get_group_id event with Ok g => g | Raised _ => "" end in
  if bool_decide (group_id = "") then (st, Ok None)
  else match group_control_denial cfg group_id with
       | Some denial => (st, Ok (Some denial))
       | None =>
           if rate_limit_enabled cfg
           then rate_limit_locked cfg (add_lock group_id st) group_id now
           else (st, Ok None)
       end.

(** [_check_group_access]: [except Exception] logs and returns [None]. *)
Definition _check_group_access (cfg : Config) (st : State) (event : Event) (now : Z)
  : State * option string :=
  match _check_group_access_try cfg st event now with
  | (st', Ok denial) => (st', denial)
  | (st', Raised _) => (st', None)
  end.

(** A run of checks for one event at the given clock readings. *)
Fixpoint check_calls (cfg : Config) (st : State) (event : Event) (nows : list Z)
  : State * list (option string) :=
  match nows with
  | [] => (st, [])
  | now :: rest =>
      let '(st1, r) := _check_group_access cfg st event now in
      let '(st2, rs) := check_calls cfg st1 event rest in
      (st2, r :: rs)
  end.

(** Any run of checks, for any events, from a given state. *)
Fixpoint gate_run (cfg : Config) (st : State) (calls : list (Event * Z)) : State :=
  match calls with
  | [] => st
  | (event, now) :: rest => gate_run cfg (fst (_check_group_access cfg st event now)) rest
  end.

(** ** Decoded JSON *)

(** What [response.json()] returns: [None], [bool], [int], [float] (kept as
    mantissa and decimal exponent, never computed with), [str], [list], and
    [dict] as an association list read with [get]. *)
Inductive json : Type :=
| JNull
| JBool (b : bool)
| JInt (n : Z)
| JFloat (mantissa exponent : Z)
| JStr (s : string)
| JArr (items : list json)
| JObj (fields : list (string * json)).

(** [d.get(key)]: [None] here is Python's [None] for an absent key. *)
Fixpoint get (key : string) (d : list (string * json)) : option json :=
  match d with
  | [] => None
  | (k, v) :: rest => if String.eqb k key then Some v else get key rest
  end.

(** [type(v).__name__] *)
Definition py_type_name (v : json) : string :=
  match v with
  | JNull => "NoneType"
  | JBool _ => "bool"
  | JInt _ => "int"
  | JFloat _ _ => "float"
  | JStr _ => "str"
  | JArr _ => "list"
  | JObj _ => "dict"
  end.

(** ** Regular expressions: the fragment of [re] the plugin's patterns use *)

Definition ascii_lower (c : ascii) : ascii :=
  let n := N_of_ascii c in
  if ((65 <=? n) && (n <=? 90))%N then ascii_of_N (n + 32) else c.

Fixpoint str_lower (s : string) : string :=
  match s with
  | EmptyString => EmptyString
  | String c rest => String (ascii_lower c) (str_lower rest)
  end.

(** Comparison of a pattern character with a subject character, under
    [re.IGNORECASE] when [ic] is set.  The characters of a [string] are the
    code points below U+0100, among which the flag folds the letters A to Z
    and nothing else; [Unicode.chr_eq] below is the comparison on the whole
    of [str]. *)
Definition chr_eq (ic : bool) (c c' : ascii) : bool :=
  if ic then Ascii.eqb (ascii_lower c) (ascii_lower c') else Ascii.eqb c c'.

Inductive regex : Type :=
| Eps                          (* the empty pattern *)
| Chr (c : ascii)              (* a literal character *)
| Cls (p : ascii → bool)       (* one character of a class  [...]  *)
| Star (p : ascii → bool)      (* [...]*  greedy *)
| Cat (r1 r2 : regex)          (* r1 r2 *)
| Or (r1 r2 : regex)           (* r1|r2, r1 tried first *)
| Group (r : regex)            (* ( r ), the pattern's capture group *)
| Eos.                         (* $ *)

Definition Plus (p : ascii → bool) : regex := Cat (Cls p) (Star p).
Definition Opt (r : regex) : regex := Or r Eps.

Fixpoint Lit (s : string) : regex :=
  match s with
  | EmptyString => Eps
  | String c rest => Cat (Chr c) (Lit rest)
  end.

Fixpoint Seq (rs : list regex) : regex :=
  match rs with
  | [] => Eps
  | r :: rest => Cat r (Seq rest)
  end.

Fixpoint Alts (rs : list regex) : regex :=
  match rs with
  | [] => Cls (λ _, false)
  | [r] => r
  | r :: rest => Or r (Alts rest)
  end.

(** The text between two positions of the subject, each given by the suffix
    that starts there. *)
Definition consumed (s s' : string) : string :=
  String.substring 0 (String.length s - String.length s') s.

(** Backtracking matcher in continuation-passing style: [rmatch ic r s cap k]
    matches [r] at the start of [s] and hands the rest of the subject and the
    captured group to [k]; when [k] fails, the next way to match [r] is tried,
    longest repetition and leftmost alternative first, as [re] does. *)
Fixpoint rmatch {A : Type} (ic : bool) (r : regex) (s : string) (cap : option string)
    (k : string → option string → option A) : option A :=
  match r with
  | Eps => k s cap
  | Chr c =>
      match s with
      | String c' s' => if chr_eq ic c c' then k s' cap else None
      | EmptyString => None
      end
  | Cls p =>
      match s with
      | String c' s' => if p c' then k s' cap else None
      | EmptyString => None
      end
  | Star p =>
      (fix star (s : string) : option A :=
         match s with
         | String c' s' =>
             if p c'
             then match star s' with
                  | Some a => Some a
                  | None => k s cap
                  end
             else k s cap
         | EmptyString => k s cap
         end) s
  | Cat r1 r2 => rmatch ic r1 s cap (λ s' cap', rmatch ic r2 s' cap' k)
  | Or r1 r2 =>
      match rmatch ic r1 s cap k with
      | Some a => Some a
      | None => rmatch ic r2 s cap k
      end
  | Group r1 => rmatch ic r1 s cap (λ s' _, k s' (Some (consumed s s')))
  | Eos =>
      match s with
      | EmptyString => k s cap
      | String c EmptyString => if Ascii.eqb c "010" then k s cap else None
      | _ => None
      end
  end.

(** One match attempt at the start of [s]: the rest of the subject and the
    captured group. *)
Definition match_here (ic : bool) (r : regex) (s : string)
  : option (string * option string) :=
  rmatch ic r s None (λ s' cap, Some (s', cap)).

(** [re.search(r, s)] as a truth value: an attempt at every position. *)
Fixpoint re_search (ic : bool) (r : regex) (s : string) : bool :=
  match match_here ic r s with
  | Some _ => true
  | None =>
      match s with
      | EmptyString => false
      | String _ s' => re_search ic r s'
      end
  end.

(** [re.findall(r, s)] for a pattern with one group: the group of each
    match, scanning left to right and resuming where the last match ended.
    [fuel] bounds the number of positions visited. *)
Fixpoint findall_from (fuel : nat) (ic : bool) (r : regex) (s : string) : list string :=
  match fuel with
  | O => []
  | S fuel' =>
      match match_here ic r s with
      | Some (s', cap) =>
          default EmptyString cap ::
          (if String.length s' <? String.length s
           then findall_from fuel' ic r s'
           else match s with
                | EmptyString => []
                | String _ t => findall_from fuel' ic r t
                end)
      | None =>
          match s with
          | EmptyString => []
          | String _ t => findall_from fuel' ic r t
          end
      end
  end.

Definition re_findall (ic : bool) (r : regex) (s : string) : list string :=
  findall_from (S (String.length s)) ic r s.

(** *** Character classes and the five patterns *)

Definition is_one_of (cs : list ascii) (c : ascii) : bool :=
  existsb (Ascii.eqb c) cs.
Definition not_one_of (cs : list ascii) (c : ascii) : bool := negb (is_one_of cs c).

Definition dquote : ascii := "034".
Definition squote : ascii := "039".

(** [\s] on [str]: the characters whose [isspace()] holds. *)
Definition is_space (c : ascii) : bool :=
  let n := N_of_ascii c in
  ((9 <=? n) && (n <=? 13) || (28 <=? n) && (n <=? 32) || (n =? 133) || (n =? 160))%N.

(** The class of characters other than white space and [< > D ' ) ] }],
    D being the double quote. *)
Definition url_char (c : ascii) : bool :=
  negb (is_space c) && not_one_of ["<"; ">"; dquote; squote; ")"; "]"; "}"]%char c.

(** [[A-Za-z0-9+/=]] *)
Definition b64_char (c : ascii) : bool :=
  let n := N_of_ascii c in
  ((65 <=? n) && (n <=? 90) || (97 <=? n) && (n <=? 122) || (48 <=? n) && (n <=? 57))%N
  || is_one_of ["+"; "/"; "="]%char c.

Definition image_extensions : list string := ["png"; "jpg"; "jpeg"; "webp"; "gif"].

(** [<img[^>]*src=[D'] ([^D']+) [D'][^>]*>], D being the double quote. *)
Definition html_pattern : regex :=
  Seq [Lit "<img"; Star (not_one_of [">"%char]); Lit "src=";
       Cls (is_one_of [dquote; squote]);
       Group (Plus (not_one_of [dquote; squote]));
       Cls (is_one_of [dquote; squote]);
       Star (not_one_of [">"%char]); Chr ">"].

(** [!\[[^\]]*\]\(([^\)]+)\)] *)
Definition md_pattern : regex :=
  Seq [Lit "!["; Star (not_one_of ["]"%char]); Lit "](";
       Group (Plus (not_one_of [")"%char])); Chr ")"].

(** [(https?://U+\.(?:png|jpg|jpeg|webp|gif)Q?)] where U is the class
    [url_char] and Q is a question mark followed by any number of U. *)
Definition direct_pattern : regex :=
  Group (Seq [Lit "http"; Opt (Chr "s"); Lit "://"; Plus url_char; Chr ".";
              Alts (Lit <$> image_extensions);
              Opt (Cat (Chr "?") (Star url_char))]).

(** [(data:image/(?:png|jpeg|jpg|webp|gif);base64,[A-Za-z0-9+/=]+)] *)
Definition data_url_pattern : regex :=
  Group (Seq [Lit "data:image/";
              Alts (Lit <$> ["png"; "jpeg"; "jpg"; "webp"; "gif"]);
              Lit ";base64,"; Plus b64_char]).

(** [\.(png|jpg|jpeg|webp|gif)(?:$|[?&#])] *)
Definition extension_pattern : regex :=
  Seq [Chr "."; Group (Alts (Lit <$> image_extensions));
       Or Eos (Cls (is_one_of ["?"; "&"; "#"]%char))].

(** ** 4.3 Response parser *)

(** [ch in url] for a one-character [ch]. *)
Fixpoint str_contains (ch : ascii) (s : string) : bool :=
  match s with
  | EmptyString => false
  | String c rest => Ascii.eqb c ch || str_contains ch rest
  end.

Definition invalid_chars : list ascii :=
  ["<"; ">"; dquote; squote; "010"; "013"; "009"]%char.

(** [_is_valid_image_url] (lines 596-607); the callers pass a [str]. *)
Definition _is_valid_image_url (url : string) (require_extension : bool) : bool :=
  if String.length url <? 10 then false
  else if negb (String.prefix "http://" url || String.prefix "https://" url) then false
  else if require_extension && negb (re_search true extension_pattern url) then false
  else if existsb (λ ch, str_contains ch url) invalid_chars then false
  else true.

(** The loop of [_dedupe_preserve] (lines 557-561) with its two variables. *)
Fixpoint dedupe_loop (items : list string) (seen : gset string) (result : list string)
  : list string :=
  match items with
  | [] => result
  | item :: rest =>
      if bool_decide (item = "") || bool_decide (item ∈ seen)
      then dedupe_loop rest seen result
      else dedupe_loop rest ({[item]} ∪ seen) (result ++ [item])
  end.

Definition _dedupe_preserve (items : list string) : list string :=
  dedupe_loop items ∅ [].

(** [_extract_image_urls_from_text] (lines 564-588). *)
Definition _extract_image_urls_from_text (content : string) : list string :=
  if bool_decide (content = "") then []
  else
    filter (λ m, _is_valid_image_url m false = true) (re_findall true html_pattern content)
    ++ filter (λ m, _is_valid_image_url m false = true) (re_findall false md_pattern content)
    ++ filter (λ m, _is_valid_image_url m true = true) (re_findall true direct_pattern content).

(** [_extract_data_urls_from_text] (lines 590-594). *)
Definition _extract_data_urls_from_text (content : string) : list string :=
  if bool_decide (content = "") then []
  else re_findall true data_url_pattern content.

(** The two lists [_extract_image_results] fills: [image_urls], [data_urls]. *)
Definition found : Type := (list string * list string)%type.

(** One item of the top-level [data] list (lines 486-493). *)
Definition data_item (acc : found) (item : json) : found :=
  match item with
  | JObj d =>
      let image_urls :=
        match get "url" d with
        | Some (JStr url) =>
            if _is_valid_image_url url false then acc.1 ++ [url] else acc.1
        | _ => acc.1
        end in
      let data_urls :=
        match get "b64_json" d with
        | Some (JStr b64_json) =>
            if bool_decide (b64_json = "") then acc.2
            else acc.2 ++ ["data:image/png;base64," +:+ b64_json]
        | _ => acc.2
        end in
      (image_urls, data_urls)
  | _ => acc
  end.

(** Lines 483-493. *)
Definition from_data_field (response_data : list (string * json)) (acc : found) : found :=
  match get "data" response_data with
  | Some (JArr data_field) => foldl data_item acc data_field
  | _ => acc
  end.

(** Lines 496-499: the first element of a non-empty [choices] list. *)
Definition first_choice (response_data : list (string * json)) : option json :=
  match get "choices" response_data with
  | Some (JArr (choice :: _)) => Some choice
  | _ => None
  end.

(** [v == s] for what [d.get(key)] returned and a [str] literal. *)
Definition py_eq_str (v : option json) (s : string) : bool :=
  match v with
  | Some (JStr x) => String.eqb x s
  | _ => false
  end.

(** One part of a structured [content] (lines 509-521): the URL list and
    [text_parts]. *)
Definition content_part (acc : list string * list string) (part : json)
  : list string * list string :=
  match part with
  | JObj p =>
      let image_urls :=
        if py_eq_str (get "type" p) "image_url" then
          let image_url :=
            match get "image_url" p with
            | Some (JObj image_url_field) => get "url" image_url_field
            | _ =>
                match get "url" p with
                | Some (JStr u) => Some (JStr u)
                | _ => None
                end
            end in
          match image_url with
          | Some (JStr u) => if _is_valid_image_url u false then acc.1 ++ [u] else acc.1
          | _ => acc.1
          end
        else acc.1 in
      let text_parts :=
        if py_eq_str (get "type" p) "text" then
          match get "text" p with
          | Some (JStr t) => acc.2 ++ [t]
          | _ => acc.2
          end
        else acc.2 in
      (image_urls, text_parts)
  | _ => acc
  end.

(** ["\n".join(text_parts)] *)
Fixpoint join_lines (parts : list string) : string :=
  match parts with
  | [] => ""
  | [p] => p
  | p :: rest => p +:+ String "010" (join_lines rest)
  end.

(** Lines 506-530: what [content] adds. *)
Definition from_content (content : option json) (acc : found) : found :=
  match content with
  | Some (JArr parts) =>
      let '(image_urls, text_parts) := foldl content_part (acc.1, []) parts in
      match text_parts with
      | [] => (image_urls, acc.2)
      | _ =>
          let content_text := join_lines text_parts in
          (image_urls ++ _extract_image_urls_from_text content_text,
           acc.2 ++ _extract_data_urls_from_text content_text)
      end
  | Some (JStr text) =>
      (acc.1 ++ _extract_image_urls_from_text text,
       acc.2 ++ _extract_data_urls_from_text text)
  | _ => acc
  end.

(** One element of an attachment-like list (lines 537-540). *)
Definition attachment_item (image_urls : list string) (item : json) : list string :=
  match item with
  | JObj d =>
      match get "url" d with
      | Some (JStr url) =>
          if _is_valid_image_url url false then image_urls ++ [url] else image_urls
      | _ => image_urls
      end
  | _ => image_urls
  end.

(** Lines 533-540. *)
Definition from_attachments (message : list (string * json)) (image_urls : list string)
  : list string :=
  foldl (λ urls field,
           match get field message with
           | Some (JArr items) => foldl attachment_item urls items
           | _ => urls
           end)
        image_urls ["attachments"; "media"; "files"; "images"].

(** Lines 501-540.  [message.get] is an attribute lookup on whatever the
    [message] field holds: on anything but a [dict] it raises
    [AttributeError].  The lists filled so far are returned with the
    exception. *)
Definition from_choice (choice : option json) (acc : found) : found * option string :=
  match choice with
  | Some (JObj c) =>
      match default (JObj []) (get "message" c) with
      | JObj message =>
          let acc1 := from_content (get "content" message) acc in
          ((from_attachments message acc1.1, acc1.2), None)
      | other =>
          (acc, Some ("'" +:+ py_type_name other +:+ "' object has no attribute 'get'"))
      end
  | _ => (acc, None)
  end.

(** Lines 479-540: every extraction step, in order. *)
Definition collect (response_data : list (string * json)) : found * option string :=
  from_choice (first_choice response_data) (from_data_field response_data ([], [])).

Definition msg_no_image : string := "未能从 API 响应中提取到有效图片".

(** [_extract_image_results] (lines 473-552). *)
Definition _extract_image_results (response_data : json)
  : list string * list string * option string :=
  match response_data with
  | JObj d =>
      match collect d with
      | (_, Some e) => ([], [], Some ("图片提取失败: " +:+ e))
      | ((image_urls, data_urls), None) =>
          let image_urls := _dedupe_preserve image_urls in
          let data_urls := _dedupe_preserve data_urls in
          match image_urls, data_urls with
          | [], [] => ([], [], Some msg_no_image)
          | _, _ => (image_urls, data_urls, None)
          end
      end
  | other =>
      ([], [], Some ("无效的响应格式: <class '" +:+ py_type_name other +:+ "'>"))
  end.

(** ** 4.4 API client *)

(** [if x:] for an [Optional[str]]. *)
Definition py_truthy (x : option string) : bool :=
  match x with
  | Some s => negb (bool_decide (s = ""))
  | None => false
  end.

(** [s[:n]] *)
Definition str_take (n : nat) (s : string) : string := String.substring 0 n s.

(** [sub in s] *)
Fixpoint str_find (sub s : string) : bool :=
  String.prefix sub s ||
  match s with
  | EmptyString => false
  | String _ rest => str_find sub rest
  end.

Fixpoint lstrip (s : string) : string :=
  match s with
  | String c rest => if is_space c then lstrip rest else s
  | EmptyString => EmptyString
  end.

(** [s.strip()] *)
Definition str_strip (s : string) : string :=
  String.rev (lstrip (String.rev (lstrip s))).

(** The JSON body of one request: model, final prompt and image. *)
Record Payload : Type := {
  payload_model : string;
  payload_text : string;
  payload_image_url : string
}.

(** What [response.json()] does. *)
Inductive json_decoding : Type :=
| Decoded (v : json)
| JSONDecodeError (e : string)
| DecodingRaised (e : string).

(** What one [client.post] does. *)
Inductive http_reply : Type :=
| Response (status_code : Z) (text : string) (body : json_decoding)
| TimeoutException
| RequestError (e : string).

(** What sending a chain of images within the 60 s budget does. *)
Inductive delivery : Type :=
| Delivered
| DeliveryTimedOut
| DeliveryRaised (e : string).

Inductive image_component : Type :=
| FromURL (url : string)
| FromFileSystem (path : string).

(** The collaborators of the plugin, as oracles. *)
Record World : Type := {
  (** [str(v)] of a decoded JSON value *)
  py_str : json → string;
  (** the reply to the POST of attempt number [n] *)
  post : Payload → nat → http_reply;
  (** the platform round trip of [_fetch_images_from_reply] (lines 247-302) *)
  _fetch_images_from_reply : string → list string * option string;
  (** [_save_base64_image] (lines 633-653): the path written, or [None] *)
  _save_base64_image : string → option string;
  (** the relay module, [None] when it could not be imported *)
  send_file : option (string → outcome string);
  (** [event.send(event.plain_result(text))] *)
  send_plain : string → outcome unit;
  (** [asyncio.wait_for(event.send(event.chain_result(components)), 60)] *)
  send_chain : list image_component → delivery
}.

Definition api_result : Type := (list string * list string * option string)%type.

(** Lines 378-380. *)
Definition final_prompt (cfg : Config) (prompt : string) : string :=
  let p := str_strip prompt in
  if bool_decide (prompt_prefix cfg = "") then p
  else if bool_decide (p = "") then prompt_prefix cfg
  else prompt_prefix cfg +:+ String "010" p.

Definition build_payload (cfg : Config) (prompt image_base64 : string) : Payload :=
  {| payload_model := model_id cfg;
     payload_text := final_prompt cfg prompt;
     payload_image_url := image_base64 |}.

(** Lines 438-449: the message for a status other than 200 and 403. *)
Definition request_failed_msg (w : World) (status_code : Z) (text : string)
    (body : json_decoding) : string :=
  let fallback := str_take 200 text in
  let has (key : string) (l : list json) : bool :=
    existsb (λ v, match v with JStr s => String.eqb s key | _ => false end) l in
  "API请求失败 (状态码: " +:+ pretty status_code +:+ "): " +:+
  match body with
  | Decoded (JObj d) =>
      match get "error" d with
      | Some v => py_str w v
      | None =>
          match get "message" d with
          | Some v => py_str w v
          | None => py_str w (JObj d)
          end
      end
  | Decoded (JArr l) =>
      if has "error" l || has "message" l then fallback else py_str w (JArr l)
  | Decoded (JStr s) =>
      if str_find "error" s || str_find "message" s then fallback else py_str w (JStr s)
  | _ => fallback
  end.

(** A reply with status 200 (lines 421-433). *)
Definition on_status_200 (text : string) (body : json_decoding)
  : outcome api_result :=
  match body with
  | Decoded result =>
      let '(image_urls, data_urls, parse_error) := _extract_image_results result in
      if py_truthy parse_error then Ok ([], [], parse_error)
      else match image_urls, data_urls with
           | [], [] => Ok ([], [], Some "API响应中未包含有效的图片链接")
           | _, _ => Ok (image_urls, data_urls, None)
           end
  | JSONDecodeError e =>
      Ok ([], [], Some ("API响应JSON解析失败: " +:+ e +:+ ", 响应内容: " +:+ str_take 200 text))
  | DecodingRaised e => Raised e
  end.

(** The attempt loop (lines 407-471): [remaining] iterations are left and
    [attempt] is the loop variable.  Returns the result and the number of
    requests sent. *)
Fixpoint attempt_loop (cfg : Config) (w : World) (payload : Payload)
    (remaining attempt : nat) : api_result * nat :=
  match remaining with
  | O => (([], [], Some "所有重试均失败"), O)
  | S remaining' =>
      let retry (error_msg : string) : api_result * nat :=
        if bool_decide (Z.of_nat attempt = max_retry_attempts cfg - 1)%Z
        then (([], [], Some error_msg), 1)
        else let '(r, n) := attempt_loop cfg w payload remaining' (S attempt) in
             (r, S n) in
      match post w payload attempt with
      | Response status_code text body =>
          if bool_decide (status_code = 200)%Z then
            match on_status_200 text body with
            | Ok r => (r, 1)
            | Raised e => retry ("请求异常: " +:+ e)
            end
          else if bool_decide (status_code = 403)%Z then
            (([], [], Some "API访问被拒绝，请检查密钥和权限"), 1)
          else retry (request_failed_msg w status_code text body)
      | TimeoutException =>
          retry ("请求超时 (" +:+ pretty (timeout_seconds cfg) +:+ "秒)")
      | RequestError e => retry ("请求异常: " +:+ e)
      end
  end.

(** [_call_grok_api] (lines 373-471). *)
Definition _call_grok_api (cfg : Config) (w : World) (prompt image_base64 : string)
  : api_result * nat :=
  if bool_decide (api_key cfg = "") then (([], [], Some "未配置API密钥"), O)
  else attempt_loop cfg w (build_payload cfg prompt image_base64)
                    (Z.to_nat (max_retry_attempts cfg)) 0.

(** ** 4.2 Image source resolver: [_extract_images_from_message] *)

(** Lines 157-161 (and 169-173): the data URI an [Image] component adds. *)
Definition image_data (convert_to_base64 : outcome string) : list string :=
  match convert_to_base64 with
  | Ok base64_data =>
      if bool_decide (base64_data = "") then []
      else if String.prefix "data:" base64_data then [base64_data]
      else ["data:image/jpeg;base64," +:+ base64_data]
  | Raised _ => []
  end.

(** Lines 154-178: one component of the message; [images] and [reply_ids]. *)
Definition scan_component (acc : list string * list string) (comp : component)
  : list string * list string :=
  match comp with
  | Image conv => (acc.1 ++ image_data conv, acc.2)
  | Reply chain reply_id =>
      let images :=
        foldl (λ imgs reply_comp,
                 match reply_comp with
                 | Image conv => imgs ++ image_data conv
                 | _ => imgs
                 end) acc.1 chain in
      (images, if py_truthy reply_id then acc.2 ++ [default "" reply_id] else acc.2)
  | OtherComponent => acc
  end.

(** Lines 185-191: the referenced messages, tried in order. *)
Fixpoint fetch_first (w : World) (reply_ids : list string) (last_error : option string)
  : list string * option string :=
  match reply_ids with
  | [] => ([], Some (if py_truthy last_error then default "" last_error
                     else "引用消息中未找到图片"))
  | reply_id :: rest =>
      let '(fetched, error) := _fetch_images_from_reply w reply_id in
      match fetched with
      | _ :: _ => (fetched, None)
      | [] => fetch_first w rest (if py_truthy error then error else last_error)
      end
  end.

Definition _extract_images_from_message (w : World) (event : Event)
  : list string * option string :=
  let '(images, reply_ids) := foldl scan_component ([], []) (message event) in
  match images, reply_ids with
  | _ :: _, _ => (images, None)
  | [], _ :: _ => fetch_first w reply_ids None
  | [], [] => ([], None)
  end.

(** ** 4.6 Task orchestrator *)

(** Lines 715-719: the inline results that could be written to disk. *)
Definition save_all (w : World) (data_urls : list string) : list string :=
  foldl (λ image_paths data_url,
           if py_truthy (_save_base64_image w data_url)
           then image_paths ++ [default "" (_save_base64_image w data_url)]
           else image_paths) [] data_urls.

(** [_generate_image_edit_core] (lines 686-721): the result and the requests
    sent upstream, each with the image it carried. *)
Definition _generate_image_edit_core (cfg : Config) (w : World) (event : Event)
    (prompt : string) (prefetched_images : option (list string))
    (prefetched_error : option string) : api_result * list Payload :=
  if negb (enabled cfg) then (([], [], Some "图片编辑功能已禁用"), [])
  else if py_truthy prefetched_error then (([], [], prefetched_error), [])
  else
    let '(images, extract_error) :=
      match prefetched_images with
      | None => _extract_images_from_message w event
      | Some images => (images, None)
      end in
    if py_truthy extract_error then (([], [], extract_error), [])
    else match images with
         | [] => (([], [], Some "未找到图片，请在消息中包含图片或引用包含图片的消息"), [])
         | image_base64 :: _ =>
             let '((image_urls, data_urls, error_msg), sent) :=
               _call_grok_api cfg w prompt image_base64 in
             let requests := replicate sent (build_payload cfg prompt image_base64) in
             if py_truthy error_msg then (([], [], error_msg), requests)
             else ((image_urls, save_all w data_urls, None), requests)
         end.

(** [_prepare_image_path] (lines 655-671). *)
Definition _prepare_image_path (cfg : Config) (w : World) (image_path : string) : string :=
  if bool_decide (image_path = "") then image_path
  else if bool_decide (nap_server_address cfg = "") || bool_decide (nap_server_port cfg = 0%Z)
  then image_path
  else match send_file w with
       | None => image_path
       | Some relay =>
           match relay image_path with
           | Ok forwarded_path =>
               if bool_decide (forwarded_path = "") then image_path else forwarded_path
           | Raised _ => image_path
           end
       end.

(** The first loop of lines 753-757: [components] and [count] at its end. *)
Fixpoint add_urls (cfg : Config) (image_urls : list string)
    (components : list image_component) (count : Z) : list image_component * Z :=
  match image_urls with
  | [] => (components, count)
  | image_url :: rest =>
      if bool_decide (max_images_per_response cfg ≤ count)%Z then (components, count)
      else add_urls cfg rest (components ++ [FromURL image_url]) (count + 1)%Z
  end.

(** The second loop, lines 759-764. *)
Fixpoint add_paths (cfg : Config) (w : World) (image_paths : list string)
    (components : list image_component) (count : Z) : list image_component * Z :=
  match image_paths with
  | [] => (components, count)
  | image_path :: rest =>
      if bool_decide (max_images_per_response cfg ≤ count)%Z then (components, count)
      else add_paths cfg w rest
             (components ++ [FromFileSystem (_prepare_image_path cfg w image_path)])
             (count + 1)%Z
  end.

(** Lines 750-764: the components handed to the chat platform. *)
Definition build_components (cfg : Config) (w : World)
    (image_urls image_paths : list string) : list image_component :=
  let '(components, count) := add_urls cfg image_urls [] 0%Z in
  (add_paths cfg w image_paths components count).1.

(** What the asynchronous body does to the outside, in order: a text or a
    chain of images handed to the chat platform, a file removed if it is
    there. *)
Inductive effect : Type :=
| SendPlain (text : string)
| SendChain (components : list image_component)
| Unlink (path : string).

Definition action : Type := (list effect * outcome unit)%type.

Definition skip : action := ([], Ok tt).

(** [a] and then, unless [a] raised, [b]. *)
Definition and_then (a b : action) : action :=
  match a with
  | (done_, Ok _) => (done_ ++ b.1, b.2)
  | (done_, Raised e) => (done_, Raised e)
  end.

Definition plain (w : World) (text : string) : action :=
  ([SendPlain text], send_plain w text).

Definition when (b : bool) (a : action) : action := if b then a else skip.

(** [_cleanup_image_file] (lines 673-684); it never raises. *)
Definition _cleanup_image_file (cfg : Config) (image_path : string) : action :=
  if bool_decide (image_path = "") then skip
  else if save_image_enabled cfg then skip
  else ([Unlink image_path], Ok tt).

(** Lines 766-779. *)
Definition deliver (cfg : Config) (w : World) (components : list image_component)
  : action :=
  let verbose := bool_decide (status_message_mode cfg = "verbose") in
  match send_chain w components with
  | Delivered =>
      and_then ([SendChain components], Ok tt)
               (when verbose (plain w "✅ 图片发送成功！"))
  | DeliveryTimedOut =>
      and_then ([SendChain components], Ok tt)
               (when verbose
                  (plain w ("⚠️ 图片发送超时，但可能仍在传输中。" +:+ String "010"
                            "如果稍后收到图片，说明发送成功。")))
  | DeliveryRaised e => ([SendChain components], Raised e)
  end.

(** The [try] block of [_async_edit_image] (lines 733-782). *)
Definition async_edit_try (cfg : Config) (w : World) (event : Event) (prompt : string)
    (prefetched_images : option (list string)) (prefetched_error : option string)
  : action :=
  let '(image_urls, image_paths, error_msg) :=
    (_generate_image_edit_core cfg w event prompt prefetched_images prefetched_error).1 in
  if py_truthy error_msg then plain w ("❌ " +:+ default "" error_msg)
  else match image_urls, image_paths with
       | [], [] => plain w "❌ 图片编辑失败，请稍后再试"
       | _, _ =>
           let components := build_components cfg w image_urls image_paths in
           and_then
             (when (bool_decide (status_message_mode cfg = "verbose"))
                   (plain w "🖼️ 正在发送编辑后的图片，请稍候..."))
             (and_then
                (when (negb (bool_decide (components = []))) (deliver cfg w components))
                (foldl (λ a image_path, and_then a (_cleanup_image_file cfg image_path))
                       skip image_paths))
       end.

(** The [finally] clause (lines 788-791). *)
Definition async_edit_finally (st : State) (user_id task_id : string) : State :=
  if bool_decide (_processing_tasks st !! user_id = Some task_id)
  then set_tasks (delete user_id (_processing_tasks st)) st
  else st.

(** The [except Exception] clause (lines 784-786): what was done, and the
    exception that escapes when the report itself cannot be sent. *)
Definition async_edit_except (w : World) (a : action) : list effect * option string :=
  match a with
  | (done_, Ok _) => (done_, None)
  | (done_, Raised e) =>
      let report := "❌ 图片编辑时遇到问题: " +:+ e in
      match send_plain w report with
      | Ok _ => (done_ ++ [SendPlain report], None)
      | Raised e' => (done_ ++ [SendPlain report], Some e')
      end
  end.

(** [_async_edit_image] (lines 723-791).  The [try] block neither reads nor
    writes the plugin state; [st] is the state when the [finally] clause runs.
    Returns the state left behind, what was done, and the exception that
    escapes, if any. *)
Definition _async_edit_image (cfg : Config) (w : World) (st : State) (event : Event)
    (prompt task_id : string) (prefetched_images : option (list string))
    (prefetched_error : option string) : State * list effect * option string :=
  let user_id := get_sender_id event in
  let '(done_, escaped) :=
    async_edit_except w
      (async_edit_try cfg w event prompt prefetched_images prefetched_error) in
  (async_edit_finally st user_id task_id, done_, escaped).

Definition msg_busy : string :=
  "⚠️ 您已有一个图片编辑任务在进行中，请等待完成后再试。".

(** The arguments of the task [cmd_edit_image] creates. *)
Record Task : Type := {
  task_event : Event;
  task_prompt : string;
  task_id : string;
  task_images : list string
}.

(** [cmd_edit_image] up to its first suspension point (lines 796-804): the
    reply that ends the command, if any. *)
Definition cmd_edit_image_gate (cfg : Config) (st : State) (event : Event) (now : Z)
  : State * option string :=
  let '(st1, access_error) := _check_group_access cfg st event now in
  if py_truthy access_error then (st1, access_error)
  else if bool_decide (is_Some (_processing_tasks st1 !! get_sender_id event))
  then (st1, Some msg_busy)
  else (st1, None).

(** [cmd_edit_image] once [_extract_images_from_message] has returned
    (lines 807-829): the replies yielded and the task created.  [new_id] is
    the identifier drawn from [uuid4]. *)
Definition cmd_edit_image_start (cfg : Config) (st : State) (event : Event)
    (prompt : string) (extracted : list string * option string) (new_id : string)
  : State * list string * option Task :=
  let '(images, extract_error) := extracted in
  if py_truthy extract_error then (st, ["❌ " +:+ default "" extract_error], None)
  else match images with
       | [] => (st, ["❌ 图片编辑需要您在消息中包含图片或引用包含图片的消息。"], None)
       | _ =>
           (set_tasks (<[get_sender_id event := new_id]> (_processing_tasks st)) st,
            (if bool_decide (status_message_mode cfg = "silent") then []
             else ["🖼️ 正在使用Grok为您编辑图片，请稍候..." +:+ String "010"
                   ("🆔 任务ID: " +:+ new_id +:+ String "010"
                    "📝 提示：如果显示超时但稍后收到图片，说明发送成功。")]),
            Some {| task_event := event; task_prompt := prompt;
                    task_id := new_id; task_images := images |})
       end.

(** [cmd_edit_image] (lines 794-829) when no other handler runs while the
    images are being extracted. *)
Definition cmd_edit_image (cfg : Config) (w : World) (st : State) (event : Event)
    (prompt : string) (now : Z) (new_id : string) : State * list string * option Task :=
  match cmd_edit_image_gate cfg st event now with
  | (st1, Some reply) => (st1, [reply], None)
  | (st1, None) =>
      cmd_edit_image_start cfg st1 event prompt (_extract_images_from_message w event)
                           new_id
  end.

(** The task created by [cmd_edit_image], run to its end in state [st]. *)
Definition run_task (cfg : Config) (w : World) (st : State) (t : Task)
  : State * list effect * option string :=
  _async_edit_image cfg w st (task_event t) (task_prompt t) (task_id t)
                    (Some (task_images t)) None.

(** ** Notions the theorems are stated with *)

(** The settings [__init__] falls back on. *)
Definition default_config : Config :=
  {| server_url := "https://api.x.ai";
     api_url := "https://api.x.ai/v1/chat/completions";
     model_id := "grok-imagine-0.9";
     api_key := "";
     enabled := true;
     prompt_prefix :=
       "请基于所附图片进行编辑，不要生成全新图像。尽量保持主体、构图、视角和背景不变，只做提示词要求的修改。";
     status_message_mode := "minimal";
     timeout_seconds := 120;
     max_retry_attempts := 3;
     group_control_mode := "off";
     group_list := [];
     rate_limit_enabled := true;
     rate_limit_window_seconds := CInt 3600;
     rate_limit_max_calls := CInt 5;
     max_images_per_response := 4;
     save_image_enabled := false;
     nap_server_address := "";
     nap_server_port := 0 |}.

(** The window start and count a check of group [g] works with once the
    expiry test of line 129 is done, for a window of [W] seconds. *)
Definition effective (g : string) (W : Z) (st : State) (now : Z) : Z * Z :=
  match _rate_limit_bucket st !! g with
  | None => (now, 0%Z)
  | Some b =>
      if bool_decide (W ≤ now - window_start b)%Z then (now, 0%Z)
      else (window_start b, count b)
  end.

(** A check at [t0] opens a new window for group [g]: no bucket is stored
    for it, or the stored one has run out. *)
Definition fresh_at (g : string) (W : Z) (st : State) (t0 : Z) : Prop :=
  ∀ b, _rate_limit_bucket st !! g = Some b → (W ≤ t0 - window_start b)%Z.

(** Every stored bucket counts at least one and at most [M] calls. *)
Definition counts_bounded (M : Z) (st : State) : Prop :=
  ∀ g b, _rate_limit_bucket st !! g = Some b → (1 ≤ count b ≤ M)%Z.

(** Every character of [s] satisfies [p]. *)
Fixpoint str_all (p : ascii → bool) (s : string) : Prop :=
  match s with
  | EmptyString => True
  | String c rest => p c = true ∧ str_all p rest
  end.

(** What a pattern denotes: [matches ic r s s'] when [r] can match a prefix
    of the subject [s] and leave [s']. *)
Fixpoint matches (ic : bool) (r : regex) (s s' : string) : Prop :=
  match r with
  | Eps => s' = s
  | Chr c => ∃ c', s = String c' s' ∧ chr_eq ic c c' = true
  | Cls p => ∃ c', s = String c' s' ∧ p c' = true
  | Star p => ∃ w, s = w +:+ s' ∧ str_all p w
  | Cat r1 r2 => ∃ m, matches ic r1 s m ∧ matches ic r2 m s'
  | Or r1 r2 => matches ic r1 s s' ∨ matches ic r2 s s'
  | Group r1 => matches ic r1 s s'
  | Eos => s' = s ∧ (s = "" ∨ s = String "010" "")
  end.

(** The URL ends in an image extension, in any letter case, with nothing
    after it or a tail that starts a query or a fragment. *)
Definition ends_with_image_extension (url : string) : Prop :=
  ∃ stem ext tail,
    url = stem +:+ "." +:+ ext +:+ tail
    ∧ str_lower ext ∈ image_extensions
    ∧ (tail = "" ∨ ∃ c rest, tail = String c rest ∧ c ∈ ["?"; "&"; "#"]%char).

(** A pattern that cannot match without consuming a character. *)
Fixpoint consumes (r : regex) : bool :=
  match r with
  | Chr _ | Cls _ => true
  | Cat r1 r2 => consumes r1 || consumes r2
  | Or r1 r2 => consumes r1 && consumes r2
  | Group r1 => consumes r1
  | Eps | Star _ | Eos => false
  end.

(** The response has the shape the parser relies on: it is an object, and
    when its first choice is an object that carries a [message], that message
    is an object too. *)
Definition well_formed (response_data : json) : Prop :=
  ∃ d, response_data = JObj d
       ∧ ∀ c v, first_choice d = Some (JObj c) → get "message" c = Some v →
                ∃ message, v = JObj message.

(** Both lists of [b] continue those of [a]. *)
Definition extends (a b : found) : Prop :=
  a.1 `prefix_of` b.1 ∧ a.2 `prefix_of` b.2.

(** No list holds an empty string. *)
Definition nonempty_entries (a : found) : Prop :=
  Forall (λ x, x ≠ "") a.1 ∧ Forall (λ x, x ≠ "") a.2.

(** A reply after which the client tries again, unless the attempt was the
    last: a status other than 200 and 403, a timeout, a transport error. *)
Definition retryable (reply : http_reply) : Prop :=
  match reply with
  | Response status_code _ _ => status_code ≠ 200%Z ∧ status_code ≠ 403%Z
  | TimeoutException | RequestError _ => True
  end.

(** The error text the client builds for such a reply. *)
Definition retry_error (cfg : Config) (w : World) (reply : http_reply) : string :=
  match reply with
  | Response status_code text body => request_failed_msg w status_code text body
  | TimeoutException => "请求超时 (" +:+ pretty (timeout_seconds cfg) +:+ "秒)"
  | RequestError e => "请求异常: " +:+ e
  end.

(** A world in which the server answers attempt [n] with [replies n], no
    image can be fetched, saved or relayed, and every message goes out. *)
Definition world_of (replies : nat → http_reply) : World :=
  {| py_str := λ _, "";
     post := λ _ n, replies n;
     _fetch_images_from_reply := λ _, ([], None);
     _save_base64_image := λ _, None;
     send_file := None;
     send_plain := λ _, Ok tt;
     send_chain := λ _, Delivered |}.

(** The image chains an effect trace hands to the chat platform. *)
Definition chains (effects : list effect) : list (list image_component) :=
  omap (λ e, match e with SendChain components => Some components | _ => None end) effects.

(** Every result as an image component, remote URLs first. *)
Definition all_components (cfg : Config) (w : World)
    (image_urls image_paths : list string) : list image_component :=
  (FromURL <$> image_urls)
  ++ ((λ image_path, FromFileSystem (_prepare_image_path cfg w image_path)) <$> image_paths).

(** The user a task works for. *)
Definition task_user (t : Task) : string := get_sender_id (task_event t).

(** The plugin state together with the tasks created and not yet finished,
    when commands are handled one at a time: a whole command runs, or a task
    runs to its end.  The event loop gives no such guarantee: [handler_step]
    below has the steps of handlers that overlap. *)
Inductive serial_step (cfg : Config) (w : World)
  : State * list Task → State * list Task → Prop :=
| step_command (st : State) (running : list Task) (event : Event) (prompt : string)
    (now : Z) (new_id : string) :
    serial_step cfg w (st, running)
      ((cmd_edit_image cfg w st event prompt now new_id).1.1,
       running ++ option_list (cmd_edit_image cfg w st event prompt now new_id).2)
| step_finish (st : State) (running1 running2 : list Task) (task : Task) :
    serial_step cfg w (st, running1 ++ task :: running2)
      ((run_task cfg w st task).1.1, running1 ++ running2).

(** The tokens are exactly those of the running tasks, one task per user. *)
Definition tokens_match (s : State * list Task) : Prop :=
  NoDup (task_user <$> s.2)
  ∧ ∀ user token,
      _processing_tasks s.1 !! user = Some token
      ↔ ∃ t, t ∈ s.2 ∧ task_user t = user ∧ task_id t = token.

(** ** Sample inputs *)

(** A group limited to two calls a minute, and a client with a key and two
    attempts. *)
Definition two_per_minute : Config :=
  {| server_url := server_url default_config;
     api_url := api_url default_config;
     model_id := model_id default_config;
     api_key := "key";
     enabled := true;
     prompt_prefix := "";
     status_message_mode := "minimal";
     timeout_seconds := 120;
     max_retry_attempts := 2;
     group_control_mode := "off";
     group_list := [];
     rate_limit_enabled := true;
     rate_limit_window_seconds := CInt 60;
     rate_limit_max_calls := CInt 2;
     max_images_per_response := 4;
     save_image_enabled := false;
     nap_server_address := "";
     nap_server_port := 0 |}.

(** A window length that arrives as text: the comparison of line 129 raises
    [TypeError]. *)
Definition text_window : Config :=
  {| server_url := server_url default_config;
     api_url := api_url default_config;
     model_id := model_id default_config;
     api_key := "key";
     enabled := true;
     prompt_prefix := "";
     status_message_mode := "minimal";
     timeout_seconds := 120;
     max_retry_attempts := 3;
     group_control_mode := "off";
     group_list := [];
     rate_limit_enabled := true;
     rate_limit_window_seconds := CStr "3600";
     rate_limit_max_calls := CInt 0;
     max_images_per_response := 4;
     save_image_enabled := false;
     nap_server_address := "";
     nap_server_port := 0 |}.

(** A command sent in group [g1] by user [u1], with no image. *)
Definition group_event : Event :=
  {| get_group_id := Ok "g1"; get_sender_id := "u1"; message := [] |}.

(** The same, with two images in the message. *)
Definition two_images : Event :=
  {| get_group_id := Ok "g1";
     get_sender_id := "u1";
     message := [Image (Ok "AAAA"); OtherComponent;
                 Image (Ok "data:image/png;base64,BBBB")] |}.

(** A URL found twice: in the [data] list and again, after another one, in
    the Markdown of the first choice. *)
Definition twice_found : json :=
  JObj [("data", JArr [JObj [("url", JStr "https://x/a.png")]]);
        ("choices",
         JArr [JObj [("message",
                      JObj [("content",
                             JStr "![b](https://x/b.jpg) ![a](https://x/a.png)")])]])].

(** A server that fails once and then answers with one image. *)
Definition flaky_server : World :=
  world_of (λ n, match n with
                 | 0 => Response 500 "overloaded" (JSONDecodeError "Expecting value")
                 | _ => Response 200 "{...}"
                          (Decoded (JObj [("data",
                                           JArr [JObj [("url", JStr "https://x/a.png")]])]))
                 end).

(** A server that refuses the key. *)
Definition forbidden_server : World :=
  world_of (λ _, Response 403 "forbidden" (Decoded (JObj [("error", JStr "forbidden")]))).

(** The flaky server again, behind a chat platform that has gone away: no
    message can be sent any more. *)
Definition broken_chat : World :=
  {| py_str := λ _, "";
     post := post flaky_server;
     _fetch_images_from_reply := λ _, ([], None);
     _save_base64_image := λ _, None;
     send_file := None;
     send_plain := λ _, Raised "connection closed";
     send_chain := λ _, DeliveryRaised "connection closed" |}.

(** User [u1] has task [t1] pending. *)
Definition u1_pending : State := set_tasks {["u1" := "t1"]} init_state.

(** ** Further notions *)

(** The group an event comes from, as [_check_group_access] reads it: empty
    for a private chat or when [event.get_group_id()] raises. *)
Definition group_of (event : Event) : string :=
  match get_group_id event with Ok g => g | Raised _ => "" end.

(** The default settings with a key and the given group control, rate limit,
    status mode, image cap and retain flag. *)
Definition settings (mode : string) (groups : list string) (limited : bool)
    (window limit : cfgval) (status : string) (cap : Z) (retain : bool) : Config :=
  {| server_url := server_url default_config;
     api_url := api_url default_config;
     model_id := model_id default_config;
     api_key := "key";
     enabled := true;
     prompt_prefix := prompt_prefix default_config;
     status_message_mode := status;
     timeout_seconds := 120;
     max_retry_attempts := 3;
     group_control_mode := mode;
     group_list := groups;
     rate_limit_enabled := limited;
     rate_limit_window_seconds := window;
     rate_limit_max_calls := limit;
     max_images_per_response := cap;
     save_image_enabled := retain;
     nap_server_address := "";
     nap_server_port := 0 |}.

(** The group held once a pattern has matched from [s] down to [s']: the
    one held before, or a piece of the text the match went over. *)
Definition captured_within (s s' : string) (cap cap' : option string) : Prop :=
  cap' = cap ∨ ∃ pre w post, s = pre +:+ w +:+ post +:+ s' ∧ cap' = Some w.

(** [x] occurs in [s]. *)
Definition occurs_in (x s : string) : Prop := ∃ pre post, s = pre +:+ x +:+ post.

(** What the client and the core operation promise their callers: an error
    that is there and no result, or no error and some result. *)
Definition error_or_images (r : api_result) : Prop :=
  (py_truthy r.2 = true ∧ r.1 = ([], []))
  ∨ (r.2 = None ∧ (r.1.1 ≠ [] ∨ r.1.2 ≠ [])).

(** The error texts of an attempt that failed for good. *)
Definition attempt_errors (cfg : Config) (w : World) (e : string) : Prop :=
  e = "API访问被拒绝，请检查密钥和权限"
  ∨ e = "请求超时 (" +:+ pretty (timeout_seconds cfg) +:+ "秒)"
  ∨ (∃ x, e = "请求异常: " +:+ x)
  ∨ (∃ status_code text body, e = request_failed_msg w status_code text body).

(** White space only. *)
Definition blank (s : string) : Prop := str_all is_space s.

(** The files an effect trace removes. *)
Definition unlinked (effects : list effect) : list string :=
  omap (λ e, match e with Unlink path => Some path | _ => None end) effects.

(** A text or a chain handed to the chat platform. *)
Definition is_send (e : effect) : bool :=
  match e with
  | SendPlain _ | SendChain _ => true
  | Unlink _ => false
  end.

(** A server that answers with two inline images, a disk that takes them, and
    a chat platform that is slow: handing it a chain times out. *)
Definition inline_server : World :=
  {| py_str := λ _, "";
     post := λ _ _, Response 200 "{...}"
                      (Decoded (JObj [("data", JArr [JObj [("b64_json", JStr "iVBO")];
                                                     JObj [("b64_json", JStr "R0lG")]])]));
     _fetch_images_from_reply := λ _, ([], None);
     _save_base64_image :=
       λ data_url, Some ("/data/images/" +:+ pretty (String.length data_url) +:+ ".png");
     send_file := None;
     send_plain := λ _, Ok tt;
     send_chain := λ _, DeliveryTimedOut |}.

(** ** Images of a quoted message (lines 231-371) *)

(** [bool(v)] for a decoded JSON value. *)
Definition json_truthy (v : json) : bool :=
  match v with
  | JNull => false
  | JBool b => b
  | JInt n => negb (bool_decide (n = 0%Z))
  | JFloat mantissa _ => negb (bool_decide (mantissa = 0%Z))
  | JStr s => negb (bool_decide (s = ""))
  | JArr items => match items with [] => false | _ => true end
  | JObj fields => match fields with [] => false | _ => true end
  end.

(** [a or b] for two lookups; an absent key gives Python's [None]. *)
Definition py_or (a b : option json) : option json :=
  match a with
  | Some v => if json_truthy v then Some v else b
  | None => b
  end.

(** [v] when [isinstance(v, str) and v]. *)
Definition nonempty_str (v : option json) : option string :=
  match v with
  | Some (JStr s) => if bool_decide (s = "") then None else Some s
  | _ => None
  end.

(** [str(v)] when [isinstance(v, (str, int)) and str(v)]; a [bool] is an
    [int] to Python. *)
Definition str_of_id (v : option json) : option string :=
  match v with
  | Some (JStr s) => if bool_decide (s = "") then None else Some s
  | Some (JInt n) => Some (pretty n)
  | Some (JBool b) => Some (if b then "True" else "False")
  | _ => None
  end.

(** [s.split(ch)[0]] *)
Fixpoint before_first (ch : ascii) (s : string) : string :=
  match s with
  | EmptyString => EmptyString
  | String c rest =>
      if Ascii.eqb c ch then EmptyString else String c (before_first ch rest)
  end.

(** [s[n:]] *)
Fixpoint str_drop (n : nat) (s : string) : string :=
  match n, s with
  | S n', String _ rest => str_drop n' rest
  | _, _ => s
  end.

(** The OneBot client of an event: what awaiting [call_action] gives. *)
Record OneBot : Type := {
  (** [call_action("get_msg", message_id=...)], the identifier being the
      reply id, as an [int] when it is all digits *)
  get_msg : string → outcome json;
  (** [call_action("get_image", file=file_id)] *)
  get_image : string → outcome json
}.

(** What [event.bot] offers. *)
Record Bot : Type := {
  (** [bot.api], when it is there and has [call_action] *)
  bot_api : option OneBot;
  (** the bot itself, when it has [call_action] *)
  bot_call_action : option OneBot
}.

(** The network and the disk as the quoted-image code uses them. *)
Record Files : Type := {
  (** [client.get(url)] and [raise_for_status()]: the [content-type] header,
      empty when there is none, and the body in base64 *)
  http_get : string → outcome (string * string);
  (** the bytes of [path] in base64 when it exists and is a file *)
  read_file : string → outcome (option string)
}.

(** [_get_onebot_api] (lines 231-245); [platform] is what
    [_get_platform_name] found. *)
Definition _get_onebot_api (platform : option string) (bot : option Bot) : option OneBot :=
  if py_truthy platform
     && negb (bool_decide (str_lower (default "" platform)
                           ∈ ["aiocqhttp"; "onebot11"; "onebot-11"; "onebot"]))
  then None
  else match bot with
       | None => None
       | Some b =>
           match bot_api b with
           | Some api => Some api
           | None => bot_call_action b
           end
       end.

(** [result.get("data") if isinstance(result.get("data"), dict) else result] *)
Definition result_data (result : list (string * json)) : list (string * json) :=
  match get "data" result with
  | Some (JObj data) => data
  | _ => result
  end.

(** [_get_onebot_image_url] (lines 341-356). *)
Definition _get_onebot_image_url (api : OneBot) (file_id : string) : option string :=
  match get_image api file_id with
  | Ok (JObj result) =>
      let data := result_data result in
      nonempty_str (py_or (get "url" data) (get "download_url" data))
  | _ => None
  end.

(** [_download_image_as_data_url] (lines 358-371). *)
Definition _download_image_as_data_url (io : Files) (image_url : string) : option string :=
  match http_get io image_url with
  | Ok (header, b64) =>
      let content_type := str_strip (before_first ";" header) in
      let content_type :=
        if String.prefix "image/" content_type then content_type else "image/jpeg" in
      Some ("data:" +:+ content_type +:+ ";base64," +:+ b64)
  | Raised _ => None
  end.

Definition msg_download_failed : string := "下载引用图片失败".
Definition msg_no_source : string := "引用图片段不包含可用的url或file".

(** Lines 313-315 and 324-328: the data URI of a downloaded image. *)
Definition downloaded (io : Files) (image_url : string) : option string * option string :=
  let data_url := _download_image_as_data_url io image_url in
  if py_truthy data_url then (data_url, None) else (None, Some msg_download_failed).

(** Lines 330-339: the [path] of the segment. *)
Definition from_path (io : Files) (data : list (string * json))
  : option string * option string :=
  match nonempty_str (get "path" data) with
  | Some path =>
      match read_file io path with
      | Ok (Some b64) => (Some ("data:image/jpeg;base64," +:+ b64), None)
      | Ok None => (None, Some msg_no_source)
      | Raised e => (None, Some ("读取引用图片文件失败: " +:+ e))
      end
  | None => (None, Some msg_no_source)
  end.

(** [_onebot_image_data_to_data_url] (lines 304-339): the data URI or the
    error. *)
Definition _onebot_image_data_to_data_url (io : Files) (api : OneBot)
    (data : list (string * json)) : option string * option string :=
  match nonempty_str (py_or (get "base64" data) (get "b64" data)) with
  | Some base64_data => (Some ("data:image/jpeg;base64," +:+ base64_data), None)
  | None =>
      match nonempty_str (get "url" data) with
      | Some url => downloaded io url
      | None =>
          match str_of_id (py_or (get "file" data) (get "file_id" data)) with
          | Some file_id =>
              if String.prefix "base64://" file_id
              then (Some ("data:image/jpeg;base64," +:+ str_drop 9 file_id), None)
              else match _get_onebot_image_url api file_id with
                   | Some image_url => downloaded io image_url
                   | None => from_path io data
                   end
          | None => from_path io data
          end
      end
  end.

(** One segment of the quoted message (lines 283-295): [images], [errors]. *)
Definition reply_segment (io : Files) (api : OneBot) (acc : list string * list string)
    (segment : json) : list string * list string :=
  match segment with
  | JObj seg =>
      if py_eq_str (get "type" seg) "image" then
        match get "data" seg with
        | Some (JObj data_field) =>
            let '(data_url, error) := _onebot_image_data_to_data_url io api data_field in
            if py_truthy data_url then (acc.1 ++ [default "" data_url], acc.2)
            else if py_truthy error then (acc.1, acc.2 ++ [default "" error])
            else acc
        | _ => acc
        end
      else acc
  | _ => acc
  end.

(** [retcode not in (None, 0)] is false: zero of any numeric type counts. *)
Definition retcode_ok (retcode : option json) : bool :=
  match retcode with
  | None | Some JNull => true
  | Some (JInt n) => bool_decide (n = 0%Z)
  | Some (JFloat mantissa _) => bool_decide (mantissa = 0%Z)
  | Some (JBool b) => negb b
  | Some _ => false
  end.

(** [_fetch_images_from_reply] (lines 247-302), which [World] holds as an
    oracle; [py_str] formats a value inside an f-string. *)
Definition fetch_images_from_reply (py_str : json → string) (io : Files)
    (platform : option string) (bot : option Bot) (reply_id : string)
  : list string * option string :=
  match _get_onebot_api platform bot with
  | None => ([], Some "当前适配器不支持通过引用消息获取图片")
  | Some api =>
      match get_msg api reply_id with
      | Raised e => ([], Some ("获取引用消息失败: " +:+ e))
      | Ok (JObj result) =>
          let status := get "status" result in
          let retcode := get "retcode" result in
          if match status with
             | Some v => json_truthy v && negb (py_eq_str status "ok")
             | None => false
             end
          then ([], Some ("获取引用消息失败: status=" +:+ py_str (default JNull status)))
          else if negb (retcode_ok retcode)
          then ([], Some ("获取引用消息失败: retcode=" +:+ py_str (default JNull retcode)))
          else
            match get "message" (result_data result) with
            | Some (JArr message) =>
                let '(images, errors) := foldl (reply_segment io api) ([], []) message in
                match images, errors with
                | _ :: _, _ => (images, None)
                | [], e :: _ => ([], Some ("引用图片解析失败: " +:+ e))
                | [], [] => ([], Some "引用消息中未找到图片")
                end
            | _ => ([], Some "引用消息message格式不支持解析")
            end
      | Ok _ => ([], Some "获取引用消息失败: 返回格式异常")
      end
  end.

(** The world of an event on the given platform, with the given bot, network
    and disk: quoted images are fetched by the code above. *)
Definition with_quoted (w : World) (io : Files) (platform : option string)
    (bot : option Bot) : World :=
  {| py_str := py_str w;
     post := post w;
     _fetch_images_from_reply := fetch_images_from_reply (py_str w) io platform bot;
     _save_base64_image := _save_base64_image w;
     send_file := send_file w;
     send_plain := send_plain w;
     send_chain := send_chain w |}.

(** A bot that answers [get_msg] with a message holding one image, a network
    that serves it as PNG, and a command that quotes that message. *)
Definition quoted_bot : Bot :=
  {| bot_api := None;
     bot_call_action :=
       Some {| get_msg := λ _,
                 Ok (JObj [("data",
                            JObj [("message",
                                   JArr [JObj [("type", JStr "image");
                                               ("data",
                                                JObj [("url", JStr "https://x/q")])]])])]);
               get_image := λ _, Raised "unused" |} |}.

Definition png_network : Files :=
  {| http_get := λ _, Ok ("image/png; charset=binary", "iVBO");
     read_file := λ _, Ok None |}.

Definition quoting : Event :=
  {| get_group_id := Ok "g1"; get_sender_id := "u1"; message := [Reply [] (Some "42")] |}.

(** ** Saving an inline result: [_save_base64_image] (lines 633-653) *)

(** [[a-zA-Z0-9.+-]] *)
Definition ext_char (c : ascii) : bool :=
  let n := N_of_ascii c in
  ((65 <=? n) && (n <=? 90) || (97 <=? n) && (n <=? 122) || (48 <=? n) && (n <=? 57))%N
  || is_one_of ["."; "+"; "-"]%char c.

(** [.] under [re.DOTALL] *)
Definition any_char (c : ascii) : bool := true.

(** [data:image/([a-zA-Z0-9.+-]+);base64,(.+)], once with its first group as
    the capture and once with its second: grouping does not change what a
    pattern matches. *)
Definition save_pattern_ext : regex :=
  Seq [Lit "data:image/"; Group (Plus ext_char); Lit ";base64,"; Plus any_char].
Definition save_pattern_data : regex :=
  Seq [Lit "data:image/"; Plus ext_char; Lit ";base64,"; Group (Plus any_char)].

(** The decoder and the disk as [_save_base64_image] uses them. *)
Record Disk : Type := {
  (** [base64.b64decode(b64_data, validate=True)] *)
  b64decode : string → outcome string;
  (** a fresh file with the given extension in the images directory is
      written with the bytes: its absolute path *)
  write_image : string → string → outcome string
}.

(** [_save_base64_image], which [World] holds as an oracle. *)
Definition save_base64_image (disk : Disk) (data_url : string) : option string :=
  match match_here false save_pattern_ext data_url,
        match_here false save_pattern_data data_url with
  | Some (_, Some ext), Some (_, Some b64_data) =>
      match b64decode disk b64_data with
      | Ok image_bytes =>
          match write_image disk (str_lower ext) image_bytes with
          | Ok absolute_path => Some absolute_path
          | Raised _ => None
          end
      | Raised _ => None
      end
  | _, _ => None
  end.

(** ** The other commands (lines 101-102 and 831-885) *)

(** [terminate] *)
Definition terminate (st : State) : State :=
  {| _rate_limit_bucket := _rate_limit_bucket st;
     _rate_limit_locks := ∅;
     _processing_tasks := _processing_tasks st |}.

(** [_is_admin] (lines 101-102); [admin_users] is the set [__init__] builds. *)
Definition _is_admin (admin_users : gset string) (event : Event) : bool :=
  bool_decide (get_sender_id event ∈ admin_users).

(** What a command handler yields: a text, or a chain of texts. *)
Inductive result : Type :=
| PlainResult (text : string)
| ChainResult (parts : list string).

Definition nl : string := String "010" "".

(** [cmd_test] (lines 831-862); [images_dir] is the directory [__init__]
    chose, as text.  Building the chain does not raise. *)
Definition cmd_test (cfg : Config) (admin_users : gset string) (images_dir : string)
    (event : Event) : result :=
  if negb (_is_admin admin_users event) then PlainResult "此命令仅限管理员使用"
  else
    ChainResult
      ["🔍 Grok图片编辑插件测试结果" +:+ nl
       +:+ "==============================" +:+ nl +:+ nl;
       (if bool_decide (api_key cfg = "") then "❌ API密钥未配置" else "✅ API密钥已配置")
       +:+ nl;
       "📡 API地址: " +:+ api_url cfg +:+ nl;
       "🤖 模型ID: " +:+ model_id cfg +:+ nl;
       "⏱️ 超时时间: " +:+ pretty (timeout_seconds cfg) +:+ "秒" +:+ nl;
       "🔄 最大重试: " +:+ pretty (max_retry_attempts cfg) +:+ "次" +:+ nl;
       "📁 图片存储目录: " +:+ images_dir +:+ nl;
       "🖼️ 最多返回图片数: " +:+ pretty (max_images_per_response cfg) +:+ nl;
       (if enabled cfg then "✅ 功能已启用" else "❌ 功能已禁用") +:+ nl].

(** The configuration with another key. *)
Definition with_key (cfg : Config) (key : string) : Config :=
  {| server_url := server_url cfg; api_url := api_url cfg; model_id := model_id cfg;
     api_key := key; enabled := enabled cfg; prompt_prefix := prompt_prefix cfg;
     status_message_mode := status_message_mode cfg;
     timeout_seconds := timeout_seconds cfg; max_retry_attempts := max_retry_attempts cfg;
     group_control_mode := group_control_mode cfg; group_list := group_list cfg;
     rate_limit_enabled := rate_limit_enabled cfg;
     rate_limit_window_seconds := rate_limit_window_seconds cfg;
     rate_limit_max_calls := rate_limit_max_calls cfg;
     max_images_per_response := max_images_per_response cfg;
     save_image_enabled := save_image_enabled cfg;
     nap_server_address := nap_server_address cfg;
     nap_server_port := nap_server_port cfg |}.

(** ** Proof automation *)

(** Every step of the body that can be taken apart: the mode, what the chat
    platform does with a text, what it does with the chain. *)
Ltac body_cases :=
  unfold deliver, plain, when, skip, and_then;
  repeat first
    [ case_bool_decide
    | match goal with
      | |- context [send_plain ?w ?t] => destruct (send_plain w t) as [[]|?]
      | |- context [send_chain ?w ?c] => destruct (send_chain w c) eqn:?
      end ];
  cbn [fst snd negb app].

(** ** The two patterns on the whole of [str]

    The strings above hold code points below U+0100.  A Python [str] holds
    any code point, and [re.IGNORECASE] reaches beyond ASCII: on a [str]
    pattern the letters i, s and k also match U+0130 and U+0131, U+017F and
    U+212A.  The validator [_is_valid_image_url] and the scan
    [_extract_data_urls_from_text] receive text of the upstream reply, which
    can hold such characters; this module gives both on lists of code points,
    with the matcher of the section on regular expressions over them. *)
Module Unicode.

(** A subject: the code points of a [str]. *)
Definition text : Type := list N.

(** A string of code points below U+0100 as a subject. *)
Definition wide (s : string) : text := N_of_ascii <$> String.list_ascii_of_string s.

(** ASCII letter case: A to Z onto a to z, every other code point kept. *)
Definition lower (x : N) : N :=
  if ((65 <=? x) && (x <=? 90))%N then (x + 32)%N else x.

(** Case folding as [re.IGNORECASE] applies it to the characters the
    patterns are written with: ASCII letter case, and the four code points
    that match an ASCII letter. *)
Definition fold (x : N) : N :=
  if ((x =? 304) || (x =? 305))%N then 105%N        (* U+0130, U+0131: i *)
  else if (x =? 383)%N then 115%N                   (* U+017F: s *)
  else if (x =? 8490)%N then 107%N                  (* U+212A: k *)
  else lower x.

(** Comparison of an ASCII pattern character with a subject character. *)
Definition chr_eq (ic : bool) (c x : N) : bool :=
  if ic then (fold c =? fold x)%N else (c =? x)%N.

Inductive regex : Type :=
| Eps
| Chr (c : N)
| Cls (p : N → bool)
| Star (p : N → bool)
| Cat (r1 r2 : regex)
| Or (r1 r2 : regex)
| Group (r : regex)
| Eos.

Definition Plus (p : N → bool) : regex := Cat (Cls p) (Star p).

Fixpoint Lit (s : text) : regex :=
  match s with
  | [] => Eps
  | c :: rest => Cat (Chr c) (Lit rest)
  end.

Fixpoint Seq (rs : list regex) : regex :=
  match rs with
  | [] => Eps
  | r :: rest => Cat r (Seq rest)
  end.

Fixpoint Alts (rs : list regex) : regex :=
  match rs with
  | [] => Cls (λ _, false)
  | [r] => r
  | r :: rest => Or r (Alts rest)
  end.

Definition consumed (s s' : text) : text := take (length s - length s') s.

Fixpoint rmatch {A : Type} (ic : bool) (r : regex) (s : text) (cap : option text)
    (k : text → option text → option A) : option A :=
  match r with
  | Eps => k s cap
  | Chr c =>
      match s with
      | x :: s' => if chr_eq ic c x then k s' cap else None
      | [] => None
      end
  | Cls p =>
      match s with
      | x :: s' => if p x then k s' cap else None
      | [] => None
      end
  | Star p =>
      (fix star (s : text) : option A :=
         match s with
         | x :: s' =>
             if p x
             then match star s' with
                  | Some a => Some a
                  | None => k s cap
                  end
             else k s cap
         | [] => k s cap
         end) s
  | Cat r1 r2 => rmatch ic r1 s cap (λ s' cap', rmatch ic r2 s' cap' k)
  | Or r1 r2 =>
      match rmatch ic r1 s cap k with
      | Some a => Some a
      | None => rmatch ic r2 s cap k
      end
  | Group r1 => rmatch ic r1 s cap (λ s' _, k s' (Some (consumed s s')))
  | Eos =>
      match s with
      | [] => k s cap
      | [x] => if (x =? 10)%N then k s cap else None
      | _ => None
      end
  end.

Definition match_here (ic : bool) (r : regex) (s : text) : option (text * option text) :=
  rmatch ic r s None (λ s' cap, Some (s', cap)).

Fixpoint re_search (ic : bool) (r : regex) (s : text) : bool :=
  match match_here ic r s with
  | Some _ => true
  | None =>
      match s with
      | [] => false
      | _ :: s' => re_search ic r s'
      end
  end.

Fixpoint findall_from (fuel : nat) (ic : bool) (r : regex) (s : text) : list text :=
  match fuel with
  | O => []
  | S fuel' =>
      match match_here ic r s with
      | Some (s', cap) =>
          default [] cap ::
          (if length s' <? length s
           then findall_from fuel' ic r s'
           else match s with
                | [] => []
                | _ :: t => findall_from fuel' ic r t
                end)
      | None =>
          match s with
          | [] => []
          | _ :: t => findall_from fuel' ic r t
          end
      end
  end.

Definition re_findall (ic : bool) (r : regex) (s : text) : list text :=
  findall_from (S (length s)) ic r s.

(** [[A-Za-z0-9+/=]] under [re.IGNORECASE]: a character belongs to the class
    when its folding does, so the four code points of [fold] belong to it. *)
Definition b64_char (x : N) : bool :=
  let n := fold x in
  ((97 <=? n) && (n <=? 122) || (48 <=? n) && (n <=? 57)
   || (n =? 43) || (n =? 47) || (n =? 61))%N.

(** [(data:image/(?:png|jpeg|jpg|webp|gif);base64,[A-Za-z0-9+/=]+)] *)
Definition data_url_pattern : regex :=
  Group (Seq [Lit (wide "data:image/");
              Alts (Lit ∘ wide <$> ["png"; "jpeg"; "jpg"; "webp"; "gif"]);
              Lit (wide ";base64,"); Plus b64_char]).

(** [\.(png|jpg|jpeg|webp|gif)(?:$|[?&#])] *)
Definition extension_pattern : regex :=
  Seq [Chr 46; Group (Alts (Lit ∘ wide <$> image_extensions));
       Or Eos (Cls (λ x, bool_decide (x ∈ [63; 38; 35]%N)))].

(** [url.startswith(p)] *)
Fixpoint startswith (p url : text) : bool :=
  match p, url with
  | [], _ => true
  | c :: p', x :: url' => (c =? x)%N && startswith p' url'
  | _ :: _, [] => false
  end.

(** [< > D ' \n \r \t], D being the double quote. *)
Definition invalid_chars : text := [60; 62; 34; 39; 10; 13; 9]%N.

(** [_is_valid_image_url] (lines 596-607). *)
Definition _is_valid_image_url (url : text) (require_extension : bool) : bool :=
  if length url <? 10 then false
  else if negb (startswith (wide "http://") url || startswith (wide "https://") url) then false
  else if require_extension && negb (re_search true extension_pattern url) then false
  else if existsb (λ ch, bool_decide (ch ∈ url)) invalid_chars then false
  else true.

(** [_extract_data_urls_from_text] (lines 590-594). *)
Definition _extract_data_urls_from_text (content : text) : list text :=
  match content with
  | [] => []
  | _ => re_findall true data_url_pattern content
  end.

(** What a pattern denotes, as [matches] above. *)
Fixpoint matches (ic : bool) (r : regex) (s s' : text) : Prop :=
  match r with
  | Eps => s' = s
  | Chr c => ∃ x, s = x :: s' ∧ chr_eq ic c x = true
  | Cls p => ∃ x, s = x :: s' ∧ p x = true
  | Star p => ∃ w, s = w ++ s' ∧ Forall (λ x, p x = true) w
  | Cat r1 r2 => ∃ m, matches ic r1 s m ∧ matches ic r2 m s'
  | Or r1 r2 => matches ic r1 s s' ∨ matches ic r2 s s'
  | Group r1 => matches ic r1 s s'
  | Eos => s' = s ∧ (s = [] ∨ s = [10%N])
  end.

(** The URL ends in an extension that is one of the five names once its
    characters are mapped by [f], with nothing after it or a tail that starts
    a query or a fragment. *)
Definition ends_with_extension (f : N → N) (url : text) : Prop :=
  ∃ stem ext tail,
    url = stem ++ [46%N] ++ ext ++ tail
    ∧ f <$> ext ∈ wide <$> image_extensions
    ∧ (tail = [] ∨ ∃ c rest, tail = c :: rest ∧ c ∈ [63; 38; 35]%N).

(** A recognised image extension in any ASCII letter case. *)
Definition ends_with_image_extension : text → Prop := ends_with_extension lower.

(** An extension [re.IGNORECASE] reads as one of the five: in any ASCII
    letter case, with U+0130 or U+0131 where the name has an i (the letters s
    and k, which U+017F and U+212A fold to, are in none of the names). *)
Definition ends_with_folded_extension : text → Prop := ends_with_extension fold.

End Unicode.

(** The same pattern on both kinds of subject: character for character, and
    classes that agree below U+0100. *)
Inductive same_pattern : regex → Unicode.regex → Prop :=
| same_Eps : same_pattern Eps Unicode.Eps
| same_Chr (c : ascii) : same_pattern (Chr c) (Unicode.Chr (N_of_ascii c))
| same_Cls (p : ascii → bool) (q : N → bool) :
    (∀ a, q (N_of_ascii a) = p a) → same_pattern (Cls p) (Unicode.Cls q)
| same_Star (p : ascii → bool) (q : N → bool) :
    (∀ a, q (N_of_ascii a) = p a) → same_pattern (Star p) (Unicode.Star q)
| same_Cat (r1 r2 : regex) (R1 R2 : Unicode.regex) :
    same_pattern r1 R1 → same_pattern r2 R2 →
    same_pattern (Cat r1 r2) (Unicode.Cat R1 R2)
| same_Or (r1 r2 : regex) (R1 R2 : Unicode.regex) :
    same_pattern r1 R1 → same_pattern r2 R2 →
    same_pattern (Or r1 r2) (Unicode.Or R1 R2)
| same_Group (r : regex) (R : Unicode.regex) :
    same_pattern r R → same_pattern (Group r) (Unicode.Group R)
| same_Eos : same_pattern Eos Unicode.Eos.

(** A reply text with U+0131 for the i of gif, and one with U+0131 for the i
    of image and U+212A closing the payload. *)
Definition dotless_gif : Unicode.text :=
  Unicode.wide "http://x/a.g" ++ [305%N] ++ Unicode.wide "f".
Definition kelvin_data : Unicode.text :=
  Unicode.wide "data:" ++ [305%N] ++ Unicode.wide "mage/png;base64,AAAA" ++ [8490%N].

(** A server that edits one picture only: a request that carries
    [data:image/jpeg;base64,AAAA] is answered with an image, any other is
    refused. *)
Definition picky_server : World :=
  {| py_str := λ _, "";
     post := λ payload _,
       if String.eqb (payload_image_url payload) "data:image/jpeg;base64,AAAA"
       then Response 200 "{...}"
              (Decoded (JObj [("data", JArr [JObj [("url", JStr "https://x/a.png")]])]))
       else Response 403 "forbidden" (Decoded (JObj [("error", JStr "forbidden")]));
     _fetch_images_from_reply := λ _, ([], None);
     _save_base64_image := λ _, None;
     send_file := None;
     send_plain := λ _, Ok tt;
     send_chain := λ _, Delivered |}.

(** ** Handlers that overlap

    [cmd_edit_image] suspends at [await self._extract_images_from_message]
    (line 806), after the busy test of line 802 and before the token is
    stored in line 816: while an image is downloaded or a quoted message is
    fetched, the event loop runs other handlers and tasks.  What runs without
    interruption is therefore a command up to that point, a suspended command
    from that point to its end, and the [finally] clause of a task.  A state
    holds the plugin state, the commands suspended at line 806 (event and
    prompt) and the tasks created and not yet finished. *)
Inductive handler_step (cfg : Config) (w : World)
  : State * list (Event * string) * list Task
    → State * list (Event * string) * list Task → Prop :=
| handler_gate (st : State) (waiting : list (Event * string)) (running : list Task)
    (event : Event) (prompt : string) (now : Z) :
    handler_step cfg w (st, waiting, running)
      ((cmd_edit_image_gate cfg st event now).1,
       waiting ++ match (cmd_edit_image_gate cfg st event now).2 with
                  | None => [(event, prompt)]
                  | Some _ => []
                  end,
       running)
| handler_resume (st : State) (waiting1 waiting2 : list (Event * string))
    (running : list Task) (event : Event) (prompt : string) (new_id : string) :
    handler_step cfg w (st, waiting1 ++ (event, prompt) :: waiting2, running)
      ((cmd_edit_image_start cfg st event prompt
          (_extract_images_from_message w event) new_id).1.1,
       waiting1 ++ waiting2,
       running ++ option_list (cmd_edit_image_start cfg st event prompt
                                 (_extract_images_from_message w event) new_id).2)
| handler_task_end (st : State) (waiting : list (Event * string))
    (running1 running2 : list Task) (task : Task) :
    handler_step cfg w (st, waiting, running1 ++ task :: running2)
      ((run_task cfg w st task).1.1, waiting, running1 ++ running2).

(** The task a command of [two_images] creates under the identifier
    [new_id]. *)
Definition sunglasses_task (new_id : string) : Task :=
  {| task_event := two_images;
     task_prompt := "add sunglasses";
     task_id := new_id;
     task_images := ["data:image/jpeg;base64,AAAA"; "data:image/png;base64,BBBB"] |}.

(** * Theorems *)

(** ** The access gate *)

Section rate_limit.
Context (cfg : Config) (event : Event) (g : string) (W : Z) (M : nat).
Hypothesis Hon : rate_limit_enabled cfg = true.
Hypothesis HW : rate_limit_window_seconds cfg = CInt W.
Hypothesis HM : rate_limit_max_calls cfg = CInt (Z.of_nat M).
Hypothesis Hg : get_group_id event = Ok g.
Hypothesis Hne : g ≠ "".
Hypothesis Hctl : group_control_denial cfg g = None.

Local Abbreviation denial := (msg_rate_limited (CInt (Z.of_nat M)) (CInt W)).

Local Abbreviation effective := (effective g W).
Local Abbreviation fresh_at := (fresh_at g W).

Lemma check_effective st now :
  _check_group_access cfg st event now =
    if bool_decide (Z.of_nat M ≤ (effective st now).2)%Z
    then (add_lock g st, Some denial)
    else (set_bucket g {| window_start := (effective st now).1;
                          count := (effective st now).2 + 1 |} (add_lock g st), None).
Proof.
  unfold _check_group_access, _check_group_access_try, rate_limit_locked, effective.
  rewrite Hg, Hctl, Hon, HW, HM. rewrite bool_decide_eq_false_2 by done.
  cbn [py_ge _rate_limit_bucket add_lock].
  destruct (_rate_limit_bucket st !! g) as [b|]; cbn.
  - destruct (bool_decide (W ≤ now - window_start b)%Z); cbn;
      destruct (bool_decide (Z.of_nat M ≤ _)%Z); reflexivity.
  - replace (now - now)%Z with 0%Z by lia.
    destruct (bool_decide (W ≤ 0)%Z); cbn;
      destruct (bool_decide (Z.of_nat M ≤ 0)%Z); reflexivity.
Qed.

(** Calls inside a window already open at [t0] with [k] calls counted. *)
Lemma check_calls_in_window (ts : list Z) : ∀ (st : State) (t0 : Z) (k : nat),
  _rate_limit_bucket st !! g
    = Some {| window_start := t0; count := Z.of_nat k |} →
  k ≤ M →
  Forall (λ t, t - t0 < W)%Z ts →
  (check_calls cfg st event ts).2
    = replicate (length ts `min` (M - k)) None
      ++ replicate (length ts - (M - k)) (Some denial)
  ∧ _rate_limit_bucket (check_calls cfg st event ts).1 !! g
    = Some {| window_start := t0; count := Z.of_nat ((k + length ts) `min` M) |}.
Proof.
  induction ts as [|t ts IH]; intros st t0 k Hb Hk Hts.
  - cbn. split; [done|]. rewrite Hb. do 3 f_equal. lia.
  - apply Forall_cons in Hts as [Ht Hts].
    cbn [check_calls]. rewrite check_effective.
    assert (effective st t = (t0, Z.of_nat k)) as ->.
    { unfold effective. rewrite Hb. cbn. rewrite bool_decide_eq_false_2 by lia. done. }
    cbn [fst snd]. case_bool_decide as Hfull.
    + assert (k = M) as -> by lia.
      destruct (IH (add_lock g st) t0 M Hb ltac:(lia) Hts) as [IH1 IH2].
      destruct (check_calls cfg (add_lock g st) event ts) as [st2 rs].
      cbn [fst snd length] in *. split.
      * rewrite IH1. replace (M - M) with 0 by lia.
        rewrite !Nat.min_0_r, !Nat.sub_0_r. done.
      * rewrite IH2. do 3 f_equal. lia.
    + set (st1 := set_bucket g _ (add_lock g st)).
      assert (_rate_limit_bucket st1 !! g
              = Some {| window_start := t0; count := Z.of_nat (S k) |}) as Hb1.
      { subst st1. cbn. rewrite lookup_insert_eq. do 3 f_equal. lia. }
      destruct (IH st1 t0 (S k) Hb1 ltac:(lia) Hts) as [IH1 IH2].
      destruct (check_calls cfg st1 event ts) as [st2 rs].
      cbn [fst snd length] in *. split.
      * rewrite IH1.
        replace (S (length ts) `min` (M - k)) with (S (length ts `min` (M - S k))) by lia.
        replace (S (length ts) - (M - k)) with (length ts - (M - S k)) by lia.
        done.
      * rewrite IH2. do 3 f_equal. lia.
Qed.
Lemma effective_fresh st t0 t :
  fresh_at st t0 → (t0 ≤ t)%Z → effective st t = (t, 0%Z).
Proof.
  intros Hfresh Ht. unfold effective.
  destruct (_rate_limit_bucket st !! g) as [b|] eqn:E; [|done].
  specialize (Hfresh b E). rewrite bool_decide_eq_true_2 by lia. done.
Qed.

(** With a limit of zero nothing is ever let through, nor stored. *)
Lemma check_calls_limit_zero (ts : list Z) : ∀ (st : State) (t0 : Z),
  M = 0 → fresh_at st t0 → Forall (λ t, t0 ≤ t)%Z ts →
  (check_calls cfg st event ts).2 = replicate (length ts) (Some denial)
  ∧ _rate_limit_bucket (check_calls cfg st event ts).1 = _rate_limit_bucket st.
Proof.
  induction ts as [|t ts IH]; intros st t0 HM0 Hfresh Hts; [done|].
  apply Forall_cons in Hts as [Ht Hts].
  cbn [check_calls]. rewrite check_effective, (effective_fresh st t0 t) by done.
  cbn [fst snd]. rewrite bool_decide_eq_true_2 by lia.
  destruct (IH (add_lock g st) t0 HM0 Hfresh Hts) as [IH1 IH2].
  destruct (check_calls cfg (add_lock g st) event ts) as [st2 rs].
  cbn [fst snd length replicate] in *. by rewrite IH1, IH2.
Qed.

(** The first call of a fresh window, under a positive limit. *)
Lemma check_opens_window st t0 :
  0 < M → fresh_at st t0 →
  ∃ st1, _check_group_access cfg st event t0 = (st1, None)
         ∧ _rate_limit_bucket st1 !! g = Some {| window_start := t0; count := 1 |}.
Proof.
  intros HM0 Hfresh. rewrite check_effective, (effective_fresh st t0 t0) by done.
  cbn [fst snd]. rewrite bool_decide_eq_false_2 by lia.
  eexists. split; [done|]. cbn. by rewrite lookup_insert_eq.
Qed.

(** A whole window: the first call at [t0] and the calls after it. *)
Lemma check_calls_fresh_window st t0 ts :
  fresh_at st t0 →
  Forall (λ t, t0 ≤ t < t0 + W)%Z (t0 :: ts) →
  (check_calls cfg st event (t0 :: ts)).2
    = replicate (S (length ts) `min` M) None
      ++ replicate (S (length ts) - M) (Some denial)
  ∧ (0 < M →
     _rate_limit_bucket (check_calls cfg st event (t0 :: ts)).1 !! g
     = Some {| window_start := t0; count := Z.of_nat (S (length ts) `min` M) |}).
Proof.
  intros Hfresh Hall. destruct (decide (M = 0)) as [HM0|HM0].
  - destruct (check_calls_limit_zero (t0 :: ts) st t0 HM0 Hfresh) as [-> _].
    { eapply Forall_impl; [exact Hall|]. cbn. lia. }
    subst M. rewrite Nat.min_0_r. cbn. split; [done|lia].
  - destruct (check_opens_window st t0 ltac:(lia) Hfresh) as (st1 & Hcall & Hb1).
    apply Forall_cons in Hall as [_ Hts].
    cbn [check_calls]. rewrite Hcall.
    destruct (check_calls_in_window ts st1 t0 1 Hb1 ltac:(lia)) as [IH1 IH2].
    { eapply Forall_impl; [exact Hts|]. cbn. lia. }
    destruct (check_calls cfg st1 event ts) as [st2 rs]. cbn [fst snd] in *.
    split.
    + rewrite IH1.
      replace (S (length ts) `min` M) with (S (length ts `min` (M - 1))) by lia.
      replace (S (length ts) - M) with (length ts - (M - 1)) by lia. done.
    + intros _. rewrite IH2. repeat f_equal; lia.
Qed.

(** Once the window has run out, a check starts the next one. *)
Lemma check_after_window st t0 k t' :
  0 < M →
  _rate_limit_bucket st !! g = Some {| window_start := t0; count := k |} →
  (W ≤ t' - t0)%Z →
  ∃ st', _check_group_access cfg st event t' = (st', None)
         ∧ _rate_limit_bucket st' !! g = Some {| window_start := t'; count := 1 |}.
Proof.
  intros HM0 Hb Ht'. apply check_opens_window; [done|].
  intros b. rewrite Hb. by intros [= <-].
Qed.
End rate_limit.

Section gate_invariant.
Context (cfg : Config) (M : Z).
Hypothesis HM : rate_limit_max_calls cfg = CInt M.

Local Abbreviation counts_bounded := (counts_bounded M).

Lemma check_keeps_counts_bounded st event now :
  counts_bounded st → counts_bounded (_check_group_access cfg st event now).1.
Proof.
  intros Hinv. unfold _check_group_access, _check_group_access_try.
  case_bool_decide; [done|].
  destruct (group_control_denial cfg _); [done|].
  destruct (rate_limit_enabled cfg); [|done].
  unfold rate_limit_locked. rewrite HM.
  set (gid := match get_group_id event with Ok g => g | Raised _ => "" end) in *.
  destruct (py_ge "float" _ _) as [expired|]; [|done].
  set (b0 := default _ _).
  assert (b0 = {| window_start := now; count := 0 |} ∨ (1 ≤ count b0 ≤ M)%Z) as Hb0.
  { subst b0. cbn. destruct (_rate_limit_bucket st !! gid) eqn:E; cbn; eauto. }
  destruct expired; cbn; case_bool_decide; cbn; try done.
  - intros g b. cbn. destruct (decide (gid = g)) as [<-|];
      [rewrite lookup_insert_eq | rewrite lookup_insert_ne by done; apply Hinv].
    intros [= <-]. cbn. lia.
  - intros g b. cbn. destruct (decide (gid = g)) as [<-|];
      [rewrite lookup_insert_eq | rewrite lookup_insert_ne by done; apply Hinv].
    intros [= <-]. cbn. destruct Hb0 as [->|]; cbn in *; lia.
Qed.

Lemma gate_run_counts_bounded calls : ∀ st,
  counts_bounded st → counts_bounded (gate_run cfg st calls).
Proof.
  induction calls as [|[event now] calls IH]; intros st Hinv; [done|].
  cbn. apply IH, check_keeps_counts_bounded, Hinv.
Qed.
End gate_invariant.

(** C1.  With rate limiting on, a window of [W] seconds and a limit of [M]
    calls, take any group [g] that the white/black list lets through and any
    run of checks that starts a window at [t0] and stays within it.  Then
    exactly the first [M] checks are allowed and every later one is denied
    with the message that names [M] and [W]; after [k] checks the bucket
    counts [min k M] calls, so each allowed check adds one and the count
    never passes [M]; a check made once [W] seconds have passed since [t0]
    is allowed and leaves a bucket that starts at its own time with count 1;
    and whatever checks the gate has served since start-up, no stored count
    exceeds [M]. *)
Theorem rate_limit_window_exact (cfg : Config) (event : Event) (g : string)
    (W : Z) (M : nat) (st : State) (t0 : Z) (ts : list Z) :
  rate_limit_enabled cfg = true →
  rate_limit_window_seconds cfg = CInt W →
  rate_limit_max_calls cfg = CInt (Z.of_nat M) →
  get_group_id event = Ok g →
  g ≠ "" →
  group_control_denial cfg g = None →
  fresh_at g W st t0 →
  Forall (λ t, t0 ≤ t < t0 + W)%Z (t0 :: ts) →
  let denial :=
    "本群调用已达上限（" +:+ pretty (Z.of_nat M) +:+ "次/" +:+ pretty W
    +:+ "秒），请稍后再试" in
  let n := S (length ts) in
  (check_calls cfg st event (t0 :: ts)).2
    = replicate (n `min` M) None ++ replicate (n - M) (Some denial)
  ∧ (0 < M → ∀ k, 1 ≤ k ≤ n →
     _rate_limit_bucket (check_calls cfg st event (take k (t0 :: ts))).1 !! g
     = Some {| window_start := t0; count := Z.of_nat (k `min` M) |})
  ∧ (0 < M → ∀ t', (W ≤ t' - t0)%Z →
     ∃ st', _check_group_access cfg (check_calls cfg st event (t0 :: ts)).1 event t'
            = (st', None)
            ∧ _rate_limit_bucket st' !! g = Some {| window_start := t'; count := 1 |})
  ∧ (∀ calls g' b,
       _rate_limit_bucket (gate_run cfg init_state calls) !! g' = Some b →
       (1 ≤ count b ≤ Z.of_nat M)%Z).
Proof.
  intros Hon HW HM Hg Hne Hctl Hfresh Hall denial n.
  pose proof (check_calls_fresh_window cfg event g W M Hon HW HM Hg Hne Hctl) as Hwin.
  split; [|split; [|split]].
  - apply (Hwin st t0 ts Hfresh Hall).
  - intros HM0 k Hk. destruct k as [|k]; [lia|]. cbn [take].
    assert (length (take k ts) = k) as Hlen by (rewrite length_take; subst n; lia).
    destruct (Hwin st t0 (take k ts) Hfresh) as [_ Hb].
    { apply Forall_cons in Hall as [H0 Hts]. apply Forall_cons. split; [done|].
      by apply Forall_take. }
    rewrite (Hb HM0), Hlen. done.
  - intros HM0 t' Ht'.
    destruct (Hwin st t0 ts Hfresh Hall) as [_ Hb].
    eapply (check_after_window cfg event g W M); eauto.
  - intros calls g' b.
    apply (gate_run_counts_bounded cfg (Z.of_nat M) HM calls init_state).
    intros ? ?. cbn. by rewrite lookup_empty.
Qed.



Lemma rate_limit_window_exact_witness :
  (check_calls two_per_minute init_state group_event [0; 10; 20; 59]%Z).2
  = [None; None;
     Some "本群调用已达上限（2次/60秒），请稍后再试";
     Some "本群调用已达上限（2次/60秒），请稍后再试"].
Proof.
  refine (proj1 (rate_limit_window_exact two_per_minute group_event "g1" 60 2
                   init_state 0 [10; 20; 59]%Z eq_refl eq_refl eq_refl eq_refl
                   _ eq_refl _ _)).
  - discriminate.
  - intros b Hb. unfold init_state in Hb. cbn [_rate_limit_bucket] in Hb.
    rewrite lookup_empty in Hb. discriminate.
  - repeat constructor; lia.
Defined.

(** The check raises exactly when it reaches the rate limiter with a window
    or a limit that is not a number. *)
Lemma check_raises_iff (cfg : Config) (st : State) (event : Event) (now : Z) :
  (∃ e, (_check_group_access_try cfg st event now).2 = Raised e)
  ↔ ∃ g, get_group_id event = Ok g ∧ g ≠ "" ∧ group_control_denial cfg g = None
         ∧ rate_limit_enabled cfg = true
         ∧ ((∀ n, rate_limit_window_seconds cfg ≠ CInt n)
            ∨ (∀ n, rate_limit_max_calls cfg ≠ CInt n)).
Proof.
  unfold _check_group_access_try, rate_limit_locked. split.
  - intros [e He]. destruct (get_group_id event) as [g|] eqn:Hg; [|done].
    case_bool_decide; [done|]. exists g.
    destruct (group_control_denial cfg g); [done|].
    destruct (rate_limit_enabled cfg); [|done].
    repeat split; try done.
    destruct (rate_limit_window_seconds cfg); cbn in He; try by left.
    destruct (rate_limit_max_calls cfg); cbn in He; try by right.
    destruct (bool_decide _) in He; cbn in He; destruct (bool_decide _) in He; done.
  - intros (g & -> & Hne & -> & -> & Hbad). rewrite bool_decide_eq_false_2 by done.
    destruct (rate_limit_window_seconds cfg) as [w| |]; cbn; eauto.
    destruct (rate_limit_max_calls cfg) as [m| |]; cbn.
    + destruct Hbad as [Hbad|Hbad]; [by destruct (Hbad w)|by destruct (Hbad m)].
    + destruct (bool_decide _); cbn; eauto.
    + destruct (bool_decide _); cbn; eauto.
Qed.

(** C9.  Whenever the evaluation of the access check raises, be it
    [event.get_group_id()] or the body of the check itself, the check returns
    no denial, and the edit command goes on to its busy test as if access had
    been granted: the only reply that can end it there is the busy notice. *)
Theorem access_check_fails_open (cfg : Config) (st : State) (event : Event) (now : Z) :
  (∃ e, get_group_id event = Raised e)
  ∨ (∃ e, (_check_group_access_try cfg st event now).2 = Raised e) →
  (_check_group_access cfg st event now).2 = None
  ∧ (cmd_edit_image_gate cfg st event now).2
    = if bool_decide (is_Some (_processing_tasks st !! get_sender_id event))
      then Some msg_busy else None.
Proof.
  intros Hraise.
  assert (∃ st', _check_group_access cfg st event now = (st', None)
                 ∧ _processing_tasks st' = _processing_tasks st) as (st' & Hcheck & Htasks).
  { unfold _check_group_access. destruct Hraise as [[e He]|[e He]].
    - unfold _check_group_access_try. rewrite He. cbn. eauto.
    - pose proof He as Hshape.
      unfold _check_group_access_try, rate_limit_locked in Hshape |- *.
      destruct (bool_decide _); [done|].
      destruct (group_control_denial cfg _); [done|].
      destruct (rate_limit_enabled cfg); [|done].
      destruct (py_ge "float" _ _) as [expired|]; [|cbn; eauto].
      destruct expired; cbn in *; destruct (py_ge "int" _ _) as [[]|]; cbn in *;
        try done; eauto. }
  unfold cmd_edit_image_gate. rewrite Hcheck. cbn. rewrite Htasks.
  split; [done|]. by destruct (bool_decide _).
Qed.


Lemma access_check_fails_open_witness :
  (_check_group_access text_window init_state group_event 0).2 = None
  ∧ (cmd_edit_image_gate text_window init_state group_event 0).2 = None.
Proof.
  refine (access_check_fails_open text_window init_state group_event 0 _).
  right. eexists. reflexivity.
Defined.

(** ** Patterns *)

Lemma str_app_assoc (a b c : string) : (a +:+ b) +:+ c = a +:+ (b +:+ c).
Proof.
  induction a as [|x a IH]; [done|].
  change (String x ((a +:+ b) +:+ c) = String x (a +:+ (b +:+ c))). by rewrite IH.
Qed.

(** The matcher only reports matches the pattern denotes. *)
Lemma rmatch_sound {A : Type} (ic : bool) (r : regex) :
  ∀ (s : string) (cap : option string) (k : string → option string → option A) (a : A),
    rmatch ic r s cap k = Some a →
    ∃ s' cap', matches ic r s s' ∧ k s' cap' = Some a.
Proof.
  induction r as [|c|p|p|r1 IH1 r2 IH2|r1 IH1 r2 IH2|r1 IH1|]; intros s cap k a H; cbn in H.
  - by exists s, cap.
  - destruct s as [|c' s']; [done|]. destruct (chr_eq ic c c') eqn:E; [|done].
    exists s', cap. cbn. eauto.
  - destruct s as [|c' s']; [done|]. destruct (p c') eqn:E; [|done].
    exists s', cap. cbn. eauto.
  - revert H. induction s as [|c' s' IHs]; intros H.
    + exists "", cap. split; [|done]. by exists "".
    + destruct (p c') eqn:E.
      * match type of H with match ?star with _ => _ end = _ =>
          destruct star as [a'|] eqn:Hstar end.
        -- injection H as ->. destruct (IHs eq_refl) as (s2 & cap' & (w & -> & Hw) & Hk).
           exists s2, cap'. split; [|done]. by exists (String c' w).
        -- exists (String c' s'), cap. split; [|done]. by exists "".
      * exists (String c' s'), cap. split; [|done]. by exists "".
  - apply IH1 in H as (m & cap1 & Hm1 & H). apply IH2 in H as (s' & cap' & Hm2 & H).
    exists s', cap'. split; [|done]. by exists m.
  - destruct (rmatch ic r1 s cap k) as [a'|] eqn:E.
    + injection H as ->. apply IH1 in E as (s' & cap' & Hm & Hk).
      exists s', cap'. cbn. eauto.
    + apply IH2 in H as (s' & cap' & Hm & Hk). exists s', cap'. cbn. eauto.
  - apply IH1 in H as (s' & cap' & Hm & Hk). by exists s', (Some (consumed s s')).
  - destruct s as [|c [|]]; try done.
    + exists "", cap. cbn. eauto.
    + destruct (Ascii.eqb c "010") eqn:E; [|done]. apply Ascii.eqb_eq in E as ->.
      exists (String "010" ""), cap. cbn. eauto.
Qed.

(** [re.search] succeeds only where the pattern matches some suffix. *)
Lemma re_search_sound (ic : bool) (r : regex) (s : string) :
  re_search ic r s = true →
  ∃ before from rest, s = before +:+ from ∧ matches ic r from rest.
Proof.
  induction s as [|c s IH]; cbn; destruct (match_here ic r _) as [[rest cap]|] eqn:E.
  - intros _. apply rmatch_sound in E as (s' & cap' & Hm & _). by exists "", "", s'.
  - done.
  - intros _. apply rmatch_sound in E as (s' & cap' & Hm & _).
    by exists "", (String c s), s'.
  - intros (before & from & rest & -> & Hm)%IH. by exists (String c before), from, rest.
Qed.

Lemma matches_Lit (ic : bool) (x s s' : string) :
  matches ic (Lit x) s s' →
  ∃ e, s = e +:+ s' ∧ (ic = true → str_lower e = str_lower x) ∧ (ic = false → e = x).
Proof.
  revert s. induction x as [|c x IH]; intros s; cbn.
  - intros ->. by exists "".
  - intros (m & (c' & -> & Hc) & (e & -> & Hl & He)%IH).
    exists (String c' e). split; [done|]. unfold chr_eq in Hc. split; intros ->; cbn.
    + apply Ascii.eqb_eq in Hc. by rewrite Hc, Hl.
    + apply Ascii.eqb_eq in Hc. by rewrite Hc, He.
Qed.

Lemma matches_Alts (ic : bool) (rs : list regex) (s s' : string) :
  matches ic (Alts rs) s s' → ∃ r, r ∈ rs ∧ matches ic r s s'.
Proof.
  induction rs as [|r [|r' rs] IH]; cbn.
  - by intros (? & _ & ?).
  - intros ?. exists r. split; [apply list_elem_of_here|done].
  - intros [?|(r0 & ? & ?)%IH].
    + exists r. split; [apply list_elem_of_here|done].
    + exists r0. split; [by apply list_elem_of_further|done].
Qed.

Lemma lower_is_dot (c : ascii) : ascii_lower "." = ascii_lower c → c = "."%char.
Proof.
  destruct c as [[] [] [] [] [] [] [] []]; vm_compute; congruence.
Qed.

(** What a match of [extension_pattern] looks like. *)
Lemma matches_extension_pattern (s s' : string) :
  matches true extension_pattern s s' →
  ∃ ext tail, s = "." +:+ ext +:+ tail ∧ str_lower ext ∈ image_extensions
    ∧ (tail = "" ∨ tail = String "010" ""
       ∨ ∃ c rest, tail = String c rest ∧ c ∈ ["?"; "&"; "#"]%char).
Proof.
  cbn -[Alts image_extensions].
  intros (m1 & (c & -> & Hc) & m2 & Hext & m3 & Htail & ->).
  apply Ascii.eqb_eq, lower_is_dot in Hc as ->.
  apply matches_Alts in Hext as (r & Hr & Hext).
  apply list_elem_of_fmap in Hr as (x & -> & Hx).
  apply matches_Lit in Hext as (ext & -> & Hext & _).
  exists ext, m2. split; [done|]. split.
  { assert (str_lower x = x) as Hlow.
    { revert Hx. unfold image_extensions. rewrite !elem_of_cons, elem_of_nil.
      intros [->|[->|[->|[->|[->|[]]]]]]; reflexivity. }
    by rewrite (Hext eq_refl), Hlow. }
  destruct Htail as [[-> [->| ->]]|(c & -> & Hc)]; [tauto|tauto|].
  right; right. exists c, m3. split; [done|].
  unfold is_one_of in Hc. cbn in Hc. rewrite !elem_of_cons.
  repeat (apply orb_prop in Hc as [Hc|Hc]; [apply Ascii.eqb_eq in Hc; tauto|]).
  done.
Qed.

(** ** URL validation *)

Lemma prefix_split (p s : string) :
  String.prefix p s = true → ∃ rest, s = p +:+ rest.
Proof.
  revert s. induction p as [|c p IH]; intros [|c' s]; cbn; try done.
  - intros _. by exists "".
  - intros _. by exists (String c' s).
  - destruct (ascii_dec c c') as [<-|]; [|done].
    intros [rest ->]%IH. by exists rest.
Qed.

Lemma str_contains_elem_of (c : ascii) (s : string) :
  str_contains c s = true ↔ c ∈ String.list_ascii_of_string s.
Proof.
  induction s as [|c' s IH]; cbn.
  - rewrite elem_of_nil. done.
  - rewrite elem_of_cons, orb_true_iff, IH, Ascii.eqb_eq.
    split; (intros [->|?]; [by left|by right]).
Qed.

(** On a URL of code points below U+0100: the validator accepts it only if
    it starts with [http://] or [https://], is at least ten characters long
    and holds none of [< > D ' \n \r \t] (D being the double quote), and,
    asked to require an extension, only if it ends in one of png, jpg, jpeg,
    webp and gif, in any letter case, followed by nothing or by a tail that
    starts with [?], [&] or [#].  It rejects [ftp://x/a.png], it rejects
    [http://x/a] when an extension is required, and it rejects every URL
    that holds a [<]. *)
Lemma latin1_url_only_if :
  (∀ url require_extension,
     _is_valid_image_url url require_extension = true →
     (∃ rest, url = "http://" +:+ rest ∨ url = "https://" +:+ rest)
     ∧ 10 ≤ String.length url
     ∧ (∀ c, c ∈ ["<"; ">"; "034"; "039"; "010"; "013"; "009"]%char →
             c ∉ String.list_ascii_of_string url)
     ∧ (require_extension = true → ends_with_image_extension url))
  ∧ (∀ require_extension, _is_valid_image_url "ftp://x/a.png" require_extension = false)
  ∧ _is_valid_image_url "http://x/a" true = false
  ∧ (∀ url require_extension,
       "<"%char ∈ String.list_ascii_of_string url →
       _is_valid_image_url url require_extension = false).
Proof.
  split; [|split; [|split]].
  - intros url req. unfold _is_valid_image_url.
    destruct (String.length url <? 10) eqn:Hlen; [done|].
    apply Nat.ltb_ge in Hlen.
    destruct (String.prefix "http://" url || String.prefix "https://" url) eqn:Hscheme;
      [|done]. cbn [negb].
    destruct (req && negb (re_search true extension_pattern url)) eqn:Hext; [done|].
    destruct (existsb _ invalid_chars) eqn:Hbad; [done|]. intros _.
    split; [|split; [done|split]].
    + apply orb_true_iff in Hscheme as [[rest ->]%prefix_split|[rest ->]%prefix_split];
        exists rest; eauto.
    + intros c Hc Hin. apply str_contains_elem_of in Hin.
      assert (existsb (λ ch, str_contains ch url) invalid_chars = true); [|congruence].
      apply existsb_exists. exists c. split; [|done]. by apply list_elem_of_In.
    + intros ->. cbn in Hext. apply negb_false_iff in Hext.
      apply re_search_sound in Hext as (before & from & rest & -> & Hm).
      apply matches_extension_pattern in Hm as (ext & tail & -> & Hlow & Htail).
      exists before, ext, tail. split; [done|]. split; [done|].
      destruct Htail as [->|[->|Htail]]; [by left| |by right].
      exfalso.
      assert (existsb (λ ch, str_contains ch
                               (before +:+ "." +:+ ext +:+ String "010" ""))
                      invalid_chars = true) as Htrue; [|congruence].
      apply existsb_exists. exists "010"%char. split; [cbn; tauto|].
      apply str_contains_elem_of. clear.
      induction before as [|b before IH]; cbn.
      * apply list_elem_of_further. induction ext as [|e ext IHe]; cbn.
        -- apply list_elem_of_here.
        -- by apply list_elem_of_further.
      * by apply list_elem_of_further.
  - by intros [].
  - done.
  - intros url req Hin. apply str_contains_elem_of in Hin.
    unfold _is_valid_image_url.
    destruct (String.length url <? 10); [done|].
    destruct (negb _); [done|]. destruct (req && _); [done|].
    cbn. by rewrite Hin.
Qed.

Lemma valid_image_url_nonempty (url : string) (require_extension : bool) :
  _is_valid_image_url url require_extension = true → url ≠ "".
Proof. by intros H ->. Qed.

Lemma str_length_app (a b : string) :
  String.length (a +:+ b) = String.length a + String.length b.
Proof.
  induction a as [|c a IH]; [done|].
  change (S (String.length (a +:+ b)) = S (String.length a + String.length b)).
  by rewrite IH.
Qed.

Lemma consumed_app (w s' : string) : consumed (w +:+ s') s' = w.
Proof.
  unfold consumed. rewrite str_length_app.
  replace (String.length w + String.length s' - String.length s') with (String.length w)
    by lia.
  induction w as [|c w IH]; [by destruct s'|].
  change (String c (String.substring 0 (String.length w) (w +:+ s')) = String c w).
  by rewrite IH.
Qed.

(** A match consumes a prefix of the subject, a non-empty one when the
    pattern [consumes]. *)
Lemma matches_split (ic : bool) (r : regex) : ∀ (s s' : string),
  matches ic r s s' → ∃ w, s = w +:+ s' ∧ (consumes r = true → w ≠ "").
Proof.
  induction r as [|c|p|p|r1 IH1 r2 IH2|r1 IH1 r2 IH2|r1 IH1|]; intros s s'; cbn.
  - intros ->. by exists "".
  - intros (c' & -> & _). by exists (String c' "").
  - intros (c' & -> & _). by exists (String c' "").
  - intros (w & -> & _). by exists w.
  - intros (m & (w1 & -> & H1)%IH1 & (w2 & -> & H2)%IH2).
    exists (w1 +:+ w2). split; [by rewrite str_app_assoc|].
    intros [Hc|Hc]%orb_true_iff.
    + specialize (H1 Hc). by destruct w1.
    + specialize (H2 Hc). destruct w1; [done|]. discriminate.
  - intros [(w & -> & H)%IH1|(w & -> & H)%IH2]; exists w; split; try done;
      intros [? ?]%andb_true_iff; auto.
  - intros (w & -> & H)%IH1. by exists w.
  - intros [-> _]. by exists "".
Qed.

(** An attempt with a pattern that is one group reports the text matched. *)
Lemma match_here_group (ic : bool) (r : regex) (s s' : string) (cap : option string) :
  match_here ic (Group r) s = Some (s', cap) →
  ∃ w, s = w +:+ s' ∧ cap = Some w ∧ matches ic r s s' ∧ (consumes r = true → w ≠ "").
Proof.
  unfold match_here. cbn. intros (s2 & cap2 & Hm & [= <- <-])%rmatch_sound.
  destruct (matches_split ic r s s2 Hm) as (w & -> & Hw).
  exists w. by rewrite consumed_app.
Qed.

(** What [re.findall] returns for a pattern that is one consuming group is
    never the empty string. *)
Lemma findall_group_nonempty (ic : bool) (r : regex) (s x : string) :
  consumes r = true → x ∈ re_findall ic (Group r) s → x ≠ "".
Proof.
  intros Hc. unfold re_findall. generalize (S (String.length s)) as fuel.
  intros fuel. revert s. induction fuel as [|fuel IH]; intros s; cbn [findall_from].
  { by intros ?%elem_of_nil. }
  destruct (match_here ic (Group r) s) as [[s' cap]|] eqn:E.
  - apply match_here_group in E as (w & -> & -> & _ & Hw).
    intros [->|Hin]%elem_of_cons; [by apply Hw|].
    destruct (String.length s' <? String.length (w +:+ s')); [by eapply IH|].
    destruct (w +:+ s'); [by apply elem_of_nil in Hin|by eapply IH].
  - destruct s; [by intros ?%elem_of_nil|apply IH].
Qed.

(** The scan of [re.findall] visits at most one position per character and
    one more: any fuel above the length of the subject gives the same list. *)
Lemma findall_fuel_enough (ic : bool) (r : regex) (n : nat) : ∀ (m : nat) (s : string),
  String.length s < n → String.length s < m →
  findall_from n ic r s = findall_from m ic r s.
Proof.
  induction n as [|n IH]; intros [|m] s Hn Hm; try lia. cbn [findall_from].
  destruct (match_here ic r s) as [[s' cap]|].
  - f_equal. destruct (String.length s' <? String.length s) eqn:Hlt.
    + apply Nat.ltb_lt in Hlt. apply IH; lia.
    + destruct s as [|c t]; [done|]. cbn in Hn, Hm. apply IH; lia.
  - destruct s as [|c t]; [done|]. cbn in Hn, Hm. apply IH; lia.
Qed.

Lemma re_findall_fuel (ic : bool) (r : regex) (s : string) (fuel : nat) :
  String.length s < fuel → findall_from fuel ic r s = re_findall ic r s.
Proof. intros Hfuel. apply findall_fuel_enough; [done|lia]. Qed.

(** None of the patterns scanned with [re.findall] can match the empty
    string, so every match moves the scan forward. *)
Lemma patterns_consume :
  consumes html_pattern = true ∧ consumes md_pattern = true
  ∧ consumes direct_pattern = true ∧ consumes data_url_pattern = true.
Proof. by repeat split. Qed.

(** ** Deduplication *)

Lemma dedupe_loop_result (items : list string) : ∀ (seen : gset string) (result : list string),
  dedupe_loop items seen result = result ++ dedupe_loop items seen [].
Proof.
  induction items as [|item items IH]; intros seen result; cbn.
  - by rewrite app_nil_r.
  - destruct (bool_decide (item = "") || bool_decide (item ∈ seen)); [apply IH|].
    rewrite (IH _ (result ++ [item])), (IH _ [item]). by rewrite <- app_assoc.
Qed.

Lemma dedupe_loop_elem_of (items : list string) : ∀ (seen : gset string) (x : string),
  x ∈ dedupe_loop items seen [] ↔ x ∈ items ∧ x ≠ "" ∧ x ∉ seen.
Proof.
  induction items as [|item items IH]; intros seen x; cbn.
  - rewrite elem_of_nil. tauto.
  - case_bool_decide as Hne; cbn.
    { rewrite IH, elem_of_cons. naive_solver. }
    case_bool_decide as Hseen.
    + rewrite IH, elem_of_cons. naive_solver.
    + rewrite dedupe_loop_result. cbn [app].
      rewrite !elem_of_cons, IH, elem_of_union, elem_of_singleton.
      destruct (decide (x = item)); naive_solver.
Qed.

Lemma dedupe_loop_NoDup (items : list string) : ∀ (seen : gset string),
  NoDup (dedupe_loop items seen []).
Proof.
  induction items as [|item items IH]; intros seen; cbn.
  - constructor.
  - destruct (bool_decide (item = "") || bool_decide (item ∈ seen)); [apply IH|].
    rewrite dedupe_loop_result. cbn. constructor; [|apply IH].
    rewrite dedupe_loop_elem_of. set_solver.
Qed.

Lemma dedupe_loop_app (l1 l2 : list string) : ∀ (seen : gset string),
  dedupe_loop (l1 ++ l2) seen []
  = dedupe_loop l1 seen []
    ++ dedupe_loop l2 (list_to_set (dedupe_loop l1 seen []) ∪ seen) [].
Proof.
  induction l1 as [|item l1 IH]; intros seen; cbn.
  - f_equal. set_solver.
  - destruct (bool_decide (item = "") || bool_decide (item ∈ seen)); [apply IH|].
    rewrite (dedupe_loop_result (l1 ++ l2)), (dedupe_loop_result l1), IH. cbn.
    do 3 f_equal. set_solver.
Qed.

Lemma dedupe_NoDup (items : list string) : NoDup (_dedupe_preserve items).
Proof. apply dedupe_loop_NoDup. Qed.

Lemma dedupe_elem_of (items : list string) (x : string) :
  x ∈ _dedupe_preserve items ↔ x ∈ items ∧ x ≠ "".
Proof. unfold _dedupe_preserve. rewrite dedupe_loop_elem_of. set_solver. Qed.

(** An element stands right after the distinct elements seen before its
    first occurrence, and nowhere else. *)
Lemma dedupe_first_occurrence (l1 l2 : list string) (x : string) :
  x ∉ l1 → x ≠ "" →
  ∃ later, _dedupe_preserve (l1 ++ x :: l2) = _dedupe_preserve l1 ++ (x :: later)
           ∧ (x ∉ _dedupe_preserve l1) ∧ (x ∉ later).
Proof.
  intros Hl1 Hne. unfold _dedupe_preserve. rewrite dedupe_loop_app. cbn.
  assert (x ∉ dedupe_loop l1 ∅ []) as Hnot by (rewrite dedupe_loop_elem_of; tauto).
  rewrite bool_decide_eq_false_2 by done. cbn.
  rewrite bool_decide_eq_false_2 by set_solver.
  rewrite (dedupe_loop_result l2 _ [x]). cbn. eexists. split; [reflexivity|].
  split; [done|].
  rewrite dedupe_loop_elem_of. set_solver.
Qed.

Lemma dedupe_nil_iff (items : list string) :
  _dedupe_preserve items = [] ↔ ∀ x, x ∈ items → x = "".
Proof.
  split.
  - intros Hnil x Hx. destruct (decide (x = "")) as [|Hne]; [done|].
    assert (x ∈ _dedupe_preserve items) as Hin by (apply dedupe_elem_of; done).
    rewrite Hnil in Hin. by apply elem_of_nil in Hin.
  - intros Hall. destruct (_dedupe_preserve items) as [|y l] eqn:E; [done|].
    assert (y ∈ _dedupe_preserve items) as Hin by (rewrite E; apply list_elem_of_here).
    apply dedupe_elem_of in Hin as [Hin Hne]. by destruct (Hne (Hall y Hin)).
Qed.

(** ** The response parser *)

#[local] Instance extends_preorder : PreOrder extends.
Proof.
  split.
  - by intros a.
  - intros a b c [H1 H2] [H3 H4]. split; by etrans.
Qed.

Lemma prefix_snoc (l : list string) (x : string) : l `prefix_of` (l ++ [x]).
Proof. by apply prefix_app_r. Qed.

Lemma foldl_preserves {A B : Type} (P : A → Prop) (f : A → B → A) (l : list B) :
  (∀ a b, P a → P (f a b)) → ∀ a, P a → P (foldl f a l).
Proof. intros Hf. induction l as [|b l IH]; intros a Ha; cbn; auto. Qed.

Lemma foldl_extends {A B : Type} (R : relation A) `{!PreOrder R} (f : A → B → A)
    (l : list B) :
  (∀ a b, R a (f a b)) → ∀ a, R a (foldl f a l).
Proof.
  intros Hf. induction l as [|b l IH]; intros a; cbn; [done|].
  etrans; [apply Hf|apply IH].
Qed.

Lemma Forall_snoc_nonempty (l : list string) (x : string) :
  Forall (λ x, x ≠ "") l → x ≠ "" → Forall (λ x, x ≠ "") (l ++ [x]).
Proof. intros Hl Hx. apply Forall_app. split; [done|]. by constructor. Qed.

(** *** Each step only appends, and only non-empty strings *)

Lemma data_item_extends (acc : found) (item : json) : extends acc (data_item acc item).
Proof.
  unfold data_item. destruct item as [| | | | |?|d]; try done.
  split; cbn.
  - destruct (get "url" d) as [[| | | |url| |]|]; try done.
    destruct (_is_valid_image_url url false); [apply prefix_snoc|done].
  - destruct (get "b64_json" d) as [[| | | |b| |]|]; try done.
    case_bool_decide; [done|apply prefix_snoc].
Qed.

Lemma data_item_nonempty (acc : found) (item : json) :
  nonempty_entries acc → nonempty_entries (data_item acc item).
Proof.
  intros [H1 H2]. unfold data_item. destruct item as [| | | | |?|d]; try done.
  split; cbn.
  - destruct (get "url" d) as [[| | | |url| |]|]; try done.
    destruct (_is_valid_image_url url false) eqn:E; [|done].
    apply Forall_snoc_nonempty; [done|]. by eapply valid_image_url_nonempty.
  - destruct (get "b64_json" d) as [[| | | |b| |]|]; try done.
    case_bool_decide; [done|]. by apply Forall_snoc_nonempty.
Qed.

Lemma image_urls_from_text_nonempty (content : string) :
  Forall (λ x, x ≠ "") (_extract_image_urls_from_text content).
Proof.
  unfold _extract_image_urls_from_text. case_bool_decide; [constructor|].
  rewrite !Forall_app. repeat split; apply Forall_forall;
    intros x [Hx _]%list_elem_of_filter; by eapply valid_image_url_nonempty.
Qed.

Lemma data_urls_from_text_nonempty (content : string) :
  Forall (λ x, x ≠ "") (_extract_data_urls_from_text content).
Proof.
  unfold _extract_data_urls_from_text. case_bool_decide; [constructor|].
  apply Forall_forall. intros x Hx.
  by eapply (findall_group_nonempty true _ content x); [|exact Hx].
Qed.

Lemma content_part_urls (acc : list string * list string) (part : json) :
  acc.1 `prefix_of` (content_part acc part).1
  ∧ (Forall (λ x, x ≠ "") acc.1 → Forall (λ x, x ≠ "") (content_part acc part).1).
Proof.
  unfold content_part. destruct part as [| | | | |?|p]; try done. cbn.
  destruct (py_eq_str (get "type" p) "image_url"); [|done].
  destruct (match get "image_url" p with
            | Some (JObj f) => get "url" f
            | _ => match get "url" p with
                   | Some (JStr u) => Some (JStr u)
                   | _ => None
                   end
            end) as [[| | | |u| |]|]; try done.
  destruct (_is_valid_image_url u false) eqn:E; [|done].
  split; [apply prefix_snoc|]. intros H. apply Forall_snoc_nonempty; [done|].
  by eapply valid_image_url_nonempty.
Qed.

Lemma content_parts_urls (parts : list json) : ∀ (acc : list string * list string),
  acc.1 `prefix_of` (foldl content_part acc parts).1
  ∧ (Forall (λ x, x ≠ "") acc.1 → Forall (λ x, x ≠ "") (foldl content_part acc parts).1).
Proof.
  induction parts as [|part parts IH]; intros acc; cbn; [done|].
  destruct (content_part_urls acc part) as [H1 H2].
  destruct (IH (content_part acc part)) as [H3 H4].
  split; [by etrans|auto].
Qed.

Lemma from_content_extends (content : option json) (acc : found) :
  extends acc (from_content content acc).
Proof.
  unfold from_content. destruct content as [[| | | |text|parts|]|]; try done.
  - split; cbn; by apply prefix_app_r.
  - destruct (content_parts_urls parts (acc.1, [])) as [Hpre _].
    destruct (foldl content_part (acc.1, []) parts) as [urls [|t ts]]; cbn in *.
    + by split.
    + split; cbn; [|by apply prefix_app_r]. etrans; [exact Hpre|by apply prefix_app_r].
Qed.

Lemma from_content_nonempty (content : option json) (acc : found) :
  nonempty_entries acc → nonempty_entries (from_content content acc).
Proof.
  intros [H1 H2]. unfold from_content.
  destruct content as [[| | | |text|parts|]|]; try done.
  - split; cbn; apply Forall_app; split; try done.
    + apply image_urls_from_text_nonempty.
    + apply data_urls_from_text_nonempty.
  - destruct (content_parts_urls parts (acc.1, [])) as [_ Hne]. specialize (Hne H1).
    destruct (foldl content_part (acc.1, []) parts) as [urls [|t ts]]; cbn in *.
    + by split.
    + split; cbn; apply Forall_app; split; try done.
      * apply image_urls_from_text_nonempty.
      * apply data_urls_from_text_nonempty.
Qed.

Lemma attachment_item_urls (urls : list string) (item : json) :
  urls `prefix_of` attachment_item urls item
  ∧ (Forall (λ x, x ≠ "") urls → Forall (λ x, x ≠ "") (attachment_item urls item)).
Proof.
  unfold attachment_item. destruct item as [| | | | |?|d]; try done.
  destruct (get "url" d) as [[| | | |url| |]|]; try done.
  destruct (_is_valid_image_url url false) eqn:E; [|done].
  split; [apply prefix_snoc|]. intros H. apply Forall_snoc_nonempty; [done|].
  by eapply valid_image_url_nonempty.
Qed.

Lemma from_attachments_urls (message : list (string * json)) (urls : list string) :
  urls `prefix_of` from_attachments message urls
  ∧ (Forall (λ x, x ≠ "") urls → Forall (λ x, x ≠ "") (from_attachments message urls)).
Proof.
  unfold from_attachments.
  assert (∀ field us,
    us `prefix_of` match get field message with
                   | Some (JArr items) => foldl attachment_item us items
                   | _ => us
                   end
    ∧ (Forall (λ x, x ≠ "") us →
       Forall (λ x, x ≠ "") match get field message with
                            | Some (JArr items) => foldl attachment_item us items
                            | _ => us
                            end)) as Hfield.
  { intros field us. destruct (get field message) as [[| | | | |items|]|]; try done.
    split.
    - apply (foldl_extends prefix). intros a b. apply attachment_item_urls.
    - apply (foldl_preserves (Forall (λ x, x ≠ ""))). intros a b.
      apply attachment_item_urls. }
  split.
  - apply (foldl_extends prefix). intros a b. apply Hfield.
  - apply (foldl_preserves (Forall (λ x, x ≠ ""))). intros a b. apply Hfield.
Qed.

Lemma from_choice_extends (choice : option json) (acc : found) :
  extends acc (from_choice choice acc).1.
Proof.
  unfold from_choice. destruct choice as [[| | | | | |c]|]; try done.
  destruct (default (JObj []) (get "message" c)) as [| | | | | |message]; try done.
  cbn. destruct (from_content_extends (get "content" message) acc) as [H1 H2].
  split; cbn; [|done]. etrans; [exact H1|apply from_attachments_urls].
Qed.

Lemma from_choice_nonempty (choice : option json) (acc : found) :
  nonempty_entries acc → nonempty_entries (from_choice choice acc).1.
Proof.
  intros Hacc. unfold from_choice. destruct choice as [[| | | | | |c]|]; try done.
  destruct (default (JObj []) (get "message" c)) as [| | | | | |message]; try done.
  cbn. destruct (from_content_nonempty (get "content" message) acc Hacc) as [H1 H2].
  split; cbn; [|done]. by apply from_attachments_urls.
Qed.

Lemma from_data_field_nonempty (d : list (string * json)) (acc : found) :
  nonempty_entries acc → nonempty_entries (from_data_field d acc).
Proof.
  unfold from_data_field. destruct (get "data" d) as [[| | | | |items|]|]; try done.
  apply foldl_preserves. intros a b. apply data_item_nonempty.
Qed.

(** Nothing the parser collects is the empty string. *)
Lemma collect_nonempty (d : list (string * json)) : nonempty_entries (collect d).1.
Proof.
  apply from_choice_nonempty, from_data_field_nonempty. by split; constructor.
Qed.

(** A well-formed response makes no step of the parser raise. *)
Lemma collect_well_formed (d : list (string * json)) :
  well_formed (JObj d) → (collect d).2 = None.
Proof.
  intros (d' & [= <-] & Hshape). unfold collect, from_choice.
  destruct (first_choice d) as [[| | | | | |c]|] eqn:Hc; try done.
  destruct (get "message" c) as [v|] eqn:Hm; cbn; [|done].
  by destruct (Hshape c v eq_refl Hm) as [message ->].
Qed.

(** What an item of the [data] list adds stays in the lists. *)
Lemma data_items_found (items : list json) (fields : list (string * json)) :
  JObj fields ∈ items → ∀ acc : found,
  (∀ url, get "url" fields = Some (JStr url) → _is_valid_image_url url false = true →
          url ∈ (foldl data_item acc items).1)
  ∧ (∀ b64_json, get "b64_json" fields = Some (JStr b64_json) → b64_json ≠ "" →
          "data:image/png;base64," +:+ b64_json ∈ (foldl data_item acc items).2).
Proof.
  induction items as [|item items IH]; [by intros ?%elem_of_nil|].
  intros [<-|Hin]%elem_of_cons acc; [|by apply IH].
  cbn [foldl].
  destruct (foldl_extends extends data_item items data_item_extends
              (data_item acc (JObj fields))) as [[k1 ->] [k2 ->]].
  split.
  - intros url Hurl Hvalid. cbn. rewrite Hurl, Hvalid. set_solver.
  - intros b Hb Hne. cbn. rewrite Hb, bool_decide_eq_false_2 by done. set_solver.
Qed.

Lemma dedupe_nil_nonempty (items : list string) :
  Forall (λ x, x ≠ "") items → _dedupe_preserve items = [] → items = [].
Proof.
  intros Hne Hnil. destruct items as [|x items]; [done|].
  apply Forall_cons in Hne as [Hx _].
  destruct (proj1 (dedupe_nil_iff (x :: items)) Hnil x); [apply list_elem_of_here|done].
Qed.

Lemma dedupe_singleton (x : string) : x ≠ "" → _dedupe_preserve [x] = [x].
Proof.
  intros Hx. unfold _dedupe_preserve. cbn.
  rewrite bool_decide_eq_false_2 by done. cbn. by rewrite bool_decide_eq_false_2.
Qed.

(** The last step of the parser, once collection went through. *)
Lemma extract_results_collected (d : list (string * json)) (raw : found) :
  collect d = (raw, None) →
  _extract_image_results (JObj d)
  = match _dedupe_preserve raw.1, _dedupe_preserve raw.2 with
    | [], [] => ([], [], Some msg_no_image)
    | image_urls, data_urls => (image_urls, data_urls, None)
    end.
Proof.
  intros Hc. cbn. rewrite Hc. destruct raw as [u dd]. unfold _dedupe_preserve. cbn.
  by destruct (dedupe_loop u ∅ []), (dedupe_loop dd ∅ []).
Qed.

Lemma extract_results_some (d : list (string * json)) (raw : found) :
  collect d = (raw, None) → raw.1 ≠ [] ∨ raw.2 ≠ [] →
  _extract_image_results (JObj d) = (_dedupe_preserve raw.1, _dedupe_preserve raw.2, None).
Proof.
  intros Hc Hsome. rewrite (extract_results_collected d raw Hc).
  destruct (collect_nonempty d) as [H1 H2]. rewrite Hc in H1, H2. cbn in H1, H2.
  destruct (_dedupe_preserve raw.1) as [|] eqn:E1; [|done].
  destruct (_dedupe_preserve raw.2) as [|] eqn:E2; [|done].
  apply dedupe_nil_nonempty in E1, E2; try done. destruct Hsome; congruence.
Qed.

(** C4.  When the top-level [data] field is a list, every object in it that
    carries a string [url] passing validation gets that URL appended to the
    remote list, and every one that carries a non-empty string [b64_json]
    gets [data:image/png;base64,] followed by the payload appended to the
    inline list; unless a later step raises, both are in the lists the
    parser returns, with no error.  For the response
    [{data: [{url: https://x/a.png}, {b64_json: b}]}] and any non-empty [b]
    the parser returns exactly that URL and that one data URI. *)
Theorem data_items_collected :
  (∀ d items fields,
     get "data" d = Some (JArr items) → JObj fields ∈ items →
     (∀ url,
        get "url" fields = Some (JStr url) → _is_valid_image_url url false = true →
        url ∈ (collect d).1.1
        ∧ ((collect d).2 = None →
           url ∈ (_extract_image_results (JObj d)).1.1
           ∧ (_extract_image_results (JObj d)).2 = None))
     ∧ (∀ b64_json,
        get "b64_json" fields = Some (JStr b64_json) → b64_json ≠ "" →
        "data:image/png;base64," +:+ b64_json ∈ (collect d).1.2
        ∧ ((collect d).2 = None →
           "data:image/png;base64," +:+ b64_json ∈ (_extract_image_results (JObj d)).1.2
           ∧ (_extract_image_results (JObj d)).2 = None)))
  ∧ (∀ b64_json,
       b64_json ≠ "" →
       _extract_image_results
         (JObj [("data", JArr [JObj [("url", JStr "https://x/a.png")];
                               JObj [("b64_json", JStr b64_json)]])])
       = (["https://x/a.png"], ["data:image/png;base64," +:+ b64_json], None)).
Proof.
  split.
  - intros d items fields Hdata Hin.
    destruct (data_items_found items fields Hin ([], [])) as [Hurl Hb64].
    assert (extends (foldl data_item ([], []) items) (collect d).1) as [[k1 Hk1] [k2 Hk2]].
    { unfold collect, from_data_field. rewrite Hdata. apply from_choice_extends. }
    split.
    + intros url Hget Hvalid. specialize (Hurl url Hget Hvalid).
      assert (url ∈ (collect d).1.1) as Hraw by (rewrite Hk1; set_solver).
      split; [done|]. intros Hok.
      rewrite (extract_results_some d (collect d).1).
      * cbn. split; [|done]. apply dedupe_elem_of. split; [done|].
        by eapply valid_image_url_nonempty.
      * by destruct (collect d) as [raw e]; cbn in *; subst.
      * left. intros Hnil. rewrite Hnil in Hraw. by apply elem_of_nil in Hraw.
    + intros b Hget Hne. specialize (Hb64 b Hget Hne).
      assert ("data:image/png;base64," +:+ b ∈ (collect d).1.2) as Hraw
        by (rewrite Hk2; set_solver).
      split; [done|]. intros Hok.
      rewrite (extract_results_some d (collect d).1).
      * cbn. split; [|done]. by apply dedupe_elem_of.
      * by destruct (collect d) as [raw e]; cbn in *; subst.
      * right. intros Hnil. rewrite Hnil in Hraw. by apply elem_of_nil in Hraw.
  - intros b Hne.
    rewrite (extract_results_some _ (["https://x/a.png"], ["data:image/png;base64," +:+ b])).
    + cbn [fst snd]. by rewrite (dedupe_singleton ("data:image/png;base64," +:+ b)).
    + unfold collect, from_data_field. cbn. by rewrite bool_decide_eq_false_2.
    + by left.
Qed.

Lemma data_items_collected_witness :
  _extract_image_results
    (JObj [("data", JArr [JObj [("url", JStr "https://x/a.png")];
                          JObj [("b64_json", JStr "<base64>")]])])
  = (["https://x/a.png"], ["data:image/png;base64,<base64>"], None).
Proof.
  refine (proj2 data_items_collected "<base64>" _). discriminate.
Defined.


(** C6.  Whatever the parser is given, neither list it returns holds an
    entry twice.  When it returns lists, they are the deduplicated lists of
    what the extraction steps collected, in the order of the steps; the
    deduplicated list holds exactly the non-empty entries of the collected
    one, and each stands where its first occurrence puts it: after the
    distinct entries collected before it, and nowhere later.  A URL found
    first in the [data] list and again in the text of the first choice (by
    the Markdown pattern and by the bare-URL pattern) is returned once, ahead
    of a URL that the text names before it. *)
Theorem parser_results_deduplicated :
  (∀ response_data,
     NoDup (_extract_image_results response_data).1.1
     ∧ NoDup (_extract_image_results response_data).1.2)
  ∧ (∀ d raw,
       collect d = (raw, None) →
       (_extract_image_results (JObj d)).2 = None →
       (_extract_image_results (JObj d)).1
       = (_dedupe_preserve raw.1, _dedupe_preserve raw.2))
  ∧ (∀ items x, x ∈ _dedupe_preserve items ↔ x ∈ items ∧ x ≠ "")
  ∧ (∀ earlier later x,
       x ∉ earlier → x ≠ "" →
       ∃ rest, _dedupe_preserve (earlier ++ x :: later)
               = _dedupe_preserve earlier ++ (x :: rest)
               ∧ (x ∉ _dedupe_preserve earlier) ∧ (x ∉ rest))
  ∧ (collect [("data", JArr [JObj [("url", JStr "https://x/a.png")]]);
              ("choices",
               JArr [JObj [("message",
                            JObj [("content",
                                   JStr "![b](https://x/b.jpg) ![a](https://x/a.png)")])]])]
     = ((["https://x/a.png"; "https://x/b.jpg"; "https://x/a.png";
          "https://x/b.jpg"; "https://x/a.png"], []), None)
     ∧ _extract_image_results twice_found
       = (["https://x/a.png"; "https://x/b.jpg"], [], None)).
Proof.
  split; [|split; [|split; [|split]]].
  - intros [| | | | | |d]; cbn; try (split; constructor).
    destruct (collect d) as [[u dd] [e|]]; [split; constructor|].
    cbn.
    pose proof (dedupe_NoDup u) as Hu. pose proof (dedupe_NoDup dd) as Hd.
    unfold _dedupe_preserve in *.
    destruct (dedupe_loop u ∅ []), (dedupe_loop dd ∅ []); cbn; split; try done;
      constructor.
  - intros d raw Hc. rewrite (extract_results_collected d raw Hc).
    by destruct (_dedupe_preserve raw.1), (_dedupe_preserve raw.2).
  - apply dedupe_elem_of.
  - apply dedupe_first_occurrence.
  - split; by vm_compute.
Qed.

Lemma parser_results_deduplicated_witness :
  ∃ rest, _dedupe_preserve (["https://x/b.jpg"] ++ "https://x/a.png"
                                                 :: ["https://x/b.jpg"; "https://x/a.png"])
          = _dedupe_preserve ["https://x/b.jpg"] ++ ("https://x/a.png" :: rest)
          ∧ ("https://x/a.png" ∉ _dedupe_preserve ["https://x/b.jpg"])
          ∧ ("https://x/a.png" ∉ rest).
Proof.
  refine (proj1 (proj2 (proj2 (proj2 parser_results_deduplicated)))
            ["https://x/b.jpg"] ["https://x/b.jpg"; "https://x/a.png"]
            "https://x/a.png" _ _).
  - intros [H|H]%elem_of_cons; [discriminate|by apply elem_of_nil in H].
  - discriminate.
Defined.

(** C7.  For a well-formed response every extraction step goes through, and
    the parser returns an error exactly when both collected lists are empty
    once deduplicated; with an error it returns two empty lists; and as soon
    as one list has collected anything, it returns the deduplicated lists
    and no error. *)
Theorem parser_error_iff_nothing_found (response_data : json) :
  well_formed response_data →
  ∃ d raw_urls raw_data,
    response_data = JObj d
    ∧ collect d = ((raw_urls, raw_data), None)
    ∧ (is_Some (_extract_image_results response_data).2
       ↔ _dedupe_preserve raw_urls = [] ∧ _dedupe_preserve raw_data = [])
    ∧ (is_Some (_extract_image_results response_data).2 →
       (_extract_image_results response_data).1 = ([], []))
    ∧ (raw_urls ≠ [] ∨ raw_data ≠ [] →
       _extract_image_results response_data
       = (_dedupe_preserve raw_urls, _dedupe_preserve raw_data, None)).
Proof.
  intros Hwf. pose proof Hwf as (d & -> & _).
  pose proof (collect_well_formed d Hwf) as Hok.
  destruct (collect d) as [[u dd] e] eqn:Hc. cbn in Hok. subst e.
  exists d, u, dd. split; [done|]. split; [done|].
  pose proof (extract_results_collected d (u, dd) Hc) as Hres. cbn [fst snd] in Hres.
  split; [|split].
  - rewrite Hres. destruct (_dedupe_preserve u), (_dedupe_preserve dd); cbn;
      split; try done; try (by intros [? ?]); by intros [? [=]].
  - rewrite Hres. destruct (_dedupe_preserve u), (_dedupe_preserve dd); cbn; try done;
      by intros [? [=]].
  - intros Hsome. by apply (extract_results_some d (u, dd)).
Qed.

Lemma parser_error_iff_nothing_found_witness :
  ∃ d raw_urls raw_data,
    twice_found = JObj d
    ∧ collect d = ((raw_urls, raw_data), None)
    ∧ (is_Some (_extract_image_results twice_found).2
       ↔ _dedupe_preserve raw_urls = [] ∧ _dedupe_preserve raw_data = [])
    ∧ (is_Some (_extract_image_results twice_found).2 →
       (_extract_image_results twice_found).1 = ([], []))
    ∧ (raw_urls ≠ [] ∨ raw_data ≠ [] →
       _extract_image_results twice_found
       = (_dedupe_preserve raw_urls, _dedupe_preserve raw_data, None)).
Proof.
  refine (parser_error_iff_nothing_found twice_found _).
  eexists. split; [reflexivity|]. intros c v [= <-] [= <-]. by eexists.
Defined.

(** A first choice whose [message] is [null]: the URL of the [data] list has
    been collected when [message.get] raises, and the parser returns the
    error of its [except] clause with two empty lists. *)
Example message_not_an_object :
  let d := [("data", JArr [JObj [("url", JStr "https://x/a.png")]]);
            ("choices", JArr [JObj [("message", JNull)]])] in
  collect d = ((["https://x/a.png"], []),
               Some "'NoneType' object has no attribute 'get'")
  ∧ _extract_image_results (JObj d)
    = ([], [], Some "图片提取失败: 'NoneType' object has no attribute 'get'")
  ∧ ¬ well_formed (JObj d).
Proof.
  cbn zeta. split; [by vm_compute|]. split; [by vm_compute|].
  intros (d & [= <-] & Hshape).
  by destruct (Hshape [("message", JNull)] JNull eq_refl eq_refl).
Qed.

(** ** The API client *)

Section attempts.
Context (cfg : Config) (w : World) (payload : Payload).

Local Abbreviation N := (Z.to_nat (max_retry_attempts cfg)).

(** One iteration on a reply that asks for another attempt. *)
Lemma attempt_retryable (remaining attempt : nat) :
  retryable (post w payload attempt) →
  attempt_loop cfg w payload (S remaining) attempt
  = if bool_decide (Z.of_nat attempt = max_retry_attempts cfg - 1)%Z
    then (([], [], Some (retry_error cfg w (post w payload attempt))), 1)
    else let '(r, n) := attempt_loop cfg w payload remaining (S attempt) in (r, S n).
Proof.
  cbn [attempt_loop]. destruct (post w payload attempt) as [status text body| |e]; cbn.
  - intros [H200 H403]. by rewrite !bool_decide_eq_false_2 by done.
  - done.
  - done.
Qed.

(** The replies before attempt [k] all asked for another attempt: the loop
    reaches attempt [k], having sent [k] requests. *)
Lemma attempt_loop_reaches (k : nat) : ∀ (remaining attempt : nat),
  attempt + remaining = N →
  k < remaining →
  (∀ j, j < k → retryable (post w payload (attempt + j))) →
  attempt_loop cfg w payload remaining attempt
  = let '(r, n) := attempt_loop cfg w payload (remaining - k) (attempt + k) in
    (r, k + n).
Proof.
  induction k as [|k IH]; intros remaining attempt HN Hk Hretry.
  - rewrite Nat.sub_0_r, Nat.add_0_r. by destruct (attempt_loop _ _ _ _ _).
  - destruct remaining as [|remaining]; [lia|].
    rewrite attempt_retryable
      by (specialize (Hretry 0 ltac:(lia)); by rewrite Nat.add_0_r in Hretry).
    rewrite bool_decide_eq_false_2 by lia.
    rewrite (IH remaining (S attempt)); [|lia|lia|].
    + replace (S attempt + k) with (attempt + S k) by lia.
      replace (S remaining - S k) with (remaining - k) by lia.
      by destruct (attempt_loop _ _ _ _ _).
    + intros j Hj. replace (S attempt + j) with (attempt + S j) by lia.
      apply Hretry. lia.
Qed.

Lemma attempt_loop_sends (remaining attempt : nat) :
  1 ≤ (attempt_loop cfg w payload (S remaining) attempt).2.
Proof.
  cbn [attempt_loop].
  destruct (post w payload attempt) as [status text body| |e];
    repeat case_bool_decide; cbn; try lia;
    try destruct (on_status_200 text body); cbn; try lia;
    repeat case_bool_decide; cbn; try lia;
    destruct (attempt_loop _ _ _ _ _); cbn; lia.
Qed.
End attempts.

Lemma extract_results_no_error (v : json) (image_urls data_urls : list string) :
  _extract_image_results v = (image_urls, data_urls, None) →
  image_urls ≠ [] ∨ data_urls ≠ [].
Proof.
  destruct v as [| | | | | |d]; try done. cbn.
  destruct (collect d) as [[u dd] [e|]]; [done|].
  destruct (_dedupe_preserve u) as [|x u'], (_dedupe_preserve dd) as [|y dd'];
    intros [= <- <-]; auto.
Qed.

Lemma on_status_200_success (text : string) (v : json) (image_urls data_urls : list string) :
  _extract_image_results v = (image_urls, data_urls, None) →
  on_status_200 text (Decoded v) = Ok (image_urls, data_urls, None).
Proof.
  intros Hv. unfold on_status_200. rewrite Hv. cbn.
  by destruct (extract_results_no_error v _ _ Hv), image_urls, data_urls.
Qed.

(** C3.  Let the client be configured with a key and suppose every reply
    before attempt [k] (counted from 0, [k] below [max_retry_attempts]) was a
    status other than 200 and 403, a timeout or a transport error.  Then
    attempt [k] is made, and: if its reply is of that kind again, a further
    request is sent unless [k] is the last attempt, in which case the error
    of that reply is returned; a 403 returns the access error at once; a 200
    whose body is not JSON returns the parse error at once; a 200 whose body
    the parser accepts returns its lists.  In each terminal case exactly
    [k + 1] requests were sent.  With two attempts configured, a 500 followed
    by an accepted 200 gives success after exactly two requests, and a 403
    on the first attempt gives the access error after exactly one. *)
Theorem retry_policy :
  (∀ cfg w prompt image_base64 k,
     api_key cfg ≠ "" →
     (Z.of_nat k < max_retry_attempts cfg)%Z →
     (∀ j, j < k → retryable (post w (build_payload cfg prompt image_base64) j)) →
     let reply := post w (build_payload cfg prompt image_base64) k in
     let call := _call_grok_api cfg w prompt image_base64 in
     (retryable reply → (Z.of_nat k < max_retry_attempts cfg - 1)%Z → S (S k) ≤ call.2)
     ∧ (retryable reply → Z.of_nat k = (max_retry_attempts cfg - 1)%Z →
        call = (([], [], Some (retry_error cfg w reply)), S k))
     ∧ (∀ text body,
          reply = Response 403 text body →
          call = (([], [], Some "API访问被拒绝，请检查密钥和权限"), S k))
     ∧ (∀ text e,
          reply = Response 200 text (JSONDecodeError e) →
          call = (([], [], Some ("API响应JSON解析失败: " +:+ e +:+ ", 响应内容: "
                                 +:+ str_take 200 text)), S k))
     ∧ (∀ text v image_urls data_urls,
          reply = Response 200 text (Decoded v) →
          _extract_image_results v = (image_urls, data_urls, None) →
          call = ((image_urls, data_urls, None), S k)))
  ∧ (∀ cfg w prompt image_base64 text0 body0 text1 v image_urls data_urls,
       api_key cfg ≠ "" →
       max_retry_attempts cfg = 2%Z →
       post w (build_payload cfg prompt image_base64) 0 = Response 500 text0 body0 →
       post w (build_payload cfg prompt image_base64) 1 = Response 200 text1 (Decoded v) →
       _extract_image_results v = (image_urls, data_urls, None) →
       _call_grok_api cfg w prompt image_base64 = ((image_urls, data_urls, None), 2))
  ∧ (∀ cfg w prompt image_base64 text body,
       api_key cfg ≠ "" →
       max_retry_attempts cfg = 2%Z →
       post w (build_payload cfg prompt image_base64) 0 = Response 403 text body →
       _call_grok_api cfg w prompt image_base64
       = (([], [], Some "API访问被拒绝，请检查密钥和权限"), 1)).
Proof.
  assert (∀ cfg w prompt image_base64 k,
     api_key cfg ≠ "" →
     (Z.of_nat k < max_retry_attempts cfg)%Z →
     (∀ j, j < k → retryable (post w (build_payload cfg prompt image_base64) j)) →
     let reply := post w (build_payload cfg prompt image_base64) k in
     let call := _call_grok_api cfg w prompt image_base64 in
     (retryable reply → (Z.of_nat k < max_retry_attempts cfg - 1)%Z → S (S k) ≤ call.2)
     ∧ (retryable reply → Z.of_nat k = (max_retry_attempts cfg - 1)%Z →
        call = (([], [], Some (retry_error cfg w reply)), S k))
     ∧ (∀ text body,
          reply = Response 403 text body →
          call = (([], [], Some "API访问被拒绝，请检查密钥和权限"), S k))
     ∧ (∀ text e,
          reply = Response 200 text (JSONDecodeError e) →
          call = (([], [], Some ("API响应JSON解析失败: " +:+ e +:+ ", 响应内容: "
                                 +:+ str_take 200 text)), S k))
     ∧ (∀ text v image_urls data_urls,
          reply = Response 200 text (Decoded v) →
          _extract_image_results v = (image_urls, data_urls, None) →
          call = ((image_urls, data_urls, None), S k))) as Hgeneral.
  { intros cfg w prompt image k Hkey Hk Hbefore reply call.
    set (payload := build_payload cfg prompt image) in *.
    set (N := Z.to_nat (max_retry_attempts cfg)).
    assert (call = let '(r, n) := attempt_loop cfg w payload (N - k) k in (r, k + n))
      as Hcall.
    { subst call. unfold _call_grok_api. rewrite bool_decide_eq_false_2 by done.
      fold payload. fold N.
      apply (attempt_loop_reaches cfg w payload k N 0); [done|lia|done]. }
    destruct (N - k) as [|remaining] eqn:Hrem; [lia|].
    split; [|split; [|split; [|split]]].
    - intros Hretry Hmore. rewrite Hcall, attempt_retryable by done.
      rewrite bool_decide_eq_false_2 by lia.
      destruct remaining as [|remaining]; [lia|].
      pose proof (attempt_loop_sends cfg w payload remaining (S k)) as Hsent.
      destruct (attempt_loop cfg w payload (S remaining) (S k)) as [r n].
      cbn in *. lia.
    - intros Hretry Hlast. rewrite Hcall, attempt_retryable by done.
      rewrite bool_decide_eq_true_2 by done. f_equal. lia.
    - intros text body Hreply. rewrite Hcall. cbn [attempt_loop].
      fold reply. rewrite Hreply. cbn. f_equal. lia.
    - intros text e Hreply. rewrite Hcall. cbn [attempt_loop].
      fold reply. rewrite Hreply. cbn. f_equal. lia.
    - intros text v u dd Hreply Hv. rewrite Hcall. cbn [attempt_loop].
      fold reply. rewrite Hreply. rewrite bool_decide_eq_true_2 by done.
      rewrite (on_status_200_success text v u dd Hv). f_equal. lia. }
  split; [exact Hgeneral|split].
  - intros cfg w prompt image text0 body0 text1 v u dd Hkey HN H0 H1 Hv.
    refine (proj2 (proj2 (proj2 (proj2 (Hgeneral cfg w prompt image 1 Hkey _ _))))
              text1 v u dd H1 Hv); [lia|].
    intros j Hj. replace j with 0 by lia. rewrite H0. by cbn.
  - intros cfg w prompt image text body Hkey HN H0.
    refine (proj1 (proj2 (proj2 (Hgeneral cfg w prompt image 0 Hkey _ _))) text body H0);
      [lia|]. intros j Hj. lia.
Qed.


Lemma retry_policy_witness :
  _call_grok_api two_per_minute flaky_server "add sunglasses" "data:image/png;base64,AAAA"
  = ((["https://x/a.png"], [], None), 2).
Proof.
  refine (proj1 (proj2 retry_policy) two_per_minute flaky_server "add sunglasses"
            "data:image/png;base64,AAAA" "overloaded" (JSONDecodeError "Expecting value")
            "{...}" _ ["https://x/a.png"] [] _ eq_refl eq_refl eq_refl _).
  - discriminate.
  - by vm_compute.
Defined.

(** ** The orchestrator *)

Section components.
Context (cfg : Config) (w : World).

Local Abbreviation max := (max_images_per_response cfg).

Lemma add_urls_take (image_urls : list string) :
  ∀ (components : list image_component) (count : Z),
  add_urls cfg image_urls components count
  = (components ++ take (Z.to_nat (max - count)) (FromURL <$> image_urls),
     (count + Z.of_nat (Z.to_nat (max - count) `min` length image_urls))%Z).
Proof.
  induction image_urls as [|u us IH]; intros components count; cbn [add_urls fmap list_fmap length].
  - rewrite take_nil, app_nil_r, Nat.min_0_r. f_equal. lia.
  - case_bool_decide as Hfull.
    + replace (Z.to_nat (max - count)) with 0 by lia.
      rewrite take_0, app_nil_r. cbn. f_equal. lia.
    + rewrite IH.
      replace (Z.to_nat (max - count)) with (S (Z.to_nat (max - (count + 1)))) by lia.
      cbn [fmap list_fmap take length]. rewrite <- app_assoc. cbn. f_equal. lia.
Qed.

Lemma add_paths_take (image_paths : list string) :
  ∀ (components : list image_component) (count : Z),
  add_paths cfg w image_paths components count
  = (components
     ++ take (Z.to_nat (max - count))
          ((λ p, FromFileSystem (_prepare_image_path cfg w p)) <$> image_paths),
     (count + Z.of_nat (Z.to_nat (max - count) `min` length image_paths))%Z).
Proof.
  induction image_paths as [|p ps IH]; intros components count; cbn [add_paths fmap list_fmap length].
  - rewrite take_nil, app_nil_r, Nat.min_0_r. f_equal. lia.
  - case_bool_decide as Hfull.
    + replace (Z.to_nat (max - count)) with 0 by lia.
      rewrite take_0, app_nil_r. cbn. f_equal. lia.
    + rewrite IH.
      replace (Z.to_nat (max - count)) with (S (Z.to_nat (max - (count + 1)))) by lia.
      cbn [fmap list_fmap take length]. rewrite <- app_assoc. cbn. f_equal. lia.
Qed.

(** The two loops cut the list of all results at the configured maximum. *)
Lemma build_components_take (image_urls image_paths : list string) :
  build_components cfg w image_urls image_paths
  = take (Z.to_nat max) (all_components cfg w image_urls image_paths).
Proof.
  unfold build_components, all_components. rewrite add_urls_take, add_paths_take.
  cbn [fst]. rewrite Z.sub_0_r, Z.add_0_l, app_nil_l, take_app, length_fmap.
  do 2 f_equal. lia.
Qed.
End components.

Lemma chains_app (a b : list effect) : chains (a ++ b) = chains a ++ chains b.
Proof. apply omap_app. Qed.

Lemma cleanup_file_quiet (cfg : Config) (image_path : string) :
  chains (_cleanup_image_file cfg image_path).1 = []
  ∧ (_cleanup_image_file cfg image_path).2 = Ok tt.
Proof.
  unfold _cleanup_image_file. case_bool_decide; [done|].
  by destruct (save_image_enabled cfg).
Qed.

Lemma cleanup_no_chain (cfg : Config) (image_paths : list string) : ∀ (a : action),
  a.2 = Ok tt →
  chains (foldl (λ a p, and_then a (_cleanup_image_file cfg p)) a image_paths).1
  = chains a.1
  ∧ (foldl (λ a p, and_then a (_cleanup_image_file cfg p)) a image_paths).2 = Ok tt.
Proof.
  induction image_paths as [|p ps IH]; intros [done_ r] Hr; cbn in Hr; subst r; [done|].
  cbn [foldl and_then]. destruct (cleanup_file_quiet cfg p) as [Hq1 Hq2].
  destruct (IH (done_ ++ (_cleanup_image_file cfg p).1, (_cleanup_image_file cfg p).2) Hq2)
    as [-> ->].
  cbn. by rewrite chains_app, Hq1, app_nil_r.
Qed.

Lemma chains_chain (components : list image_component) (rest : list effect) :
  chains (SendChain components :: rest) = components :: chains rest.
Proof. done. Qed.

Lemma chains_plain (text : string) (rest : list effect) :
  chains (SendPlain text :: rest) = chains rest.
Proof. done. Qed.

Lemma chains_except (w : World) (a : action) :
  chains (async_edit_except w a).1 = chains a.1.
Proof.
  destruct a as [done_ [?|e]]; cbn [async_edit_except]; [done|].
  destruct (send_plain w _); cbn [fst]; by rewrite chains_app, app_nil_r.
Qed.

(** A status message of the verbose mode: not sent, or sent without fault. *)
Lemma verbose_plain (cfg : Config) (w : World) :
  status_message_mode cfg ≠ "verbose" ∨ (∀ text, send_plain w text = Ok tt) →
  ∀ text,
    when (bool_decide (status_message_mode cfg = "verbose")) (plain w text) = skip
    ∨ when (bool_decide (status_message_mode cfg = "verbose")) (plain w text)
      = ([SendPlain text], Ok tt).
Proof.
  intros Hsend text. unfold when, plain. case_bool_decide; [|by left].
  destruct Hsend as [?|Hsend]; [done|]. right. by rewrite Hsend.
Qed.

(** C8.  For the remote URLs [U] and local paths [P] of an edit result, the
    components built are the first [max_images_per_response] entries of [U]
    followed by [P] (each path as prepared for delivery), so their number is
    the minimum of the maximum and [|U| + |P|] (none for a maximum below
    one); when [U] fits, all of [U] comes first, in order, followed by a
    prefix of [P]; when it does not, only a prefix of [U] is taken; no local
    path stands before a remote URL; and these components, when there are
    any, are the one chain the asynchronous body sends. *)
Theorem delivered_components_capped (cfg : Config) (w : World)
    (image_urls image_paths : list string) :
  let max := Z.to_nat (max_images_per_response cfg) in
  let components := build_components cfg w image_urls image_paths in
  let files :=
    (λ image_path, FromFileSystem (_prepare_image_path cfg w image_path)) <$> image_paths in
  components = take max ((FromURL <$> image_urls) ++ files)
  ∧ length components
    = Z.to_nat (Z.min (max_images_per_response cfg)
                      (Z.of_nat (length image_urls + length image_paths)))
  ∧ (length image_urls ≤ max →
     components = (FromURL <$> image_urls) ++ take (max - length image_urls) files)
  ∧ (max ≤ length image_urls → components = take max (FromURL <$> image_urls))
  ∧ (∀ i j path url,
       components !! i = Some (FromFileSystem path) →
       components !! j = Some (FromURL url) → j < i)
  ∧ (∀ event prompt prefetched_images prefetched_error st task_id,
       (_generate_image_edit_core cfg w event prompt prefetched_images prefetched_error).1
       = (image_urls, image_paths, None) →
       image_urls ≠ [] ∨ image_paths ≠ [] →
       status_message_mode cfg ≠ "verbose" ∨ (∀ text, send_plain w text = Ok tt) →
       chains (_async_edit_image cfg w st event prompt task_id
                                 prefetched_images prefetched_error).1.2
       = match components with [] => [] | _ => [components] end).
Proof.
  intros max components files.
  assert (components = take max ((FromURL <$> image_urls) ++ files)) as Htake
    by apply build_components_take.
  split; [done|]. split; [|split; [|split; [|split]]].
  - subst max files. rewrite Htake, length_take, length_app, !length_fmap. lia.
  - intros Hfits. rewrite Htake, take_app, length_fmap. f_equal.
    apply take_ge. by rewrite length_fmap.
  - intros Hover. rewrite Htake, take_app_le; [done|]. by rewrite length_fmap.
  - intros i j path url. rewrite Htake.
    intros [Hi _]%lookup_take_Some [Hj _]%lookup_take_Some.
    apply lookup_app_Some in Hi as [Hi|[Hlen Hi]].
    { apply list_lookup_fmap_Some in Hi as (? & ? & ?). done. }
    apply lookup_app_Some in Hj as [Hj|[_ Hj]].
    + apply lookup_lt_Some in Hj. lia.
    + subst files. apply list_lookup_fmap_Some in Hj as (? & ? & ?). done.
  - intros event prompt imgs perr st tid Hcore Hsome Hsend.
    unfold _async_edit_image.
    destruct (async_edit_except w _) as [done_ escaped] eqn:Hexcept. cbn [fst snd].
    replace done_ with (async_edit_except w
      (async_edit_try cfg w event prompt imgs perr)).1 by (by rewrite Hexcept).
    rewrite chains_except. unfold async_edit_try. rewrite Hcore. cbn [py_truthy].
    fold components.
    pose proof (verbose_plain cfg w Hsend) as Hplain.
    assert (chains (and_then (when (negb (bool_decide (components = [])))
                                   (deliver cfg w components))
                             (foldl (λ a p, and_then a (_cleanup_image_file cfg p))
                                    skip image_paths)).1
            = match components with [] => [] | _ => [components] end) as Hdeliver.
    { destruct (cleanup_no_chain cfg image_paths skip eq_refl) as [Hc1 Hc2].
      destruct (foldl _ skip image_paths) as [cdone cres]. cbn [fst snd] in Hc1, Hc2.
      subst cres. destruct components as [|c cs] eqn:Hcomps.
      - by rewrite bool_decide_eq_true_2.
      - rewrite bool_decide_eq_false_2 by done. cbn [negb when]. unfold deliver.
        destruct (send_chain w (c :: cs));
          [destruct (Hplain "✅ 图片发送成功！") as [-> | ->]
          |destruct (Hplain ("⚠️ 图片发送超时，但可能仍在传输中。" +:+ String "010"
                             "如果稍后收到图片，说明发送成功。")) as [-> | ->]
          |];
          cbn [and_then skip fst snd app];
          rewrite ?chains_chain, ?chains_plain, ?chains_chain, ?Hc1; done. }
    assert (chains
              (and_then
                 (when (bool_decide (status_message_mode cfg = "verbose"))
                       (plain w "🖼️ 正在发送编辑后的图片，请稍候..."))
                 (and_then (when (negb (bool_decide (components = [])))
                                 (deliver cfg w components))
                           (foldl (λ a p, and_then a (_cleanup_image_file cfg p))
                                  skip image_paths))).1
            = match components with [] => [] | _ => [components] end) as Hall.
    { rewrite <- Hdeliver.
      destruct (Hplain "🖼️ 正在发送编辑后的图片，请稍候...") as [-> | ->];
        by destruct (and_then (when _ _) _). }
    destruct image_urls as [|u us], image_paths as [|p ps]; try done.
Qed.

(** Five remote results and one local file under the default maximum of
    four: the first four URLs go out, the file does not. *)
Lemma delivered_components_capped_witness :
  build_components default_config (world_of (λ _, TimeoutException))
    ["https://x/1.png"; "https://x/2.png"; "https://x/3.png"; "https://x/4.png";
     "https://x/5.png"] ["/data/images/grok_image_1.png"]
  = [FromURL "https://x/1.png"; FromURL "https://x/2.png"; FromURL "https://x/3.png";
     FromURL "https://x/4.png"].
Proof.
  exact (proj1 (delivered_components_capped default_config (world_of (λ _, TimeoutException))
                  ["https://x/1.png"; "https://x/2.png"; "https://x/3.png";
                   "https://x/4.png"; "https://x/5.png"]
                  ["/data/images/grok_image_1.png"])).
Defined.

(** ** The image sent upstream *)

(** The resolver reports no error along with images. *)
Lemma fetch_first_images (w : World) (reply_ids : list string) : ∀ last_error,
  (fetch_first w reply_ids last_error).1 ≠ [] →
  (fetch_first w reply_ids last_error).2 = None.
Proof.
  induction reply_ids as [|reply_id rest IH]; intros last_error; cbn; [done|].
  destruct (_fetch_images_from_reply w reply_id) as [[|x fetched] error]; [apply IH|done].
Qed.

Lemma extracted_images_no_error (w : World) (event : Event) :
  (_extract_images_from_message w event).1 ≠ [] →
  (_extract_images_from_message w event).2 = None.
Proof.
  unfold _extract_images_from_message.
  destruct (foldl scan_component ([], []) (message event)) as [[|x images] [|r reply_ids]];
    try done.
  apply fetch_first_images.
Qed.


(** ** One pending task per user *)

Lemma gate_keeps_tasks (cfg : Config) (st : State) (event : Event) (now : Z) :
  _processing_tasks (_check_group_access cfg st event now).1 = _processing_tasks st.
Proof.
  unfold _check_group_access, _check_group_access_try, rate_limit_locked.
  case_bool_decide; [done|].
  destruct (group_control_denial cfg _); [done|].
  destruct (rate_limit_enabled cfg); [|done].
  destruct (py_ge "float" _ _) as [[]|]; cbn; try done;
    destruct (py_ge "int" _ _) as [[]|]; done.
Qed.

Lemma command_gate (cfg : Config) (st : State) (event : Event) (now : Z) :
  cmd_edit_image_gate cfg st event now
  = ((_check_group_access cfg st event now).1,
     if py_truthy (_check_group_access cfg st event now).2
     then (_check_group_access cfg st event now).2
     else if bool_decide (is_Some (_processing_tasks st !! get_sender_id event))
          then Some msg_busy else None).
Proof.
  unfold cmd_edit_image_gate. pose proof (gate_keeps_tasks cfg st event now) as Htasks.
  destruct (_check_group_access cfg st event now) as [st1 access_error].
  cbn [fst snd] in *. rewrite Htasks.
  destruct (py_truthy access_error); [done|]. by destruct (bool_decide _).
Qed.

(** While the user's token is there, a command starts nothing and leaves
    every token as it is. *)
Lemma command_while_pending (cfg : Config) (w : World) (st : State) (event : Event)
    (prompt : string) (now : Z) (new_id token : string) :
  _processing_tasks st !! get_sender_id event = Some token →
  ∃ st' reply,
    cmd_edit_image cfg w st event prompt now new_id = (st', [reply], None)
    ∧ _processing_tasks st' = _processing_tasks st
    ∧ (py_truthy (_check_group_access cfg st event now).2 = false → reply = msg_busy).
Proof.
  intros Htoken. unfold cmd_edit_image. rewrite command_gate, Htoken.
  rewrite bool_decide_eq_true_2 by done.
  destruct (py_truthy (_check_group_access cfg st event now).2) eqn:Haccess.
  - destruct (_check_group_access cfg st event now).2 as [reply|] eqn:E; [|done].
    exists (_check_group_access cfg st event now).1, reply.
    split; [done|]. split; [apply gate_keeps_tasks|done].
  - exists (_check_group_access cfg st event now).1, msg_busy.
    split; [done|]. split; [apply gate_keeps_tasks|done].
Qed.

(** A command creates a task only when the user had no token, and then
    records the token of that task. *)
Lemma command_accepted (cfg : Config) (w : World) (st : State) (event : Event)
    (prompt : string) (now : Z) (new_id : string) (task : Task) :
  (cmd_edit_image cfg w st event prompt now new_id).2 = Some task →
  _processing_tasks st !! get_sender_id event = None
  ∧ task_id task = new_id ∧ task_event task = event
  ∧ task_images task = (_extract_images_from_message w event).1
  ∧ task_images task ≠ []
  ∧ _processing_tasks (cmd_edit_image cfg w st event prompt now new_id).1.1
    = <[get_sender_id event := new_id]> (_processing_tasks st).
Proof.
  unfold cmd_edit_image, cmd_edit_image_gate.
  pose proof (gate_keeps_tasks cfg st event now) as Htasks.
  destruct (_check_group_access cfg st event now) as [st1 access_error].
  cbn [fst snd] in Htasks. rewrite Htasks.
  destruct (py_truthy access_error) eqn:Haccess.
  { by destruct access_error. }
  case_bool_decide as Htoken; [done|].
  apply eq_None_not_Some in Htoken.
  unfold cmd_edit_image_start.
  destruct (_extract_images_from_message w event) as [images err].
  destruct (py_truthy err); [done|]. destruct images as [|image images]; [done|].
  cbn. intros [= <-]. cbn. by rewrite Htasks.
Qed.

(** With no token, access granted and an image in the message, the command
    is accepted. *)
Lemma command_when_idle (cfg : Config) (w : World) (st : State) (event : Event)
    (prompt : string) (now : Z) (new_id : string) :
  _processing_tasks st !! get_sender_id event = None →
  py_truthy (_check_group_access cfg st event now).2 = false →
  (_extract_images_from_message w event).1 ≠ [] →
  ∃ task, (cmd_edit_image cfg w st event prompt now new_id).2 = Some task.
Proof.
  intros Htoken Haccess Himages. unfold cmd_edit_image.
  rewrite command_gate, Haccess, Htoken.
  rewrite bool_decide_eq_false_2 by (by intros [? ?]).
  pose proof (extracted_images_no_error w event Himages) as Herr.
  unfold cmd_edit_image_start.
  destruct (_extract_images_from_message w event) as [[|image images] err]; [done|].
  cbn in Herr. subst err. cbn. eauto.
Qed.

(** Whatever happens in the body, its [finally] clause leaves the user
    without the token of the task, and touches no other user. *)
Lemma body_clears_token (cfg : Config) (w : World) (st : State) (event : Event)
    (prompt task_id : string) (prefetched_images : option (list string))
    (prefetched_error : option string) :
  let st' := (_async_edit_image cfg w st event prompt task_id
                                prefetched_images prefetched_error).1.1 in
  _processing_tasks st' !! get_sender_id event ≠ Some task_id
  ∧ (_processing_tasks st !! get_sender_id event = Some task_id →
     _processing_tasks st' !! get_sender_id event = None)
  ∧ (∀ user, user ≠ get_sender_id event →
             _processing_tasks st' !! user = _processing_tasks st !! user).
Proof.
  unfold _async_edit_image. destruct (async_edit_except w _) as [done_ escaped].
  cbn [fst snd]. unfold async_edit_finally. case_bool_decide as Htoken; cbn.
  - rewrite lookup_delete_eq. split; [done|]. split; [done|].
    intros user Hne. by rewrite lookup_delete_ne.
  - done.
Qed.

Lemma command_rejected_keeps_tasks (cfg : Config) (w : World) (st : State) (event : Event)
    (prompt : string) (now : Z) (new_id : string) :
  (cmd_edit_image cfg w st event prompt now new_id).2 = None →
  _processing_tasks (cmd_edit_image cfg w st event prompt now new_id).1.1
  = _processing_tasks st.
Proof.
  unfold cmd_edit_image, cmd_edit_image_gate.
  pose proof (gate_keeps_tasks cfg st event now) as Htasks.
  destruct (_check_group_access cfg st event now) as [st1 access_error].
  cbn [fst snd] in Htasks.
  destruct (py_truthy access_error) eqn:Haccess;
    [destruct access_error; [done|discriminate]|].
  destruct (bool_decide _); [done|].
  unfold cmd_edit_image_start.
  destruct (_extract_images_from_message w event) as [images err].
  destruct (py_truthy err); [done|]. by destruct images.
Qed.

(** Handled one at a time, commands and tasks keep the tokens in step with
    the running tasks. *)
Lemma serial_step_tokens_match (cfg : Config) (w : World) (s s' : State * list Task) :
  serial_step cfg w s s' → tokens_match s → tokens_match s'.
Proof.
  intros Hstep [Hnodup Htokens]. destruct Hstep as [st running event prompt now new_id
                                                   |st running1 running2 task];
    cbn [fst snd] in *.
  - destruct (cmd_edit_image cfg w st event prompt now new_id).2 as [task|] eqn:Htask.
    + destruct (command_accepted cfg w st event prompt now new_id task Htask)
        as (Hnone & Hid & Hevent & _ & _ & Htasks).
      cbn [option_list]. split; cbn [fst snd].
      * rewrite fmap_app. cbn. apply NoDup_app. split; [done|]. split.
        -- intros user Hin1 Hin2%list_elem_of_singleton.
           apply list_elem_of_fmap in Hin1 as (t & Hu & Ht).
           assert (_processing_tasks st !! get_sender_id event = Some (task_id t))
             as Hsome; [|congruence].
           apply Htokens. exists t. unfold task_user in *. by rewrite Hevent in Hin2; subst.
        -- apply NoDup_singleton.
      * intros user token. rewrite Htasks.
        destruct (decide (user = get_sender_id event)) as [->|Hne].
        -- rewrite lookup_insert_eq. split.
           ++ intros [= <-]. exists task. unfold task_user. rewrite Hevent.
              split; [set_solver|done].
           ++ intros (t & [Hin|Hin%list_elem_of_singleton]%elem_of_app & Hu & <-).
              ** assert (_processing_tasks st !! get_sender_id event = Some (task_id t))
                   as Hsome; [|congruence].
                 apply Htokens. by exists t.
              ** by subst t; rewrite Hid.
        -- rewrite lookup_insert_ne by done. rewrite Htokens. split.
           ++ intros (t & ? & ? & ?). exists t. split; [set_solver|done].
           ++ intros (t & [Hin|Hin%list_elem_of_singleton]%elem_of_app & Hu & <-).
              ** by exists t.
              ** subst t. unfold task_user in Hu. by rewrite Hevent in Hu.
    + cbn [option_list]. rewrite app_nil_r. split; [done|]. cbn [fst snd].
      by rewrite (command_rejected_keeps_tasks cfg w st event prompt now new_id Htask).
  - rewrite fmap_app, fmap_cons in Hnodup.
    apply NoDup_app in Hnodup as (Hn1 & Hdisj & Hn2).
    apply NoDup_cons in Hn2 as [Hnot2 Hn2].
    assert (task_user task ∉ task_user <$> running1) as Hnot1.
    { intros Hin. apply (Hdisj _ Hin). apply list_elem_of_here. }
    assert (_processing_tasks st !! task_user task = Some (task_id task)) as Htoken.
    { apply Htokens. exists task. split; [set_solver|done]. }
    destruct (body_clears_token cfg w st (task_event task) (task_prompt task)
                (task_id task) (Some (task_images task)) None) as (_ & Hgone & Hother).
    fold (run_task cfg w st task) in Hgone, Hother. specialize (Hgone Htoken).
    split; cbn [fst snd].
    + rewrite fmap_app. apply NoDup_app. split; [done|]. split; [|done].
      intros user Hin1 Hin2. apply (Hdisj _ Hin1). by apply list_elem_of_further.
    + intros user token. destruct (decide (user = task_user task)) as [->|Hne].
      * unfold task_user at 1. rewrite Hgone. split; [done|].
        intros (t & [Hin|Hin]%elem_of_app & Hu & _); exfalso.
        -- apply Hnot1. apply list_elem_of_fmap. by exists t.
        -- apply Hnot2. apply list_elem_of_fmap. by exists t.
      * rewrite (Hother user Hne), Htokens. split.
        -- intros (t & [Hin|[->|Hin]%elem_of_cons]%elem_of_app & Hu & Hid);
             [exists t; split; [set_solver|done] |done|exists t; split; [set_solver|done]].
        -- intros (t & Hin & Hu & Hid). exists t. split; [set_solver|done].
Qed.

Lemma serial_run_tokens_match (cfg : Config) (w : World) (s : State * list Task) :
  rtc (serial_step cfg w) (init_state, []) s → tokens_match s.
Proof.
  intros Hrun. assert (tokens_match (init_state, [])) as Hinit.
  { split; [constructor|]. intros user token. cbn. rewrite lookup_empty. split; [done|].
    by intros (t & ?%elem_of_nil & _). }
  revert Hinit. induction Hrun as [|s1 s2 s3 Hstep _ IH]; [done|].
  intros H1. apply IH. by eapply serial_step_tokens_match.
Qed.

(** The three ways out of the asynchronous body, on samples: the result is
    delivered; the client's error is reported; delivery raises, the report
    of that raises too and the exception escapes.  The token is gone each
    time. *)
Example body_exit_paths :
  let run (w : World) :=
    _async_edit_image two_per_minute w u1_pending two_images "add sunglasses" "t1"
                      (Some ["data:image/jpeg;base64,AAAA"]) None in
  run flaky_server = (init_state, [SendChain [FromURL "https://x/a.png"]], None)
  ∧ run forbidden_server
    = (init_state, [SendPlain "❌ API访问被拒绝，请检查密钥和权限"], None)
  ∧ run broken_chat
    = (init_state,
       [SendChain [FromURL "https://x/a.png"];
        SendPlain "❌ 图片编辑时遇到问题: connection closed"],
       Some "connection closed").
Proof. cbn zeta. repeat split; by vm_compute. Qed.

(** The busy test and the recording of the token are separated by the wait
    for the images: two commands of one user that both pass the gate before
    either of them starts are both accepted, and the token that stays is the
    one of the command that started last. *)
Lemma overlapping_commands_both_start (cfg : Config) (st : State) (event : Event)
    (prompt : string) (now1 now2 : Z) (id1 id2 : string)
    (images : list string) :
  _processing_tasks st !! get_sender_id event = None →
  py_truthy (_check_group_access cfg st event now1).2 = false →
  py_truthy (_check_group_access cfg (_check_group_access cfg st event now1).1
                                 event now2).2 = false →
  images ≠ [] →
  let '(st1, reply1) := cmd_edit_image_gate cfg st event now1 in
  let '(st2, reply2) := cmd_edit_image_gate cfg st1 event now2 in
  let '(st3, _, task1) := cmd_edit_image_start cfg st2 event prompt (images, None) id1 in
  let '(st4, _, task2) := cmd_edit_image_start cfg st3 event prompt (images, None) id2 in
  reply1 = None ∧ reply2 = None
  ∧ task_id <$> task1 = Some id1 ∧ task_id <$> task2 = Some id2
  ∧ _processing_tasks st4 !! get_sender_id event = Some id2.
Proof.
  intros Hnone Hacc1 Hacc2 Himages.
  rewrite !command_gate, Hacc1, Hacc2, gate_keeps_tasks, Hnone.
  rewrite bool_decide_eq_false_2 by (by intros [? ?]).
  destruct images as [|image images]; [done|]. cbn.
  by rewrite lookup_insert_eq.
Qed.

(** * Further properties *)

(** ** The access gate *)

(** X1.  A check that denies stores nothing: every bucket and every token
    is as before, and the denial is the white-list text, the black-list text
    or the rate-limit text built from the configured limit and window. *)
Theorem denied_check_stores_nothing (cfg : Config) (st : State) (event : Event)
    (now : Z) (denial : string) :
  (_check_group_access cfg st event now).2 = Some denial →
  _rate_limit_bucket (_check_group_access cfg st event now).1 = _rate_limit_bucket st
  ∧ _processing_tasks (_check_group_access cfg st event now).1 = _processing_tasks st
  ∧ (denial = msg_not_authorized ∨ denial = msg_restricted
     ∨ denial = msg_rate_limited (rate_limit_max_calls cfg)
                                 (rate_limit_window_seconds cfg)).
Proof.
  unfold _check_group_access, _check_group_access_try, rate_limit_locked,
    group_control_denial.
  case_bool_decide; [done|].
  destruct (bool_decide (group_control_mode cfg = "whitelist") && _).
  { cbn. intros [= <-]. auto. }
  destruct (bool_decide (group_control_mode cfg = "blacklist") && _).
  { cbn. intros [= <-]. auto. }
  destruct (rate_limit_enabled cfg); [|done].
  destruct (py_ge "float" _ _) as [[]|]; cbn; try done;
    destruct (py_ge "int" _ _) as [[]|]; cbn; try done; intros [= <-]; auto.
Qed.

Lemma denied_check_stores_nothing_witness :
  let cfg := settings "whitelist" ["g2"] true (CInt 60) (CInt 2) "minimal" 4 false in
  let st := set_bucket "g2" {| window_start := 5; count := 1 |} init_state in
  _rate_limit_bucket (_check_group_access cfg st group_event 7).1 = _rate_limit_bucket st
  ∧ _processing_tasks (_check_group_access cfg st group_event 7).1 = _processing_tasks st
  ∧ (msg_not_authorized = msg_not_authorized ∨ msg_not_authorized = msg_restricted
     ∨ msg_not_authorized = msg_rate_limited (CInt 2) (CInt 60)).
Proof.
  exact (denied_check_stores_nothing
           (settings "whitelist" ["g2"] true (CInt 60) (CInt 2) "minimal" 4 false)
           (set_bucket "g2" {| window_start := 5; count := 1 |} init_state)
           group_event 7 msg_not_authorized eq_refl).
Defined.

(** X2.  A check reads and writes no bucket but that of the event's own
    group: the bucket of any other group is left as it is, and the answer
    and the new bucket are the same in any two states that agree on the
    group's bucket.  An event without a group is allowed and changes
    nothing at all. *)
Theorem check_touches_own_group_only (cfg : Config) (event : Event) (now : Z) :
  (∀ st g, g ≠ group_of event →
     _rate_limit_bucket (_check_group_access cfg st event now).1 !! g
     = _rate_limit_bucket st !! g)
  ∧ (∀ st1 st2,
       _rate_limit_bucket st1 !! group_of event = _rate_limit_bucket st2 !! group_of event →
       (_check_group_access cfg st1 event now).2 = (_check_group_access cfg st2 event now).2
       ∧ _rate_limit_bucket (_check_group_access cfg st1 event now).1 !! group_of event
         = _rate_limit_bucket (_check_group_access cfg st2 event now).1 !! group_of event)
  ∧ (group_of event = "" → ∀ st, _check_group_access cfg st event now = (st, None)).
Proof.
  unfold group_of. split; [|split].
  - intros st g Hg.
    unfold _check_group_access, _check_group_access_try, rate_limit_locked.
    case_bool_decide; [done|].
    destruct (group_control_denial cfg _); [done|].
    destruct (rate_limit_enabled cfg); [|done].
    destruct (py_ge "float" _ _) as [[]|]; cbn; try done;
      destruct (py_ge "int" _ _) as [[]|]; cbn; try done;
      by rewrite lookup_insert_ne.
  - intros st1 st2 Hsame.
    unfold _check_group_access, _check_group_access_try, rate_limit_locked.
    case_bool_decide; [done|].
    destruct (group_control_denial cfg _); [done|].
    destruct (rate_limit_enabled cfg); [|done].
    cbn [add_lock _rate_limit_bucket]. rewrite Hsame.
    destruct (py_ge "float" _ _) as [[]|]; cbn; try done;
      destruct (py_ge "int" _ _) as [[]|]; cbn; try done;
      by rewrite !lookup_insert_eq.
  - intros Hnone st. unfold _check_group_access, _check_group_access_try.
    by rewrite bool_decide_eq_true_2.
Qed.

Lemma check_touches_own_group_only_witness :
  _check_group_access default_config u1_pending
    {| get_group_id := Raised "no group"; get_sender_id := "u1"; message := [] |} 0
  = (u1_pending, None).
Proof.
  exact (proj2 (proj2 (check_touches_own_group_only default_config
           {| get_group_id := Raised "no group"; get_sender_id := "u1"; message := [] |} 0))
           eq_refl u1_pending).
Defined.

Lemma check_calls_app (cfg : Config) (event : Event) (l1 l2 : list Z) : ∀ st,
  check_calls cfg st event (l1 ++ l2)
  = ((check_calls cfg (check_calls cfg st event l1).1 event l2).1,
     (check_calls cfg st event l1).2
     ++ (check_calls cfg (check_calls cfg st event l1).1 event l2).2).
Proof.
  induction l1 as [|t l1 IH]; intros st; cbn [check_calls app].
  - cbn [fst snd app]. by destruct (check_calls cfg st event l2).
  - destruct (_check_group_access cfg st event t) as [st1 r]. rewrite IH.
    destruct (check_calls cfg st1 event l1) as [st2 rs]. cbn [fst snd].
    by destruct (check_calls cfg st2 event l2).
Qed.

(** X3.  The window is fixed at the first call that opens it; it does not
    slide.  With a limit of [M >= 1] calls per window of [W >= 1] seconds, a
    group that is let through once at [t0] is let through [M - 1] more times
    at [t0 + W - 1] and again [M] times at [t0 + W]: the last [2 M - 1]
    calls are all allowed although they lie one second apart. *)
Theorem window_is_fixed_not_sliding (cfg : Config) (event : Event) (g : string)
    (W : Z) (M : nat) (st : State) (t0 : Z) :
  rate_limit_enabled cfg = true →
  rate_limit_window_seconds cfg = CInt W →
  rate_limit_max_calls cfg = CInt (Z.of_nat M) →
  get_group_id event = Ok g →
  g ≠ "" →
  group_control_denial cfg g = None →
  fresh_at g W st t0 →
  (1 ≤ W)%Z →
  1 ≤ M →
  (check_calls cfg st event
     ((t0 :: replicate (M - 1) (t0 + W - 1)%Z) ++ replicate M (t0 + W)%Z)).2
  = replicate (M + M) None.
Proof.
  intros Hon HW HM Hg Hne Hctl Hfresh HW1 HM1.
  pose proof (check_calls_fresh_window cfg event g W M Hon HW HM Hg Hne Hctl) as Hwin.
  rewrite check_calls_app. cbn [snd].
  destruct (Hwin st t0 (replicate (M - 1) (t0 + W - 1)%Z) Hfresh) as [Hr1 Hb1].
  { apply Forall_cons. split; [lia|]. apply Forall_replicate. lia. }
  rewrite length_replicate in Hr1, Hb1.
  replace (S (M - 1) `min` M) with M in Hr1, Hb1 by lia.
  replace (S (M - 1) - M) with 0 in Hr1 by lia.
  cbn [replicate] in Hr1. rewrite app_nil_r in Hr1. rewrite Hr1.
  specialize (Hb1 ltac:(lia)).
  set (st1 := (check_calls cfg st event (t0 :: replicate (M - 1) (t0 + W - 1)%Z)).1) in *.
  replace (replicate M (t0 + W)%Z) with ((t0 + W)%Z :: replicate (M - 1) (t0 + W)%Z)
    by (destruct M; [lia|]; cbn; do 2 f_equal; lia).
  destruct (Hwin st1 (t0 + W)%Z (replicate (M - 1) (t0 + W)%Z)) as [Hr2 _].
  { intros b. rewrite Hb1. intros [= <-]. cbn. lia. }
  { apply Forall_cons. split; [lia|]. apply Forall_replicate. lia. }
  rewrite Hr2, length_replicate.
  replace (S (M - 1) `min` M) with M by lia.
  replace (S (M - 1) - M) with 0 by lia.
  cbn [replicate]. by rewrite app_nil_r, replicate_add.
Qed.

Lemma window_is_fixed_not_sliding_witness :
  (check_calls two_per_minute init_state group_event [0; 59; 60; 60]%Z).2
  = [None; None; None; None].
Proof.
  refine (window_is_fixed_not_sliding two_per_minute group_event "g1" 60 2 init_state 0
            eq_refl eq_refl eq_refl eq_refl _ eq_refl _ _ _); try lia.
  - discriminate.
  - intros b Hb. unfold init_state in Hb. cbn [_rate_limit_bucket] in Hb.
    rewrite lookup_empty in Hb. discriminate.
Defined.

(** X4.  A command is counted by the rate limiter before anything else is
    looked at: when the check lets it through with [c] calls counted in the
    window, the group's bucket holds [c + 1] afterwards whether the command
    is then accepted, answered with the busy notice or turned down for lack
    of an image. *)
Theorem every_admitted_command_is_counted (cfg : Config) (w : World) (st : State)
    (event : Event) (prompt : string) (now : Z) (new_id : string) (g : string)
    (W : Z) (M : nat) :
  rate_limit_enabled cfg = true →
  rate_limit_window_seconds cfg = CInt W →
  rate_limit_max_calls cfg = CInt (Z.of_nat M) →
  get_group_id event = Ok g →
  g ≠ "" →
  group_control_denial cfg g = None →
  ((effective g W st now).2 < Z.of_nat M)%Z →
  _rate_limit_bucket (cmd_edit_image cfg w st event prompt now new_id).1.1 !! g
  = Some {| window_start := (effective g W st now).1;
            count := (effective g W st now).2 + 1 |}.
Proof.
  intros Hon HW HM Hg Hne Hctl Hroom.
  pose proof (check_effective cfg event g W M Hon HW HM Hg Hne Hctl st now) as Hcheck.
  rewrite bool_decide_eq_false_2 in Hcheck by lia.
  unfold cmd_edit_image, cmd_edit_image_gate. rewrite Hcheck. cbn [py_truthy].
  assert (∀ r : State * list string * option Task,
            _rate_limit_bucket r.1.1 = _rate_limit_bucket
              (set_bucket g {| window_start := (effective g W st now).1;
                               count := (effective g W st now).2 + 1 |} (add_lock g st)) →
            _rate_limit_bucket r.1.1 !! g
            = Some {| window_start := (effective g W st now).1;
                      count := (effective g W st now).2 + 1 |}) as Hdone.
  { intros r ->. cbn. by rewrite lookup_insert_eq. }
  destruct (bool_decide (is_Some _)); [by apply Hdone|].
  apply Hdone. unfold cmd_edit_image_start.
  destruct (_extract_images_from_message w event) as [images err].
  destruct (py_truthy err); [done|]. by destruct images.
Qed.

(** User [u1], with a task pending, sends the command in a group that has
    had no call yet: the answer is the busy notice and the call is counted. *)
Lemma every_admitted_command_is_counted_witness :
  _rate_limit_bucket
    (cmd_edit_image two_per_minute flaky_server u1_pending two_images "add sunglasses"
                    100 "t2").1.1 !! "g1"
  = Some {| window_start := 100; count := 1 |}.
Proof.
  refine (every_admitted_command_is_counted two_per_minute flaky_server u1_pending
            two_images "add sunglasses" 100 "t2" "g1" 60 2
            eq_refl eq_refl eq_refl eq_refl _ eq_refl _).
  - discriminate.
  - by vm_compute.
Defined.

(** ** Patterns and validation *)

(** The matcher finds a match whenever the pattern denotes one: backtracking
    explores every way the pattern can match. *)
Lemma rmatch_complete {A : Type} (ic : bool) (r : regex) :
  ∀ (s s' : string) (cap : option string) (k : string → option string → option A),
    matches ic r s s' → (∀ cap', is_Some (k s' cap')) → is_Some (rmatch ic r s cap k).
Proof.
  induction r as [|c|p|p|r1 IH1 r2 IH2|r1 IH1 r2 IH2|r1 IH1|]; intros s s' cap k; cbn.
  - intros -> Hk. apply Hk.
  - intros (c' & -> & ->) Hk. apply Hk.
  - intros (c' & -> & ->) Hk. apply Hk.
  - intros (w & -> & Hw) Hk. induction w as [|c w IHw].
    + change ("" +:+ s') with s'. destruct s' as [|c' t]; [apply Hk|].
      destruct (p c'); [|apply Hk].
      match goal with |- is_Some (match ?star with _ => _ end) => destruct star end;
        [done|apply Hk].
    + change (String c w +:+ s') with (String c (w +:+ s')).
      destruct Hw as [-> Hw]. destruct (IHw Hw) as [a ->]. done.
  - intros (m & H1 & H2) Hk. eapply IH1; [exact H1|]. intros cap1. by eapply IH2.
  - intros [H|H] Hk.
    + destruct (IH1 s s' cap k H Hk) as [a ->]. done.
    + destruct (rmatch ic r1 s cap k); [done|]. by eapply IH2.
  - intros H Hk. eapply IH1; [exact H|]. intros _. apply Hk.
  - intros [-> [->| ->]] Hk; apply Hk.
Qed.

(** [re.search] succeeds wherever the pattern matches some suffix. *)
Lemma re_search_complete (ic : bool) (r : regex) (before from rest : string) :
  matches ic r from rest → re_search ic r (before +:+ from) = true.
Proof.
  intros Hm.
  assert (is_Some (match_here ic r from)) as [x Hx].
  { unfold match_here. by eapply rmatch_complete. }
  induction before as [|c before IH].
  - change ("" +:+ from) with from. destruct from; cbn; by rewrite Hx.
  - change (String c before +:+ from) with (String c (before +:+ from)).
    cbn. by destruct (match_here ic r (String c (before +:+ from))).
Qed.

Lemma matches_Lit_lower (x e s' : string) :
  str_lower e = str_lower x → matches true (Lit x) (e +:+ s') s'.
Proof.
  revert e. induction x as [|c x IH]; intros [|c' e]; cbn; try done.
  intros [= Hc He]. exists (e +:+ s'). split; [|by apply IH].
  exists c'. split; [done|]. unfold chr_eq. by apply Ascii.eqb_eq.
Qed.

Lemma matches_Alts_elem (ic : bool) (rs : list regex) (r : regex) (s s' : string) :
  r ∈ rs → matches ic r s s' → matches ic (Alts rs) s s'.
Proof.
  intros Hin Hm. induction rs as [|r0 [|r1 rs] IH].
  - by apply elem_of_nil in Hin.
  - by apply list_elem_of_singleton in Hin as <-.
  - apply elem_of_cons in Hin as [<-|Hin]; [by left|]. right. by apply IH.
Qed.

Lemma image_extensions_lower (x : string) : x ∈ image_extensions → str_lower x = x.
Proof.
  unfold image_extensions. rewrite !elem_of_cons, elem_of_nil.
  intros [->|[->|[->|[->|[->|[]]]]]]; reflexivity.
Qed.

Lemma prefix_app (p rest : string) : String.prefix p (p +:+ rest) = true.
Proof.
  induction p as [|c p IH]; [by destruct rest|].
  change (String c p +:+ rest) with (String c (p +:+ rest)). cbn.
  by destruct (ascii_dec c c).
Qed.

(** X5.  The conditions under which the validator accepts are sufficient as
    well as necessary: a URL that starts with [http://] or [https://], is at
    least ten characters long, holds none of the seven forbidden characters
    and, when an extension is required, ends in an image extension (in any
    letter case) followed by nothing or by [?], [&] or [#], is accepted. *)
Theorem valid_image_url_if (url : string) (require_extension : bool) :
  (∃ rest, url = "http://" +:+ rest ∨ url = "https://" +:+ rest) →
  10 ≤ String.length url →
  (∀ c, c ∈ ["<"; ">"; "034"; "039"; "010"; "013"; "009"]%char →
        c ∉ String.list_ascii_of_string url) →
  (require_extension = true → ends_with_image_extension url) →
  _is_valid_image_url url require_extension = true.
Proof.
  intros [rest Hscheme] Hlen Hclean Hext. unfold _is_valid_image_url.
  apply Nat.ltb_ge in Hlen. rewrite Hlen.
  assert (String.prefix "http://" url || String.prefix "https://" url = true) as ->.
  { apply orb_true_iff. destruct Hscheme as [-> | ->]; [left|right]; apply prefix_app. }
  cbn [negb].
  assert (require_extension && negb (re_search true extension_pattern url) = false) as ->.
  { destruct require_extension; [|done]. cbn [andb]. apply negb_false_iff.
    destruct (Hext eq_refl) as (stem & ext & tail & -> & Hlow & Htail).
    apply re_search_complete with (rest := match tail with String _ t => t | _ => "" end).
    cbn -[Alts image_extensions].
    exists (ext +:+ tail). split; [by exists "."%char|].
    exists tail. split.
    - apply matches_Alts_elem with (r := Lit (str_lower ext)).
      + apply list_elem_of_fmap. by exists (str_lower ext).
      + apply matches_Lit_lower. symmetry. by apply image_extensions_lower.
    - exists (match tail with String _ t => t | _ => "" end). split; [|done].
      destruct Htail as [->|(c & t & -> & Hc)]; [left; auto|right].
      exists c. split; [done|]. unfold is_one_of. cbn.
      revert Hc. rewrite !elem_of_cons, elem_of_nil.
      intros [->|[->|[->|[]]]]; reflexivity. }
  assert (existsb (λ ch, str_contains ch url) invalid_chars = false) as ->; [|done].
  apply not_true_is_false. intros (c & Hc & Hin)%existsb_exists.
  apply str_contains_elem_of in Hin. apply list_elem_of_In in Hc. by apply (Hclean c).
Qed.

Lemma valid_image_url_if_witness : _is_valid_image_url "https://x/a.PNG#top" true = true.
Proof.
  refine (valid_image_url_if "https://x/a.PNG#top" true _ _ _ _).
  - exists "x/a.PNG#top". by right.
  - cbn. lia.
  - intros c Hc Hin. revert Hc. cbn in Hin.
    rewrite !elem_of_cons, elem_of_nil in Hin. rewrite !elem_of_cons, elem_of_nil.
    intros [->|[->|[->|[->|[->|[->|[->|[]]]]]]]];
      repeat (destruct Hin as [Hin|Hin]; [discriminate Hin|]); done.
  - intros _. exists "https://x/a", "PNG", "#top". split; [done|]. split.
    + change (str_lower "PNG") with "png". unfold image_extensions.
      rewrite !elem_of_cons. tauto.
    + right. exists "#"%char, "top". split; [done|]. rewrite !elem_of_cons. tauto.
Defined.

(** ** Scanning a text *)

Lemma captured_within_trans (s m s' : string) (cap cap1 cap' : option string) :
  (∃ w1, s = w1 +:+ m) → (∃ w2, m = w2 +:+ s') →
  captured_within s m cap cap1 → captured_within m s' cap1 cap' →
  captured_within s s' cap cap'.
Proof.
  intros [w1 ->] [w2 ->] [->|(pre & w & post & Hs & ->)] [->|(pre' & w' & post' & Hm & ->)].
  - by left.
  - right. exists (w1 +:+ pre'), w', post'. split; [|done].
    by rewrite Hm, !str_app_assoc.
  - right. exists pre, w, (post +:+ w2). split; [|done].
    by rewrite Hs, !str_app_assoc.
  - right. exists (w1 +:+ pre'), w', post'. split; [|done].
    by rewrite Hm, !str_app_assoc.
Qed.

(** The group the matcher reports is a piece of the text it matched. *)
Lemma rmatch_captures {A : Type} (ic : bool) (r : regex) :
  ∀ (s : string) (cap : option string) (k : string → option string → option A) (a : A),
    rmatch ic r s cap k = Some a →
    ∃ s' cap', matches ic r s s' ∧ captured_within s s' cap cap' ∧ k s' cap' = Some a.
Proof.
  induction r as [|c|p|p|r1 IH1 r2 IH2|r1 IH1 r2 IH2|r1 IH1|]; intros s cap k a H; cbn in H.
  - exists s, cap. split; [done|]. split; [by left|done].
  - destruct s as [|c' s']; [done|]. destruct (chr_eq ic c c') eqn:E; [|done].
    exists s', cap. cbn. split; [eauto|]. split; [by left|done].
  - destruct s as [|c' s']; [done|]. destruct (p c') eqn:E; [|done].
    exists s', cap. cbn. split; [eauto|]. split; [by left|done].
  - revert H. induction s as [|c' s' IHs]; intros H.
    + exists "", cap. split; [by exists ""|]. split; [by left|done].
    + destruct (p c') eqn:E.
      * match type of H with match ?star with _ => _ end = _ =>
          destruct star as [a'|] eqn:Hstar end.
        -- injection H as ->.
           destruct (IHs eq_refl) as (s2 & cap' & (w & -> & Hw) & Hc & Hk).
           exists s2, cap'. split; [by exists (String c' w)|]. split; [|done].
           destruct Hc as [->|(pre & x & post & Hs & ->)]; [by left|right].
           exists (String c' pre), x, post. split; [|done].
           change (String c' (w +:+ s2) = String c' (pre +:+ x +:+ post +:+ s2)).
           by rewrite Hs.
        -- exists (String c' s'), cap. split; [by exists ""|]. split; [by left|done].
      * exists (String c' s'), cap. split; [by exists ""|]. split; [by left|done].
  - apply IH1 in H as (m & cap1 & Hm1 & Hc1 & H).
    apply IH2 in H as (s' & cap' & Hm2 & Hc2 & H).
    exists s', cap'. split; [by exists m|]. split; [|done].
    destruct (matches_split _ _ _ _ Hm1) as (w1 & Hw1 & _).
    destruct (matches_split _ _ _ _ Hm2) as (w2 & Hw2 & _).
    eapply captured_within_trans; eauto.
  - destruct (rmatch ic r1 s cap k) as [a'|] eqn:E.
    + injection H as ->. apply IH1 in E as (s' & cap' & Hm & Hc & Hk).
      exists s', cap'. cbn. eauto.
    + apply IH2 in H as (s' & cap' & Hm & Hc & Hk). exists s', cap'. cbn. eauto.
  - apply IH1 in H as (s' & cap' & Hm & _ & Hk).
    exists s', (Some (consumed s s')). split; [done|]. split; [|done].
    destruct (matches_split _ _ _ _ Hm) as (w & -> & _). right.
    exists "", w, "". rewrite consumed_app. split; [|done].
    change (w +:+ s' = w +:+ ("" +:+ s')). done.
  - destruct s as [|c [|]]; try done.
    + exists "", cap. cbn. split; [eauto|]. split; [by left|done].
    + destruct (Ascii.eqb c "010") eqn:E; [|done]. apply Ascii.eqb_eq in E as ->.
      exists (String "010" ""), cap. cbn. split; [eauto|]. split; [by left|done].
Qed.

(** Every entry of [re.findall] is the group of a match that starts
    somewhere in the subject. *)
Lemma findall_elem (ic : bool) (r : regex) (x : string) : ∀ (fuel : nat) (s : string),
  x ∈ findall_from fuel ic r s →
  ∃ before from rest cap,
    s = before +:+ from ∧ match_here ic r from = Some (rest, cap) ∧ x = default "" cap.
Proof.
  induction fuel as [|fuel IH]; intros s; cbn [findall_from].
  { by intros ?%elem_of_nil. }
  assert (∀ c t, x ∈ findall_from fuel ic r t →
                 ∃ before from rest cap, String c t = before +:+ from
                   ∧ match_here ic r from = Some (rest, cap) ∧ x = default "" cap) as Hnext.
  { intros c t (before & from & rest & cap & -> & Hm & ->)%IH.
    by exists (String c before), from, rest, cap. }
  destruct (match_here ic r s) as [[s' cap]|] eqn:E.
  - intros [->|Hin]%elem_of_cons; [by exists "", s, s', cap|].
    destruct (String.length s' <? String.length s).
    + apply rmatch_sound in E as (s2 & cap2 & Hm & [= <- <-]).
      destruct (matches_split _ _ _ _ Hm) as (w & -> & _).
      apply IH in Hin as (before & from & rest & cap' & -> & Hm' & ->).
      exists (w +:+ before), from, rest, cap'. by rewrite str_app_assoc.
    + destruct s as [|c t]; [by apply elem_of_nil in Hin|by apply Hnext].
  - destruct s as [|c t]; [by intros ?%elem_of_nil|by apply Hnext].
Qed.

Lemma findall_occurs (ic : bool) (r : regex) (s x : string) :
  x ∈ re_findall ic r s → occurs_in x s.
Proof.
  intros (before & from & rest & cap & -> & Hm & ->)%findall_elem.
  apply rmatch_captures in Hm as (s' & cap' & _ & Hc & [= <- <-]).
  destruct Hc as [->|(pre & w & post & -> & ->)].
  - exists "", (before +:+ from). done.
  - exists (before +:+ pre), (post +:+ s'). by rewrite !str_app_assoc.
Qed.

Lemma valid_image_url_weaken (url : string) :
  _is_valid_image_url url true = true → _is_valid_image_url url false = true.
Proof.
  unfold _is_valid_image_url. destruct (String.length url <? 10); [done|].
  destruct (negb _); [done|]. cbn [andb]. by destruct (negb (re_search _ _ _)).
Qed.

Lemma image_urls_from_text_valid (content url : string) :
  url ∈ _extract_image_urls_from_text content → _is_valid_image_url url false = true.
Proof.
  unfold _extract_image_urls_from_text. case_bool_decide; [by intros ?%elem_of_nil|].
  rewrite !elem_of_app, !list_elem_of_filter.
  intros [[Hv _]|[[Hv _]|[Hv _]]]; auto using valid_image_url_weaken.
Qed.

(** X6.  Every URL [_extract_image_urls_from_text] returns occurs in the text
    it was given and passes the validator (an extension not being required):
    the scan never invents a URL and never lets an invalid one through. *)
Theorem text_urls_occur_and_are_valid (content url : string) :
  url ∈ _extract_image_urls_from_text content →
  occurs_in url content ∧ _is_valid_image_url url false = true.
Proof.
  intros Hin. split; [|by eapply image_urls_from_text_valid].
  revert Hin. unfold _extract_image_urls_from_text.
  case_bool_decide; [by intros ?%elem_of_nil|].
  rewrite !elem_of_app, !list_elem_of_filter.
  intros [[_ Hin]|[[_ Hin]|[_ Hin]]]; by eapply findall_occurs.
Qed.

Lemma text_urls_occur_and_are_valid_witness :
  occurs_in "https://x/b.jpg" "see ![b](https://x/b.jpg) and <img src='ftp://x/c.png'>"
  ∧ _is_valid_image_url "https://x/b.jpg" false = true.
Proof.
  refine (text_urls_occur_and_are_valid _ _ _).
  vm_compute. apply list_elem_of_here.
Defined.

Lemma match_here_group_consumed (ic : bool) (r : regex) (s s' : string)
    (cap : option string) :
  match_here ic (Group r) s = Some (s', cap) →
  matches ic r s s' ∧ cap = Some (consumed s s').
Proof.
  unfold match_here. cbn. by intros (s2 & cap2 & Hm & [= <- <-])%rmatch_sound.
Qed.

(** What the inline pattern lets through. *)
Lemma data_urls_from_text_shape (content url : string) :
  url ∈ _extract_data_urls_from_text content →
  ∃ head ext sep payload,
    url = head +:+ ext +:+ sep +:+ payload
    ∧ str_lower head = "data:image/"
    ∧ str_lower ext ∈ image_extensions
    ∧ str_lower sep = ";base64,"
    ∧ payload ≠ "" ∧ str_all b64_char payload.
Proof.
  unfold _extract_data_urls_from_text. case_bool_decide; [by intros ?%elem_of_nil|].
  intros (before & from & rest & cap & _ & Hm & ->)%findall_elem.
  apply match_here_group_consumed in Hm as [Hm ->]. cbn [default].
  revert Hm. cbn -[Alts Lit].
  intros (m1 & (head & -> & Hhead & _)%matches_Lit
          & m2 & (r & Hr & Hext)%matches_Alts
          & m3 & (sep & -> & Hsep & _)%matches_Lit
          & m4 & (m5 & (c & -> & Hc) & (w & -> & Hw)) & ->).
  assert (∃ x, r = Lit x ∧ x ∈ image_extensions) as (x & -> & Hx).
  { revert Hr. unfold image_extensions. rewrite !elem_of_cons, !elem_of_nil.
    intros [->|[->|[->|[->|[->|[]]]]]]; eexists; (split; [done|]);
      rewrite !elem_of_cons; tauto. }
  apply matches_Lit in Hext as (ext & -> & Hext & _).
  exists head, ext, sep, (String c w).
  replace (head +:+ ext +:+ sep +:+ String c (w +:+ m4))
    with ((head +:+ ext +:+ sep +:+ String c w) +:+ m4).
  2:{ rewrite !str_app_assoc. done. }
  rewrite consumed_app. split; [done|]. split; [by apply Hhead|]. split.
  { by rewrite (Hext eq_refl), image_extensions_lower. }
  split; [by apply Hsep|]. split; [done|]. by split.
Qed.

(** A repetition takes every character it can: when what follows the run
    does not belong to the class and the rest of the pattern matches there,
    that is the match reported. *)
Lemma star_greedy {A : Type} (ic : bool) (p : ascii → bool) (w s' : string)
    (cap : option string) (k : string → option string → option A) (a : A) :
  str_all p w →
  match s' with String c _ => p c = false | EmptyString => True end →
  k s' cap = Some a →
  rmatch ic (Star p) (w +:+ s') cap k = Some a.
Proof.
  intros Hw Hs' Hk. cbn. induction w as [|c w IH].
  - change ("" +:+ s') with s'. destruct s' as [|c t]; [done|]. by rewrite Hs'.
  - change (String c w +:+ s') with (String c (w +:+ s')).
    destruct Hw as [-> Hw]. by rewrite (IH Hw).
Qed.

Lemma str_contains_none (ch : ascii) (s : string) :
  str_contains ch s = false → str_all (not_one_of [ch]) s.
Proof.
  induction s as [|c s IH]; [done|]. cbn.
  intros [Hc Hs]%orb_false_iff. split; [|by apply IH].
  unfold not_one_of, is_one_of. cbn. by rewrite Hc.
Qed.

(** No match of the Markdown pattern starts where there is no [!]. *)
Lemma md_scan_skips (pre s : string) : ∀ n,
  str_contains "!" pre = false →
  findall_from (String.length pre + n) false md_pattern (pre +:+ s)
  = findall_from n false md_pattern s.
Proof.
  induction pre as [|c pre IH]; intros n; [done|].
  cbn [str_contains]. intros [Hc Hpre]%orb_false_iff.
  change (String c pre +:+ s) with (String c (pre +:+ s)).
  cbn [String.length Nat.add findall_from].
  assert (match_here false md_pattern (String c (pre +:+ s)) = None) as ->.
  { unfold match_here, md_pattern. cbn [Seq Lit rmatch]. unfold chr_eq.
    by rewrite Ascii.eqb_sym, Hc. }
  by apply IH.
Qed.

(** A literal matches itself. *)
Lemma rmatch_Lit_self {A : Type} (ic : bool) (x s : string) (cap : option string)
    (k : string → option string → option A) :
  rmatch ic (Lit x) (x +:+ s) cap k = k s cap.
Proof.
  induction x as [|c x IH]; [done|].
  change (String c x +:+ s) with (String c (x +:+ s)). cbn [Lit rmatch].
  assert (chr_eq ic c c = true) as ->; [|done].
  unfold chr_eq. by destruct ic; rewrite Ascii.eqb_refl.
Qed.

Lemma rmatch_Cat {A : Type} (ic : bool) (r1 r2 : regex) (s : string)
    (cap : option string) (k : string → option string → option A) :
  rmatch ic (Cat r1 r2) s cap k = rmatch ic r1 s cap (λ s' cap', rmatch ic r2 s' cap' k).
Proof. done. Qed.

Lemma rmatch_Group {A : Type} (ic : bool) (r : regex) (s : string)
    (cap : option string) (k : string → option string → option A) :
  rmatch ic (Group r) s cap k = rmatch ic r s cap (λ s' _, k s' (Some (consumed s s'))).
Proof. done. Qed.

Lemma rmatch_Cls {A : Type} (ic : bool) (p : ascii → bool) (c : ascii) (s : string)
    (cap : option string) (k : string → option string → option A) :
  p c = true → rmatch ic (Cls p) (String c s) cap k = k s cap.
Proof. cbn. by intros ->. Qed.

(** X8.  A Markdown image is found: in a text that holds [![alt](url)] after
    a stretch without [!], with no closing bracket in [alt] and no closing
    parenthesis in [url], [_extract_image_urls_from_text] returns [url]
    whenever the validator accepts it, whatever follows. *)
Theorem markdown_image_is_extracted (pre alt url post : string) :
  str_contains "!" pre = false →
  str_contains "]" alt = false →
  str_contains ")" url = false →
  _is_valid_image_url url false = true →
  url ∈ _extract_image_urls_from_text
          (pre +:+ "![" +:+ alt +:+ "](" +:+ url +:+ ")" +:+ post).
Proof.
  intros Hpre Halt Hurl Hvalid. unfold _extract_image_urls_from_text.
  rewrite bool_decide_eq_false_2.
  2:{ by destruct pre. }
  apply elem_of_app. right. apply elem_of_app. left.
  apply list_elem_of_filter. split; [done|].
  unfold re_findall. rewrite str_length_app, <- Nat.add_succ_r, md_scan_skips by done.
  cbn [findall_from].
  assert (match_here false md_pattern ("![" +:+ alt +:+ "](" +:+ url +:+ ")" +:+ post)
          = Some (post, Some url)) as ->; [|apply list_elem_of_here].
  destruct url as [|u url]; [done|]. cbn in Hurl. apply orb_false_iff in Hurl as [Hu Hurl].
  unfold match_here, md_pattern. cbn [Seq]. rewrite rmatch_Cat, rmatch_Lit_self, rmatch_Cat.
  apply star_greedy; [by apply str_contains_none|exact eq_refl|].
  rewrite rmatch_Cat, rmatch_Lit_self, rmatch_Cat, rmatch_Group. unfold Plus.
  change (String u url +:+ ")" +:+ post) with (String u (url +:+ ")" +:+ post)).
  rewrite rmatch_Cat, rmatch_Cls.
  2:{ unfold not_one_of, is_one_of. cbn. by rewrite Hu. }
  apply star_greedy; [by apply str_contains_none|exact eq_refl|].
  change (Cat (Chr ")") Eps) with (Lit ")"). rewrite rmatch_Lit_self.
  change (String u (url +:+ ")" +:+ post)) with (String u url +:+ ")" +:+ post).
  by rewrite consumed_app.
Qed.

Lemma markdown_image_is_extracted_witness :
  "https://x/b.jpg" ∈ _extract_image_urls_from_text
    ("Here: " +:+ "![" +:+ "the result" +:+ "](" +:+ "https://x/b.jpg" +:+ ")" +:+ " (done)").
Proof.
  exact (markdown_image_is_extracted "Here: " "the result" "https://x/b.jpg" " (done)"
           eq_refl eq_refl eq_refl eq_refl).
Defined.

(** ** The response parser *)

Lemma dedupe_loop_clean (items : list string) : ∀ (seen : gset string),
  NoDup items → "" ∉ items → (∀ x, x ∈ items → x ∉ seen) →
  dedupe_loop items seen [] = items.
Proof.
  induction items as [|item items IH]; intros seen Hnd Hne Hseen; [done|].
  apply NoDup_cons in Hnd as [Hitem Hnd]. cbn [dedupe_loop].
  rewrite bool_decide_eq_false_2 by (intros ->; apply Hne, list_elem_of_here).
  rewrite bool_decide_eq_false_2 by (apply Hseen, list_elem_of_here).
  cbn [orb app]. rewrite dedupe_loop_result. cbn [app]. f_equal.
  apply IH; [done| |].
  - intros Hin. by apply Hne, list_elem_of_further.
  - intros x Hx. apply not_elem_of_union. split.
    + intros ->%elem_of_singleton. done.
    + by apply Hseen, list_elem_of_further.
Qed.

Lemma dedupe_loop_sublist (items : list string) : ∀ (seen : gset string),
  sublist (dedupe_loop items seen []) items.
Proof.
  induction items as [|item items IH]; intros seen; [done|]. cbn [dedupe_loop].
  destruct (bool_decide (item = "") || bool_decide (item ∈ seen)).
  - by apply sublist_cons.
  - rewrite dedupe_loop_result. cbn [app]. by apply sublist_skip.
Qed.

(** X9.  [_dedupe_preserve] leaves a list as it is exactly when the list
    holds no entry twice and no empty string; applying it a second time
    changes nothing; and what it returns is the given list with entries left
    out, the others in their order. *)
Theorem dedupe_fixed_points (items : list string) :
  (_dedupe_preserve items = items ↔ NoDup items ∧ "" ∉ items)
  ∧ _dedupe_preserve (_dedupe_preserve items) = _dedupe_preserve items
  ∧ sublist (_dedupe_preserve items) items.
Proof.
  assert (∀ l, NoDup l ∧ ("" ∉ l) → _dedupe_preserve l = l) as Hclean.
  { intros l [Hnd Hne]. apply dedupe_loop_clean; [done|done|]. intros x _. set_solver. }
  assert (NoDup (_dedupe_preserve items) ∧ "" ∉ _dedupe_preserve items) as Hres.
  { split; [apply dedupe_NoDup|]. by intros [_ ?]%dedupe_elem_of. }
  split; [|split].
  - split; [by intros <-|apply Hclean].
  - by apply Hclean.
  - apply dedupe_loop_sublist.
Qed.

(** A fold that only ever appends keeps what one of its steps added. *)
Lemma foldl_reaches {B : Type} (f : list string → B → list string) (l : list B) (b : B)
    (u : string) :
  (∀ a b, a `prefix_of` f a b) → b ∈ l → (∀ a, u ∈ f a b) → ∀ a, u ∈ foldl f a l.
Proof.
  intros Hext Hin Hadd. induction l as [|b' l IH]; [by apply elem_of_nil in Hin|].
  intros a. cbn [foldl]. apply elem_of_cons in Hin as [<-|Hin]; [|by apply IH].
  destruct (foldl_extends prefix f l Hext (f a b)) as [k ->].
  apply elem_of_app. left. apply Hadd.
Qed.

Section parser_invariant.
Context (P Q : string → Prop).
Hypothesis valid_P : ∀ u, _is_valid_image_url u false = true → P u.
Hypothesis built_Q : ∀ b, b ≠ "" → Q ("data:image/png;base64," +:+ b).
Hypothesis scanned_Q : ∀ content u, u ∈ _extract_data_urls_from_text content → Q u.

Local Abbreviation holds := (λ acc : found, Forall P acc.1 ∧ Forall Q acc.2).

Lemma text_urls_P (content : string) : Forall P (_extract_image_urls_from_text content).
Proof.
  apply Forall_forall. intros u Hu. by eapply valid_P, image_urls_from_text_valid.
Qed.

Lemma text_data_Q (content : string) : Forall Q (_extract_data_urls_from_text content).
Proof. apply Forall_forall. intros u Hu. by eapply scanned_Q. Qed.

Lemma data_item_holds (acc : found) (item : json) : holds acc → holds (data_item acc item).
Proof.
  intros [H1 H2]. unfold data_item. destruct item as [| | | | | |d]; try done.
  split; cbn.
  - destruct (get "url" d) as [[| | | |url| |]|]; try done.
    destruct (_is_valid_image_url url false) eqn:E; [|done].
    apply Forall_app. split; [done|]. apply Forall_singleton. by apply valid_P.
  - destruct (get "b64_json" d) as [[| | | |b| |]|]; try done.
    case_bool_decide; [done|].
    apply Forall_app. split; [done|]. apply Forall_singleton. by apply built_Q.
Qed.

Lemma content_part_holds (acc : list string * list string) (part : json) :
  Forall P acc.1 → Forall P (content_part acc part).1.
Proof.
  intros H. unfold content_part. destruct part as [| | | | | |p]; try done. cbn.
  destruct (py_eq_str (get "type" p) "image_url"); [|done].
  match goal with |- Forall P match ?x with _ => _ end => destruct x as [[| | | |u| |]|] end;
    try done.
  destruct (_is_valid_image_url u false) eqn:E; [|done].
  apply Forall_app. split; [done|]. apply Forall_singleton. by apply valid_P.
Qed.

Lemma from_content_holds (content : option json) (acc : found) :
  holds acc → holds (from_content content acc).
Proof.
  intros [H1 H2]. unfold from_content. destruct content as [[| | | |text|parts|]|]; try done.
  - split; cbn; apply Forall_app; auto using text_urls_P, text_data_Q.
  - pose proof (foldl_preserves (λ a : list string * list string, Forall P a.1)
                  content_part parts content_part_holds (acc.1, []) H1) as Hparts.
    destruct (foldl content_part (acc.1, []) parts) as [image_urls text_parts].
    destruct text_parts; [done|].
    split; cbn; apply Forall_app; auto using text_urls_P, text_data_Q.
Qed.

Lemma from_attachments_holds (message : list (string * json)) (urls : list string) :
  Forall P urls → Forall P (from_attachments message urls).
Proof.
  unfold from_attachments. apply (foldl_preserves (Forall P)). intros us field Hus.
  destruct (get field message) as [[| | | | |items|]|]; try done.
  revert Hus. apply (foldl_preserves (Forall P)). intros a item Ha.
  unfold attachment_item. destruct item as [| | | | | |d]; try done.
  destruct (get "url" d) as [[| | | |url| |]|]; try done.
  destruct (_is_valid_image_url url false) eqn:E; [|done].
  apply Forall_app. split; [done|]. apply Forall_singleton. by apply valid_P.
Qed.

Lemma collect_holds (d : list (string * json)) : holds (collect d).1.
Proof.
  assert (holds (from_data_field d ([], []))) as Hdata.
  { unfold from_data_field. destruct (get "data" d) as [[| | | | |items|]|]; try done.
    apply (foldl_preserves holds); [apply data_item_holds|done]. }
  unfold collect, from_choice.
  destruct (first_choice d) as [[| | | | | |c]|]; try done.
  destruct (default (JObj []) (get "message" c)) as [| | | | | |message]; try done.
  destruct (from_content_holds (get "content" message) _ Hdata) as [H1 H2].
  split; cbn; [by apply from_attachments_holds|done].
Qed.

Lemma extract_results_hold (response_data : json) :
  holds (_extract_image_results response_data).1.
Proof.
  destruct response_data as [| | | | | |d]; try done. cbn.
  pose proof (collect_holds d) as [H1 H2].
  destruct (collect d) as [[raw_urls raw_data] [e|]]; [done|]. cbn in H1, H2.
  assert (∀ R l, Forall R l → Forall R (_dedupe_preserve l)) as Hdedupe.
  { intros R l Hl. apply Forall_forall. intros x [Hx _]%dedupe_elem_of.
    by eapply Forall_forall in Hl. }
  apply Hdedupe in H1, H2.
  by destruct (_dedupe_preserve raw_urls), (_dedupe_preserve raw_data).
Qed.

End parser_invariant.

(** An inline entry found in a text begins with [data:image/], letter case
    apart, and goes on. *)
Lemma scanned_inline_head (content u : string) :
  u ∈ _extract_data_urls_from_text content →
  ∃ head rest, u = head +:+ rest ∧ str_lower head = "data:image/" ∧ rest ≠ "".
Proof.
  intros Hu.
  destruct (data_urls_from_text_shape content u Hu)
    as (head & ext & sep & payload & -> & Hhead & _ & _ & Hp & _).
  exists head, (ext +:+ sep +:+ payload). split; [done|]. split; [done|].
  destruct ext; [by destruct sep|done].
Qed.

(** X10.  Whatever response the parser is given, every remote URL it returns
    passes the validator, and every inline entry it returns is not empty and
    has one of two origins: it is [data:image/png;base64,] followed by at
    least one character (built from a [b64_json] of the response), or it is
    an entry [_extract_data_urls_from_text] found in a text. *)
Theorem parser_results_are_sound (response_data : json) :
  Forall (λ u, _is_valid_image_url u false = true) (_extract_image_results response_data).1.1
  ∧ Forall (λ u, u ≠ ""
                 ∧ ((∃ b, b ≠ "" ∧ u = "data:image/png;base64," +:+ b)
                    ∨ ∃ content, u ∈ _extract_data_urls_from_text content))
           (_extract_image_results response_data).1.2.
Proof.
  apply extract_results_hold.
  - done.
  - intros b Hb. split; [done|]. left. by exists b.
  - intros content u Hu. split; [|right; by exists content].
    revert Hu. unfold _extract_data_urls_from_text.
    case_bool_decide; [by intros ?%elem_of_nil|].
    by apply findall_group_nonempty.
Qed.

(** X11.  When the message of the first choice is an object, what its
    [content] and its attachment lists hold reaches the result, with no
    error: every URL and every data URI the text scans find in a string
    [content], and every string [url] passing validation of an object in
    [attachments], [media], [files] or [images]. *)
Theorem message_sources_are_collected (d c message : list (string * json)) :
  first_choice d = Some (JObj c) →
  get "message" c = Some (JObj message) →
  let result := _extract_image_results (JObj d) in
  (∀ text, get "content" message = Some (JStr text) →
     (∀ u, u ∈ _extract_image_urls_from_text text → u ∈ result.1.1 ∧ result.2 = None)
     ∧ (∀ u, u ∈ _extract_data_urls_from_text text → u ∈ result.1.2 ∧ result.2 = None))
  ∧ (∀ field items fields url,
       field ∈ ["attachments"; "media"; "files"; "images"] →
       get field message = Some (JArr items) → JObj fields ∈ items →
       get "url" fields = Some (JStr url) → _is_valid_image_url url false = true →
       url ∈ result.1.1 ∧ result.2 = None).
Proof.
  intros Hchoice Hmessage result.
  assert (collect d
          = ((from_attachments message
                (from_content (get "content" message) (from_data_field d ([], []))).1,
              (from_content (get "content" message) (from_data_field d ([], []))).2),
             None)) as Hcollect.
  { unfold collect, from_choice. by rewrite Hchoice, Hmessage. }
  assert (∀ u, u ∈ (collect d).1.1 → u ∈ result.1.1 ∧ result.2 = None) as Hurls.
  { intros u Hu. subst result.
    destruct (collect d) as [raw e] eqn:E. injection Hcollect as Hraw ->.
    rewrite (extract_results_some d raw E).
    - split; [|done]. apply dedupe_elem_of. split; [done|].
      pose proof (collect_nonempty d) as [Hne _]. rewrite E in Hne.
      by eapply Forall_forall in Hne.
    - left. intros Hnil. cbn in Hu. rewrite Hnil in Hu. by apply elem_of_nil in Hu. }
  assert (∀ u, u ∈ (collect d).1.2 → u ∈ result.1.2 ∧ result.2 = None) as Hdata.
  { intros u Hu. subst result.
    destruct (collect d) as [raw e] eqn:E. injection Hcollect as Hraw ->.
    rewrite (extract_results_some d raw E).
    - split; [|done]. apply dedupe_elem_of. split; [done|].
      pose proof (collect_nonempty d) as [_ Hne]. rewrite E in Hne.
      by eapply Forall_forall in Hne.
    - right. intros Hnil. cbn in Hu. rewrite Hnil in Hu. by apply elem_of_nil in Hu. }
  rewrite Hcollect in Hurls, Hdata. cbn [fst snd] in Hurls, Hdata.
  split.
  - intros text Htext. rewrite Htext in Hurls, Hdata.
    cbn [from_content fst snd] in Hurls, Hdata. split.
    + intros u Hu. apply Hurls.
      destruct (from_attachments_urls message
                  ((from_data_field d ([], [])).1 ++ _extract_image_urls_from_text text))
        as [[k ->] _].
      apply elem_of_app. left. apply elem_of_app. by right.
    + intros u Hu. apply Hdata. apply elem_of_app. by right.
  - intros field items fields url Hfield Hitems Hin Hurl Hvalid. apply Hurls.
    unfold from_attachments.
    apply (foldl_reaches _ _ field); [|done|].
    { intros a b. destruct (get b message) as [[| | | | |l|]|]; try done.
      apply (foldl_extends prefix). intros a' b'. apply attachment_item_urls. }
    intros a. rewrite Hitems.
    apply (foldl_reaches _ _ (JObj fields)); [|done|].
    { intros a' b'. apply attachment_item_urls. }
    intros a'. cbn [attachment_item]. rewrite Hurl, Hvalid.
    apply elem_of_app. right. apply list_elem_of_here.
Qed.

Lemma message_sources_are_collected_witness :
  let result := _extract_image_results twice_found in
  "https://x/b.jpg" ∈ result.1.1 ∧ result.2 = None.
Proof.
  refine (proj1 (proj1 (message_sources_are_collected
                          [("data", JArr [JObj [("url", JStr "https://x/a.png")]]);
                           ("choices",
                            JArr [JObj [("message",
                                         JObj [("content",
                                                JStr "![b](https://x/b.jpg) ![a](https://x/a.png)")])]])]
                          [("message",
                            JObj [("content",
                                   JStr "![b](https://x/b.jpg) ![a](https://x/a.png)")])]
                          [("content", JStr "![b](https://x/b.jpg) ![a](https://x/a.png)")]
                          eq_refl eq_refl)
                       "![b](https://x/b.jpg) ![a](https://x/a.png)" eq_refl) _ _).
  vm_compute. apply list_elem_of_here.
Defined.

(** X24.  When the first choice carries a [message] that is not an object,
    the parser gives up with the attribute error of that value and returns
    nothing: what the [data] list had already given is discarded. *)
Theorem malformed_message_discards_results (d c : list (string * json)) (v : json) :
  first_choice d = Some (JObj c) →
  get "message" c = Some v →
  (∀ message, v ≠ JObj message) →
  _extract_image_results (JObj d)
  = ([], [], Some ("图片提取失败: '" +:+ py_type_name v
                   +:+ "' object has no attribute 'get'")).
Proof.
  intros Hchoice Hmessage Hv. cbn [_extract_image_results].
  unfold collect, from_choice. rewrite Hchoice, Hmessage. cbn [default].
  destruct (from_data_field d ([], [])) as [image_urls data_urls].
  destruct v as [| | | | | |message]; [reflexivity..|by destruct (Hv message)].
Qed.

Lemma malformed_message_discards_results_witness :
  _extract_image_results
    (JObj [("data", JArr [JObj [("url", JStr "https://x/a.png")]]);
           ("choices", JArr [JObj [("message", JStr "done")]])])
  = ([], [], Some "图片提取失败: 'str' object has no attribute 'get'").
Proof.
  refine (malformed_message_discards_results
            [("data", JArr [JObj [("url", JStr "https://x/a.png")]]);
             ("choices", JArr [JObj [("message", JStr "done")]])]
            [("message", JStr "done")] (JStr "done") eq_refl eq_refl _).
  intros message. discriminate.
Defined.

(** ** The API client *)

Section client_results.
Context (cfg : Config) (w : World) (payload : Payload) (P : api_result → Prop).
Hypothesis answered : ∀ text body r, on_status_200 text body = Ok r → P r.
Hypothesis failed : ∀ e, attempt_errors cfg w e → P ([], [], Some e).

(** Every way out of the attempt loop, as long as the loop variable can
    reach the last attempt. *)
Lemma attempt_loop_result (remaining : nat) : ∀ (attempt : nat),
  attempt + S remaining = Z.to_nat (max_retry_attempts cfg) →
  P (attempt_loop cfg w payload (S remaining) attempt).1.
Proof.
  induction remaining as [|remaining IH]; intros attempt Hlast.
  - assert (Z.of_nat attempt = max_retry_attempts cfg - 1)%Z as Heq by lia.
    cbn [attempt_loop]. rewrite (bool_decide_eq_true_2 _ Heq).
    destruct (post w payload attempt) as [status_code text body| |e].
    + case_bool_decide.
      * destruct (on_status_200 text body) as [r|e] eqn:E; cbn.
        -- by eapply answered.
        -- apply failed. unfold attempt_errors. eauto.
      * case_bool_decide; cbn; apply failed; unfold attempt_errors; eauto 10.
    + cbn. apply failed. unfold attempt_errors. eauto.
    + cbn. apply failed. unfold attempt_errors. eauto.
  - assert (Z.of_nat attempt ≠ max_retry_attempts cfg - 1)%Z as Hne by lia.
    specialize (IH (S attempt) ltac:(lia)).
    change (attempt_loop cfg w payload (S (S remaining)) attempt)
      with (let retry (error_msg : string) : api_result * nat :=
              if bool_decide (Z.of_nat attempt = max_retry_attempts cfg - 1)%Z
              then (([], [], Some error_msg), 1)
              else let '(r, n) := attempt_loop cfg w payload (S remaining) (S attempt) in
                   (r, S n) in
            match post w payload attempt with
            | Response status_code text body =>
                if bool_decide (status_code = 200)%Z then
                  match on_status_200 text body with
                  | Ok r => (r, 1)
                  | Raised e => retry ("请求异常: " +:+ e)
                  end
                else if bool_decide (status_code = 403)%Z then
                  (([], [], Some "API访问被拒绝，请检查密钥和权限"), 1)
                else retry (request_failed_msg w status_code text body)
            | TimeoutException =>
                retry ("请求超时 (" +:+ pretty (timeout_seconds cfg) +:+ "秒)")
            | RequestError e => retry ("请求异常: " +:+ e)
            end).
    cbv zeta. rewrite (bool_decide_eq_false_2 _ Hne).
    destruct (attempt_loop cfg w payload (S remaining) (S attempt)) as [r n].
    destruct (post w payload attempt) as [status_code text body| |e]; [|done|done].
    case_bool_decide.
    + destruct (on_status_200 text body) as [r'|e] eqn:E; [|done]. by eapply answered.
    + case_bool_decide; [|done]. apply failed. unfold attempt_errors. eauto.
Qed.

End client_results.

(** The error texts of the parser. *)
Lemma parser_errors (v : json) (e : string) :
  (_extract_image_results v).2 = Some e →
  (_extract_image_results v).1 = ([], [])
  ∧ (e = msg_no_image ∨ (∃ x, e = "图片提取失败: " +:+ x)
     ∨ (∃ x, e = "无效的响应格式: <class '" +:+ x)).
Proof.
  destruct v as [| | | | | |d]; cbn; try (intros [= <-]; split; [done|]; eauto).
  destruct (collect d) as [[raw_urls raw_data] [x|]].
  - intros [= <-]. split; [done|]. eauto.
  - destruct (_dedupe_preserve raw_urls), (_dedupe_preserve raw_data); try done.
    intros [= <-]. split; [done|]. eauto.
Qed.

(** What a reply with status 200 leads to, unless decoding it raises. *)
Lemma on_status_200_cases (text : string) (body : json_decoding) (r : api_result) :
  on_status_200 text body = Ok r →
  (∃ v, body = Decoded v ∧ r = _extract_image_results v ∧ r.2 = None
        ∧ (r.1.1 ≠ [] ∨ r.1.2 ≠ []))
  ∨ (∃ v e, body = Decoded v ∧ (_extract_image_results v).2 = Some e
            ∧ r = ([], [], Some e))
  ∨ (∃ e, body = JSONDecodeError e
          ∧ r = ([], [], Some ("API响应JSON解析失败: " +:+ e +:+ ", 响应内容: "
                               +:+ str_take 200 text))).
Proof.
  destruct body as [v|e|e]; cbn; [|intros [= <-]; eauto|done].
  destruct (_extract_image_results v) as [[image_urls data_urls] [e|]] eqn:E.
  - destruct (parser_errors v e) as [_ He]; [by rewrite E|].
    assert (py_truthy (Some e) = true) as ->.
    { cbn. rewrite bool_decide_eq_false_2; [done|].
      destruct He as [->|[[x ->]|[x ->]]]; done. }
    intros [= <-]. right. left. exists v, e. by rewrite E.
  - cbn [py_truthy]. destruct (extract_results_no_error v _ _ E) as [Hne|Hne].
    + destruct image_urls; [done|]. intros [= <-]. left. exists v. eauto.
    + destruct image_urls, data_urls; try done; intros [= <-]; left; exists v; eauto.
Qed.

Lemma attempt_loop_count (cfg : Config) (w : World) (payload : Payload) (remaining : nat) :
  ∀ attempt, (attempt_loop cfg w payload remaining attempt).2 ≤ remaining.
Proof.
  induction remaining as [|remaining IH]; intros attempt; [done|].
  cbn [attempt_loop]. specialize (IH (S attempt)).
  destruct (attempt_loop cfg w payload remaining (S attempt)) as [r n]. cbn in IH.
  destruct (post w payload attempt) as [status_code text body| |e];
    repeat case_bool_decide; try destruct (on_status_200 text body); cbn; lia.
Qed.

(** Every result of the client, by the way the call ended. *)
Lemma call_result (cfg : Config) (w : World) (prompt image_base64 : string)
    (P : api_result → Prop) :
  (∀ text body r, on_status_200 text body = Ok r → P r) →
  (∀ e, attempt_errors cfg w e → P ([], [], Some e)) →
  (api_key cfg = "" → P ([], [], Some "未配置API密钥")) →
  (api_key cfg ≠ "" → (max_retry_attempts cfg ≤ 0)%Z → P ([], [], Some "所有重试均失败")) →
  P (_call_grok_api cfg w prompt image_base64).1.
Proof.
  intros Hanswered Hfailed Hkey Hnone. unfold _call_grok_api.
  case_bool_decide as Hk; [by apply Hkey|].
  destruct (Z.to_nat (max_retry_attempts cfg)) as [|n] eqn:En.
  - apply Hnone; [done|lia].
  - apply attempt_loop_result; [done|done|lia].
Qed.

Lemma call_error_or_images (cfg : Config) (w : World) (prompt image_base64 : string) :
  error_or_images (_call_grok_api cfg w prompt image_base64).1.
Proof.
  apply call_result; try (intros; left; by split).
  - intros text body r [(v & _ & -> & Hnone & Hne)|[(v & e & _ & He & ->)|(e & _ & ->)]]
      %on_status_200_cases.
    + by right.
    + left. split; [|done]. cbn. rewrite bool_decide_eq_false_2; [done|].
      destruct (parser_errors v e He) as [_ [->|[[x ->]|[x ->]]]]; done.
    + by left.
  - intros e He. left. split; [|done]. cbn. rewrite bool_decide_eq_false_2; [done|].
    destruct He as [->|[->|[[x ->]|(s & t & b & ->)]]]; done.
Qed.

(** X12.  The client returns an error that is there together with two empty
    lists, or no error and at least one entry; it sends at most
    [max_retry_attempts] requests, and none exactly when no key is configured
    or no attempt is allowed. *)
Theorem client_result_shape (cfg : Config) (w : World) (prompt image_base64 : string) :
  let call := _call_grok_api cfg w prompt image_base64 in
  error_or_images call.1
  ∧ call.2 ≤ Z.to_nat (max_retry_attempts cfg)
  ∧ (call.2 = 0 ↔ api_key cfg = "" ∨ (max_retry_attempts cfg ≤ 0)%Z).
Proof.
  split; [apply call_error_or_images|split].
  - unfold _call_grok_api. case_bool_decide; [cbn; lia|]. apply attempt_loop_count.
  - unfold _call_grok_api. case_bool_decide as Hk; [by split; [left|]|].
    destruct (Z.to_nat (max_retry_attempts cfg)) as [|n] eqn:En.
    + split; [right; lia|done].
    + pose proof (attempt_loop_sends cfg w (build_payload cfg prompt image_base64) n 0).
      split; [lia|]. intros [?|?]; [done|lia].
Qed.

(** X13.  Two of the client's error texts are out of reach in practice: the
    text for a 200 reply without images is never returned, the parser having
    reported that case before with a text of its own; and the text for
    attempts that all failed is returned exactly when a key is configured
    and no attempt is allowed, each failure carrying its own text
    otherwise. *)
Theorem client_unreachable_errors (cfg : Config) (w : World) (prompt image_base64 : string) :
  let call := _call_grok_api cfg w prompt image_base64 in
  call.1.2 ≠ Some "API响应中未包含有效的图片链接"
  ∧ (call.1.2 = Some "所有重试均失败"
     ↔ api_key cfg ≠ "" ∧ (max_retry_attempts cfg ≤ 0)%Z).
Proof.
  assert (∀ text body r, on_status_200 text body = Ok r →
            r.2 ≠ Some "API响应中未包含有效的图片链接" ∧ r.2 ≠ Some "所有重试均失败")
    as Hanswered.
  { intros text body r
      [(v & _ & -> & -> & _)|[(v & e & _ & He & ->)|(e & _ & ->)]]%on_status_200_cases;
      [done| |done].
    destruct (parser_errors v e He) as [_ [->|[[x ->]|[x ->]]]]; done. }
  assert (∀ e, attempt_errors cfg w e →
            e ≠ "API响应中未包含有效的图片链接" ∧ e ≠ "所有重试均失败") as Hfailed.
  { intros e [->|[->|[[x ->]|(s & t & b & ->)]]]; done. }
  split.
  - apply (call_result cfg w prompt image_base64
             (λ r, r.2 ≠ Some "API响应中未包含有效的图片链接")); try done.
    + intros text body r Hr. by apply (Hanswered text body r).
    + intros e He [= Heq]. by destruct (Hfailed e He).
  - split.
    + apply (call_result cfg w prompt image_base64
               (λ r, r.2 = Some "所有重试均失败"
                     → api_key cfg ≠ "" ∧ (max_retry_attempts cfg ≤ 0)%Z)); try done.
      * intros text body r Hr Heq. by destruct (Hanswered text body r Hr).
      * intros e He [= Heq]. by destruct (Hfailed e He).
    + intros [Hk Hmax]. unfold _call_grok_api.
      rewrite bool_decide_eq_false_2 by done.
      by replace (Z.to_nat (max_retry_attempts cfg)) with 0 by lia.
Qed.

Lemma str_app_nil_r (s : string) : s +:+ "" = s.
Proof.
  induction s as [|c s IH]; [done|].
  change (String c (s +:+ "") = String c s). by rewrite IH.
Qed.

Lemma rev_app_app (s : string) : ∀ acc, String.rev_app s acc = String.rev s +:+ acc.
Proof.
  unfold String.rev. induction s as [|c s IH]; intros acc; [done|].
  cbn [String.rev_app]. rewrite IH, (IH (String c "")), str_app_assoc. done.
Qed.

Lemma rev_app_distr (a b : string) : String.rev (a +:+ b) = String.rev b +:+ String.rev a.
Proof.
  induction a as [|c a IH].
  - change ("" +:+ b) with b. by rewrite str_app_nil_r.
  - change (String c a +:+ b) with (String c (a +:+ b)). unfold String.rev.
    cbn [String.rev_app]. rewrite !rev_app_app, IH, str_app_assoc.
    by rewrite str_app_nil_r.
Qed.

Lemma rev_blank (s : string) : blank s → blank (String.rev s).
Proof.
  unfold blank. induction s as [|c s IH]; [done|]. intros [Hc Hs].
  change (String c s) with (String c "" +:+ s). rewrite rev_app_distr.
  specialize (IH Hs). revert IH. generalize (String.rev s) as r.
  induction r as [|c' r IHr]; [by intros _|]. intros [Hc' Hr].
  change (String c' r +:+ String.rev (String c "")) with
    (String c' (r +:+ String.rev (String c ""))). split; [done|]. by apply IHr.
Qed.

Lemma lstrip_blank (a s : string) : blank a → lstrip (a +:+ s) = lstrip s.
Proof.
  unfold blank. induction a as [|c a IH]; [done|]. intros [Hc Ha].
  change (String c a +:+ s) with (String c (a +:+ s)). cbn [lstrip]. rewrite Hc. by apply IH.
Qed.

Lemma lstrip_blank_nil (a : string) : blank a → lstrip a = "".
Proof. intros Ha. rewrite <- (str_app_nil_r a). by rewrite lstrip_blank. Qed.

Lemma lstrip_app (s b : string) : lstrip s ≠ "" → lstrip (s +:+ b) = lstrip s +:+ b.
Proof.
  induction s as [|c s IH]; [done|].
  change (String c s +:+ b) with (String c (s +:+ b)). cbn [lstrip].
  destruct (is_space c); [apply IH|done].
Qed.

Lemma strip_surrounding (a s b : string) :
  blank a → blank b → str_strip (a +:+ s +:+ b) = str_strip s.
Proof.
  intros Ha Hb. unfold str_strip. rewrite lstrip_blank by done.
  destruct (decide (lstrip s = "")) as [Hs|Hs].
  - assert (lstrip (s +:+ b) = "") as ->; [|by rewrite Hs].
    clear Ha. induction s as [|c s IH]; [by apply lstrip_blank_nil|].
    change (String c s +:+ b) with (String c (s +:+ b)). cbn [lstrip] in *.
    destruct (is_space c); [by apply IH|done].
  - rewrite lstrip_app, rev_app_distr, lstrip_blank by auto using rev_blank. done.
Qed.

(** X14.  White space around the prompt never reaches the upstream API: the
    request built from a prompt with blanks before and after it is the
    request built from the prompt alone, and for a prompt that is all blanks
    the text sent is the configured prefix by itself. *)
Theorem prompt_is_stripped (cfg : Config) (before prompt after image_base64 : string) :
  blank before → blank after →
  build_payload cfg (before +:+ prompt +:+ after) image_base64
  = build_payload cfg prompt image_base64
  ∧ (blank prompt →
     payload_text (build_payload cfg (before +:+ prompt +:+ after) image_base64)
     = prompt_prefix cfg).
Proof.
  intros Hb Ha. unfold build_payload, final_prompt. cbn [payload_text].
  rewrite strip_surrounding by done. split; [done|]. intros Hp.
  assert (str_strip prompt = "") as ->.
  { unfold str_strip. by rewrite (lstrip_blank_nil prompt Hp). }
  case_bool_decide; [congruence|]. by rewrite bool_decide_eq_true_2.
Qed.

Lemma prompt_is_stripped_witness :
  build_payload default_config ("  " +:+ "add a hat" +:+ String "010" "") "data:,"
  = build_payload default_config "add a hat" "data:,"
  ∧ (blank "add a hat" →
     payload_text (build_payload default_config
                     ("  " +:+ "add a hat" +:+ String "010" "") "data:,")
     = prompt_prefix default_config).
Proof.
  refine (prompt_is_stripped default_config "  " "add a hat" (String "010" "") "data:," _ _);
    by vm_compute.
Defined.

(** ** The task orchestrator *)

Lemma unlinked_app (a b : list effect) : unlinked (a ++ b) = unlinked a ++ unlinked b.
Proof. apply omap_app. Qed.

(** The last loop of the body: one removal for each path, in order, unless
    results are to be kept. *)
Lemma cleanup_trace (cfg : Config) (image_paths : list string) : ∀ (done_ : list effect),
  foldl (λ a image_path, and_then a (_cleanup_image_file cfg image_path))
        (done_, Ok tt) image_paths
  = (done_ ++ (if save_image_enabled cfg then []
               else Unlink <$> filter (λ p, p ≠ "") image_paths), Ok tt).
Proof.
  induction image_paths as [|p ps IH]; intros done_; cbn [foldl].
  { destruct (save_image_enabled cfg); cbn; by rewrite app_nil_r. }
  unfold _cleanup_image_file at 2. cbn [and_then].
  case_bool_decide as Hp.
  - cbn [skip fst snd]. rewrite app_nil_r, IH. subst p.
    rewrite filter_cons_False by (intros ?; done). done.
  - rewrite filter_cons_True by done.
    destruct (save_image_enabled cfg); cbn [skip fst snd]; rewrite IH.
    + by rewrite !app_nil_r.
    + by rewrite <- app_assoc.
Qed.

(** What [_save_base64_image] could write is never the empty path. *)
Lemma save_all_paths (w : World) (data_urls : list string) :
  Forall (λ p, p ≠ "" ∧ ∃ d, d ∈ data_urls ∧ _save_base64_image w d = Some p)
         (save_all w data_urls).
Proof.
  unfold save_all.
  assert (∀ acc, Forall (λ p, p ≠ "" ∧ ∃ d, d ∈ data_urls ∧ _save_base64_image w d = Some p)
                        acc →
          ∀ l, l ⊆ data_urls →
          Forall (λ p, p ≠ "" ∧ ∃ d, d ∈ data_urls ∧ _save_base64_image w d = Some p)
            (foldl (λ image_paths data_url,
                      if py_truthy (_save_base64_image w data_url)
                      then image_paths ++ [default "" (_save_base64_image w data_url)]
                      else image_paths) acc l)) as H.
  { intros acc Hacc l. revert acc Hacc. induction l as [|d l IH]; intros acc Hacc Hl; [done|].
    cbn [foldl]. apply IH; [|set_solver].
    destruct (_save_base64_image w d) as [p|] eqn:E; cbn; [|done].
    case_bool_decide; [done|]. cbn. apply Forall_app. split; [done|].
    apply Forall_singleton. split; [done|]. exists d. split; [set_solver|done]. }
  by apply H.
Qed.

(** The result of the core operation: an error that is there and nothing
    else, or the client's remote URLs with the files written. *)
Lemma core_result (cfg : Config) (w : World) (event : Event) (prompt : string)
    (prefetched_images : option (list string)) (prefetched_error : option string) :
  let result :=
    (_generate_image_edit_core cfg w event prompt prefetched_images prefetched_error).1 in
  (py_truthy result.2 = true ∧ result.1 = ([], []))
  ∨ (∃ image data_urls,
       result = ((_call_grok_api cfg w prompt image).1.1.1, save_all w data_urls, None)
       ∧ (_call_grok_api cfg w prompt image).1 = (result.1.1, data_urls, None)).
Proof.
  unfold _generate_image_edit_core.
  destruct (enabled cfg); cbn [negb]; [|left; by split].
  destruct (py_truthy prefetched_error) eqn:E1; [left; by split|].
  match goal with |- context [let '(_, _) := ?x in _] => destruct x as [images e] end.
  destruct (py_truthy e) eqn:E2; [left; by split|].
  destruct images as [|image others]; [left; by split|].
  pose proof (call_error_or_images cfg w prompt image) as Hshape.
  destruct (_call_grok_api cfg w prompt image)
    as [[[image_urls data_urls] error_msg] sent] eqn:Ecall.
  destruct (py_truthy error_msg) eqn:E3; [left; by split|].
  right. exists image, data_urls. rewrite Ecall. cbn.
  destruct Hshape as [[Ht _]|[Hnone _]]; cbn in *; [congruence|]. by subst.
Qed.

Lemma unlinked_except (w : World) (a : action) :
  unlinked (async_edit_except w a).1 = unlinked a.1.
Proof.
  destruct a as [done_ [|e]]; cbn; [done|].
  destruct (send_plain w _); cbn; by rewrite unlinked_app, app_nil_r.
Qed.

Lemma unlinked_cleanup (cfg : Config) (image_paths : list string) :
  Forall (λ p, p ≠ "") image_paths →
  unlinked (if save_image_enabled cfg then []
            else Unlink <$> filter (λ p, p ≠ "") image_paths)
  = if save_image_enabled cfg then [] else image_paths.
Proof.
  intros Hne. destruct (save_image_enabled cfg); [done|].
  induction Hne as [|p ps Hp Hps IH]; [done|].
  rewrite filter_cons_True by done. cbn. by f_equal.
Qed.

(** The files removed once results are there, [cl] being what the last loop
    of the body does. *)
Lemma results_unlinked (cfg : Config) (w : World) (components : list image_component)
    (image_paths : list string) (cl : list effect) :
  unlinked cl = (if save_image_enabled cfg then [] else image_paths) →
  let a :=
    and_then
      (when (bool_decide (status_message_mode cfg = "verbose"))
            (plain w "🖼️ 正在发送编辑后的图片，请稍候..."))
      (and_then
         (when (negb (bool_decide (components = []))) (deliver cfg w components))
         (cl, Ok tt)) in
  (unlinked a.1 = [] ∨ unlinked a.1 = image_paths)
  ∧ (save_image_enabled cfg = true → unlinked a.1 = [])
  ∧ (save_image_enabled cfg = false →
     status_message_mode cfg ≠ "verbose" ∨ (∀ text, send_plain w text = Ok tt) →
     (∀ e, send_chain w components ≠ DeliveryRaised e) →
     unlinked a.1 = image_paths)
  ∧ (∀ e, components ≠ [] → send_chain w components = DeliveryRaised e →
          unlinked a.1 = []).
Proof.
  intros Hcl a. subst a.
  split; [|split; [|split]].
  - body_cases; cbn [unlinked omap] in *; fold (unlinked cl); rewrite ?Hcl;
      destruct (save_image_enabled cfg); auto.
  - intros Hsave. rewrite Hsave in Hcl.
    body_cases; cbn [unlinked omap] in *; fold (unlinked cl); by rewrite ?Hcl.
  - intros Hsave Hplain Hchain. rewrite Hsave in Hcl.
    destruct (send_chain w components) as [| |e] eqn:Hsent; [| |by destruct (Hchain e)];
      (destruct Hplain as [Hmode|Hplain];
       [rewrite (bool_decide_eq_false_2 _ Hmode)
       |unfold deliver, plain, when, skip, and_then; rewrite ?Hsent, ?Hplain]);
      body_cases; cbn [unlinked omap] in *; fold (unlinked cl);
      rewrite ?Hsent in *; try done; by rewrite ?Hcl.
  - intros e Hcomps Hsent. rewrite (bool_decide_eq_false_2 _ Hcomps).
    unfold deliver. rewrite Hsent. body_cases; done.
Qed.

(** X15.  The files the core operation wrote are removed all together or not
    at all.  None is removed when results are to be kept, and none when
    handing the chain to the chat platform raises: the files stay behind.
    When results are not kept, the chat platform takes the chain (or the
    hand-over times out) and the status texts go out, every file written is
    removed, those the cap kept out of the chain included. *)
Theorem cleanup_policy (cfg : Config) (w : World) (st : State) (event : Event)
    (prompt task_id : string) (prefetched_images : option (list string))
    (prefetched_error : option string) :
  let trace := (_async_edit_image cfg w st event prompt task_id
                                  prefetched_images prefetched_error).1.2 in
  let result :=
    (_generate_image_edit_core cfg w event prompt prefetched_images prefetched_error).1 in
  let components := build_components cfg w result.1.1 result.1.2 in
  (unlinked trace = [] ∨ unlinked trace = result.1.2)
  ∧ (save_image_enabled cfg = true → unlinked trace = [])
  ∧ (save_image_enabled cfg = false →
     status_message_mode cfg ≠ "verbose" ∨ (∀ text, send_plain w text = Ok tt) →
     (∀ e, send_chain w components ≠ DeliveryRaised e) →
     unlinked trace = result.1.2)
  ∧ (∀ e, components ≠ [] → send_chain w components = DeliveryRaised e →
          unlinked trace = []).
Proof.
  intros trace result components. subst trace. unfold _async_edit_image.
  destruct (async_edit_except w _) as [done_ escaped] eqn:Hexcept. cbn [fst snd].
  replace done_ with (async_edit_except w
    (async_edit_try cfg w event prompt prefetched_images prefetched_error)).1
    by (by rewrite Hexcept).
  rewrite unlinked_except. unfold async_edit_try. fold result.
  destruct (core_result cfg w event prompt prefetched_images prefetched_error)
    as [[Herr Hnil]|(image & data_urls & Hres & _)].
  - fold result in Herr, Hnil. subst components. destruct result as [[image_urls image_paths] error_msg].
    cbn in Herr, Hnil. injection Hnil as -> ->. rewrite Herr. cbn. auto 10.
  - fold result in Hres. pose proof (save_all_paths w data_urls) as Hpaths.
    subst components. rewrite Hres. cbn [fst snd py_truthy].
    set (image_urls := (_call_grok_api cfg w prompt image).1.1.1) in *.
    set (image_paths := save_all w data_urls) in *.
    assert (Forall (λ p, p ≠ "") image_paths) as Hne.
    { eapply Forall_impl; [exact Hpaths|]. by intros p [? _]. }
    pose proof (results_unlinked cfg w (build_components cfg w image_urls image_paths)
                  image_paths _ (unlinked_cleanup cfg image_paths Hne)) as Hmain.
    cbv zeta in Hmain.
    unfold skip. rewrite (cleanup_trace cfg image_paths []). cbn [app].
    destruct image_urls as [|u us] eqn:Hu, image_paths as [|p ps] eqn:Hp; try exact Hmain.
    cbn. auto 10.
Qed.

Lemma cleanup_policy_witness :
  unlinked (_async_edit_image (settings "off" [] false CNone CNone "minimal" 1 false)
              inline_server u1_pending two_images "add sunglasses" "t1"
              (Some ["data:image/jpeg;base64,AAAA"]) None).1.2
  = ["/data/images/26.png"; "/data/images/26.png"].
Proof.
  refine (proj1 (proj2 (proj2 (cleanup_policy
            (settings "off" [] false CNone CNone "minimal" 1 false)
            inline_server u1_pending two_images "add sunglasses" "t1"
            (Some ["data:image/jpeg;base64,AAAA"]) None))) eq_refl _ _).
  - left. discriminate.
  - intros e. discriminate.
Defined.

(** Remote URLs the client returns passed the validator, inline entries
    begin with [data:image/]. *)
Lemma call_results_sound (cfg : Config) (w : World) (prompt image_base64 : string) :
  Forall (λ u, _is_valid_image_url u false = true)
         (_call_grok_api cfg w prompt image_base64).1.1.1
  ∧ Forall (λ u, ∃ head rest, u = head +:+ rest ∧ str_lower head = "data:image/"
                               ∧ rest ≠ "")
           (_call_grok_api cfg w prompt image_base64).1.1.2.
Proof.
  apply (call_result cfg w prompt image_base64
           (λ r, Forall (λ u, _is_valid_image_url u false = true) r.1.1
                 ∧ Forall (λ u, ∃ head rest, u = head +:+ rest
                                  ∧ str_lower head = "data:image/" ∧ rest ≠ "") r.1.2));
    try done.
  intros text body r [(v & _ & -> & _)|[(v & e & _ & _ & ->)|(e & _ & ->)]]
    %on_status_200_cases; [|done|done].
  apply extract_results_hold; [done| |apply scanned_inline_head].
  intros b Hb. exists "data:image/", ("png;base64," +:+ b). done.
Qed.

(** The one chain the body can hand over once results are there. *)
Lemma results_chains (cfg : Config) (w : World) (components : list image_component)
    (cl : list effect) (c : list image_component) :
  chains cl = [] →
  c ∈ chains (and_then
                (when (bool_decide (status_message_mode cfg = "verbose"))
                      (plain w "🖼️ 正在发送编辑后的图片，请稍候..."))
                (and_then
                   (when (negb (bool_decide (components = []))) (deliver cfg w components))
                   (cl, Ok tt))).1 →
  c = components ∧ components ≠ [].
Proof.
  intros Hcl. body_cases; rewrite ?chains_plain, ?chains_chain, ?chains_plain, ?Hcl;
    rewrite ?elem_of_cons, ?elem_of_nil; naive_solver.
Qed.

Lemma chains_unlinks (cfg : Config) (image_paths : list string) :
  chains (if save_image_enabled cfg then []
          else Unlink <$> filter (λ p, p ≠ "") image_paths) = [].
Proof.
  destruct (save_image_enabled cfg); [done|].
  induction (filter _ image_paths) as [|p ps IH]; [done|]. exact IH.
Qed.

(** Preparing a path for delivery never loses it. *)
Lemma prepare_nonempty (cfg : Config) (w : World) (image_path : string) :
  image_path ≠ "" → _prepare_image_path cfg w image_path ≠ "".
Proof.
  intros Hne. unfold _prepare_image_path. rewrite bool_decide_eq_false_2 by done.
  destruct (_ || _); [done|]. destruct (send_file w) as [relay|]; [|done].
  destruct (relay image_path) as [forwarded|e]; [|done]. by case_bool_decide.
Qed.

(** X16.  Whatever the upstream API answers, a chain the body hands to the
    chat platform is never empty, every remote image in it is a URL that
    passed the validator, and every local image is the path, as prepared for
    delivery and never empty, of a file that [_save_base64_image] wrote for
    an inline entry beginning with [data:image/]. *)
Theorem delivered_components_provenance (cfg : Config) (w : World) (st : State)
    (event : Event) (prompt task_id : string) (prefetched_images : option (list string))
    (prefetched_error : option string) (components : list image_component) :
  components ∈ chains (_async_edit_image cfg w st event prompt task_id
                                         prefetched_images prefetched_error).1.2 →
  components ≠ []
  ∧ ∀ c, c ∈ components →
      match c with
      | FromURL url => _is_valid_image_url url false = true
      | FromFileSystem path =>
          path ≠ ""
          ∧ ∃ data_url saved head rest,
              _save_base64_image w data_url = Some saved ∧ saved ≠ ""
              ∧ path = _prepare_image_path cfg w saved
              ∧ data_url = head +:+ rest ∧ str_lower head = "data:image/"
      end.
Proof.
  unfold _async_edit_image.
  destruct (async_edit_except w _) as [done_ escaped] eqn:Hexcept. cbn [fst snd].
  replace done_ with (async_edit_except w
    (async_edit_try cfg w event prompt prefetched_images prefetched_error)).1
    by (by rewrite Hexcept).
  rewrite chains_except. unfold async_edit_try.
  destruct (core_result cfg w event prompt prefetched_images prefetched_error)
    as [[Herr Hnil]|(image & data_urls & Hres & Hcall)].
  - destruct (_generate_image_edit_core _ _ _ _ _ _).1
      as [[image_urls image_paths] error_msg].
    cbn in Herr, Hnil. rewrite Herr. cbn. by intros ?%elem_of_nil.
  - destruct (call_results_sound cfg w prompt image) as [Hurls Hdata].
    rewrite Hcall in Hdata. cbn [fst snd] in Hdata.
    pose proof (save_all_paths w data_urls) as Hpaths.
    rewrite Hres. cbn [fst snd py_truthy].
    set (image_urls := (_call_grok_api cfg w prompt image).1.1.1) in *.
    set (image_paths := save_all w data_urls) in *.
    unfold skip. rewrite (cleanup_trace cfg image_paths []). cbn [app].
    intros Hin.
    assert (components = build_components cfg w image_urls image_paths
            ∧ components ≠ []) as [-> Hne].
    { destruct image_urls as [|u us], image_paths as [|p ps];
        [by apply elem_of_nil in Hin|..];
        (destruct (results_chains _ _ _ _ _ (chains_unlinks cfg _) Hin) as [-> ?]; done). }
    split; [done|]. intros c Hc. rewrite build_components_take in Hc.
    apply elem_of_take in Hc as (i & Hc & _). apply list_elem_of_lookup_2 in Hc.
    unfold all_components in Hc.
    apply elem_of_app in Hc as [(u & -> & Hu)%list_elem_of_fmap|(p & -> & Hp)%list_elem_of_fmap].
    + by eapply Forall_forall in Hurls.
    + destruct (proj1 (Forall_forall _ _) Hpaths p Hp) as (Hne' & d & Hd & Hsaved).
      destruct (proj1 (Forall_forall _ _) Hdata d Hd) as (head & rest & Heq & Hhead & _).
      split; [by apply prepare_nonempty|]. by exists d, p, head, rest.
Qed.

Lemma delivered_components_provenance_witness :
  [FromURL "https://x/a.png"] ≠ []
  ∧ ∀ c, c ∈ [FromURL "https://x/a.png"] →
      match c with
      | FromURL url => _is_valid_image_url url false = true
      | FromFileSystem path =>
          path ≠ ""
          ∧ ∃ data_url saved head rest,
              _save_base64_image flaky_server data_url = Some saved ∧ saved ≠ ""
              ∧ path = _prepare_image_path two_per_minute flaky_server saved
              ∧ data_url = head +:+ rest ∧ str_lower head = "data:image/"
      end.
Proof.
  refine (delivered_components_provenance two_per_minute flaky_server u1_pending two_images
            "add sunglasses" "t1" (Some ["data:image/jpeg;base64,AAAA"]) None _ _).
  vm_compute. apply list_elem_of_here.
Defined.

Lemma except_head (w : World) (a : action) (e : effect) (rest : list effect) :
  a.1 = e :: rest → ∃ rest', (async_edit_except w a).1 = e :: rest'.
Proof.
  destruct a as [done_ [|x]]; cbn; intros ->; [by eexists|].
  destruct (send_plain w _); by eexists.
Qed.

(** X17.  A task answers: when at least one image may be delivered, or the
    mode is [verbose], the first thing the body does is hand a text or a
    chain to the chat platform.  When no image may be delivered and the mode
    is not [verbose], a successful edit is answered with nothing at all: the
    body only removes the files. *)
Theorem task_answers (cfg : Config) (w : World) (st : State) (event : Event)
    (prompt task_id : string) (prefetched_images : option (list string))
    (prefetched_error : option string) :
  let trace := (_async_edit_image cfg w st event prompt task_id
                                  prefetched_images prefetched_error).1.2 in
  let result :=
    (_generate_image_edit_core cfg w event prompt prefetched_images prefetched_error).1 in
  ((1 ≤ max_images_per_response cfg)%Z ∨ status_message_mode cfg = "verbose" →
   ∃ e rest, trace = e :: rest ∧ is_send e = true)
  ∧ ((max_images_per_response cfg ≤ 0)%Z → status_message_mode cfg ≠ "verbose" →
     result.2 = None → result.1 ≠ ([], []) →
     Forall (λ e, is_send e = false) trace).
Proof.
  intros trace result. subst trace. unfold _async_edit_image.
  destruct (async_edit_except w _) as [done_ escaped] eqn:Hexcept. cbn [fst snd].
  replace done_ with (async_edit_except w
    (async_edit_try cfg w event prompt prefetched_images prefetched_error)).1
    by (by rewrite Hexcept).
  clear Hexcept done_ escaped.
  assert (∀ a : action, (∃ e rest, a.1 = e :: rest ∧ is_send e = true) →
            ∃ e rest, (async_edit_except w a).1 = e :: rest ∧ is_send e = true) as Hhead.
  { intros a (e & rest & Ha & He). destruct (except_head w a e rest Ha) as [rest' ->].
    eauto. }
  unfold async_edit_try. fold result.
  destruct (core_result cfg w event prompt prefetched_images prefetched_error)
    as [[Herr Hnil]|(image & data_urls & Hres & _)].
  - fold result in Herr, Hnil.
    destruct result as [[image_urls image_paths] error_msg].
    cbn in Herr, Hnil. injection Hnil as -> ->. rewrite Herr. split.
    + intros _. apply Hhead. cbn. eauto.
    + intros _ _ Hnone. cbn in Hnone. subst error_msg. done.
  - fold result in Hres. rewrite Hres. cbn [fst snd py_truthy].
    set (image_urls := (_call_grok_api cfg w prompt image).1.1.1) in *.
    set (image_paths := save_all w data_urls) in *.
    unfold skip. rewrite (cleanup_trace cfg image_paths []). cbn [app].
    rewrite build_components_take.
    split.
    + intros Hsome. apply Hhead.
      destruct image_urls as [|u us] eqn:Hu, image_paths as [|p ps] eqn:Hp;
        [cbn; eauto|..];
        (destruct Hsome as [Hmax|Hmode];
         [destruct (Z.to_nat (max_images_per_response cfg)) as [|n] eqn:Hn; [lia|];
          cbn [all_components fmap list_fmap app take]
         |rewrite (bool_decide_eq_true_2 _ Hmode)]);
        body_cases; try done; cbn; eauto.
    + intros Hmax Hmode _ Hne.
      replace (Z.to_nat (max_images_per_response cfg)) with 0 by lia.
      rewrite take_0, (bool_decide_eq_false_2 _ Hmode).
      assert (Forall (λ e, is_send e = false)
                (if save_image_enabled cfg then []
                 else Unlink <$> filter (λ p, p ≠ "") image_paths)) as Hcl.
      { destruct (save_image_enabled cfg); [done|]. apply Forall_fmap, Forall_true. done. }
      destruct image_urls as [|u us], image_paths as [|p ps]; [done|..]; exact Hcl.
Qed.

Lemma task_answers_witness :
  Forall (λ e, is_send e = false)
    (_async_edit_image (settings "off" [] false CNone CNone "minimal" 0 false)
       inline_server u1_pending two_images "add sunglasses" "t1"
       (Some ["data:image/jpeg;base64,AAAA"]) None).1.2.
Proof.
  refine (proj2 (task_answers (settings "off" [] false CNone CNone "minimal" 0 false)
                   inline_server u1_pending two_images "add sunglasses" "t1"
                   (Some ["data:image/jpeg;base64,AAAA"]) None) _ _ eq_refl _).
  - cbn. lia.
  - discriminate.
  - discriminate.
Defined.

(** ** Images of a quoted message *)

Lemma downloaded_data_uri (io : Files) (image_url d : string) :
  _download_image_as_data_url io image_url = Some d → String.prefix "data:image/" d = true.
Proof.
  unfold _download_image_as_data_url.
  destruct (http_get io image_url) as [[header b64]|e]; [|done].
  destruct (String.prefix "image/" _) eqn:E; intros [= <-]; [|reflexivity].
  apply prefix_split in E as [rest Hrest]. rewrite Hrest.
  change (String.prefix "data:image/" ("data:image/" +:+ (rest +:+ ";base64," +:+ b64)) = true).
  apply prefix_app.
Qed.

Lemma downloaded_cases (io : Files) (image_url : string) :
  (∃ d, downloaded io image_url = (Some d, None) ∧ String.prefix "data:image/" d = true)
  ∨ downloaded io image_url = (None, Some msg_download_failed).
Proof.
  unfold downloaded. destruct (_download_image_as_data_url io image_url) as [d|] eqn:E.
  - pose proof (downloaded_data_uri io image_url d E) as Hd.
    cbn. rewrite bool_decide_eq_false_2 by (by intros ->). left. eauto.
  - by right.
Qed.

Lemma from_path_cases (io : Files) (data : list (string * json)) :
  (∃ d, from_path io data = (Some d, None) ∧ String.prefix "data:image/" d = true)
  ∨ (∃ e, from_path io data = (None, Some e) ∧ e ≠ "").
Proof.
  unfold from_path. destruct (nonempty_str (get "path" data)) as [path|].
  - destruct (read_file io path) as [[b64|]|e]; [left|right|right]; eauto.
  - right. eauto.
Qed.

Lemma segment_cases (io : Files) (api : OneBot) (data : list (string * json)) :
  (∃ d, _onebot_image_data_to_data_url io api data = (Some d, None)
        ∧ String.prefix "data:image/" d = true)
  ∨ (∃ e, _onebot_image_data_to_data_url io api data = (None, Some e) ∧ e ≠ "").
Proof.
  unfold _onebot_image_data_to_data_url.
  destruct (nonempty_str (py_or _ _)) as [b|]; [left; eauto|].
  destruct (nonempty_str (get "url" data)) as [url|].
  { destruct (downloaded_cases io url) as [?| ->]; [by left|right; eauto]. }
  destruct (str_of_id _) as [file_id|]; [|apply from_path_cases].
  destruct (String.prefix "base64://" file_id); [left; eauto|].
  destruct (_get_onebot_image_url api file_id) as [image_url|]; [|apply from_path_cases].
  destruct (downloaded_cases io image_url) as [?| ->]; [by left|right; eauto].
Qed.

(** X18.  A quoted image segment gives a data URI beginning with
    [data:image/] and no error, or no data URI and an error that is there,
    never both and never neither.  Its sources are tried in a fixed order,
    and failures are not treated alike: for a segment without inline base64
    whose [url] cannot be fetched the answer is the download error, whatever
    its [file] and [path] would have given; but when there is no [url] and
    the [get_image] call for its file fails, the [path] is read instead. *)
Theorem quoted_segment_result (io : Files) (api : OneBot) (data : list (string * json)) :
  let r := _onebot_image_data_to_data_url io api data in
  ((∃ d, r = (Some d, None) ∧ String.prefix "data:image/" d = true)
   ∨ (∃ e, r = (None, Some e) ∧ e ≠ ""))
  ∧ (∀ url e,
       nonempty_str (py_or (get "base64" data) (get "b64" data)) = None →
       nonempty_str (get "url" data) = Some url →
       http_get io url = Raised e →
       r = (None, Some msg_download_failed))
  ∧ (∀ file_id e,
       nonempty_str (py_or (get "base64" data) (get "b64" data)) = None →
       nonempty_str (get "url" data) = None →
       str_of_id (py_or (get "file" data) (get "file_id" data)) = Some file_id →
       String.prefix "base64://" file_id = false →
       get_image api file_id = Raised e →
       r = from_path io data).
Proof.
  split; [apply segment_cases|]. split.
  - intros url e Hb Hurl Hget. unfold _onebot_image_data_to_data_url.
    rewrite Hb, Hurl. unfold downloaded, _download_image_as_data_url. by rewrite Hget.
  - intros file_id e Hb Hurl Hfile Hinline Hget. unfold _onebot_image_data_to_data_url.
    rewrite Hb, Hurl, Hfile, Hinline. unfold _get_onebot_image_url. by rewrite Hget.
Qed.

Lemma quoted_segment_result_witness :
  _onebot_image_data_to_data_url
    {| http_get := λ _, Raised "404"; read_file := λ _, Ok (Some "AAAA") |}
    {| get_msg := λ _, Raised "unused"; get_image := λ _, Raised "unused" |}
    [("url", JStr "https://x/gone.png"); ("path", JStr "/tmp/a.png")]
  = (None, Some msg_download_failed).
Proof.
  exact (proj1 (proj2 (quoted_segment_result
                  {| http_get := λ _, Raised "404"; read_file := λ _, Ok (Some "AAAA") |}
                  {| get_msg := λ _, Raised "unused"; get_image := λ _, Raised "unused" |}
                  [("url", JStr "https://x/gone.png"); ("path", JStr "/tmp/a.png")]))
               "https://x/gone.png" "404" eq_refl eq_refl eq_refl).
Defined.

Lemma reply_segments (io : Files) (api : OneBot) (message : list json) :
  ∀ acc : list string * list string,
    Forall (λ i, String.prefix "data:image/" i = true) acc.1 →
    Forall (λ e, e ≠ "") acc.2 →
    Forall (λ i, String.prefix "data:image/" i = true)
           (foldl (reply_segment io api) acc message).1
    ∧ Forall (λ e, e ≠ "") (foldl (reply_segment io api) acc message).2.
Proof.
  induction message as [|segment message IH]; intros acc H1 H2; [done|].
  cbn [foldl]. apply IH; unfold reply_segment;
    destruct segment as [| | | | | |seg]; try done;
    destruct (py_eq_str _ _); try done;
    destruct (get "data" seg) as [[| | | | | |data_field]|]; try done;
    destruct (segment_cases io api data_field) as [(d & -> & Hd)|(e & -> & He)]; cbn.
  - rewrite bool_decide_eq_false_2 by (by intros ->). cbn.
    apply Forall_app. split; [done|]. by apply Forall_singleton.
  - by rewrite bool_decide_eq_false_2.
  - by rewrite bool_decide_eq_false_2 by (by intros ->).
  - rewrite bool_decide_eq_false_2 by done. cbn.
    apply Forall_app. split; [done|]. by apply Forall_singleton.
Qed.

Lemma data_image_prefix (d : string) :
  String.prefix "data:image/" d = true → String.prefix "data:" d = true.
Proof.
  intros [rest ->]%prefix_split.
  change (String.prefix "data:" ("data:" +:+ ("image/" +:+ rest)) = true). apply prefix_app.
Qed.

Lemma fetched_images (py_str : json → string) (io : Files) (platform : option string)
    (bot : option Bot) (reply_id : string) :
  let r := fetch_images_from_reply py_str io platform bot reply_id in
  ((r.1 ≠ [] ∧ r.2 = None) ∨ (r.1 = [] ∧ py_truthy r.2 = true))
  ∧ Forall (λ i, String.prefix "data:image/" i = true) r.1.
Proof.
  unfold fetch_images_from_reply.
  destruct (_get_onebot_api platform bot) as [api|]; [|split; [by right|done]].
  destruct (get_msg api reply_id) as [[| | | | | |result]|e];
    try (split; [by right|done]).
  destruct (match get "status" result with Some _ => _ | None => _ end);
    [split; [by right|done]|].
  destruct (negb (retcode_ok _)); [split; [by right|done]|].
  destruct (get "message" (result_data result)) as [[| | | | |message|]|];
    try (split; [by right|done]).
  destruct (reply_segments io api message ([], [])) as [H1 H2]; [done|done|].
  destruct (foldl (reply_segment io api) ([], []) message) as [images errors].
  cbn [fst snd] in H1, H2. destruct images as [|i images].
  - destruct errors as [|e errors]; split; try done; right; by split.
  - split; [by left|done].
Qed.

(** X19.  Fetching the images of a quoted message gives images and no error,
    or no image and an error that is there; every image is a data URI
    beginning with [data:image/]; and an event whose platform has a name
    other than the four OneBot names is refused whatever its bot offers. *)
Theorem quoted_message_result (py_str : json → string) (io : Files)
    (platform : option string) (bot : option Bot) (reply_id : string) :
  let r := fetch_images_from_reply py_str io platform bot reply_id in
  ((r.1 ≠ [] ∧ r.2 = None) ∨ (r.1 = [] ∧ py_truthy r.2 = true))
  ∧ Forall (λ i, String.prefix "data:image/" i = true) r.1
  ∧ (∀ name, platform = Some name → name ≠ "" →
       str_lower name ∉ ["aiocqhttp"; "onebot11"; "onebot-11"; "onebot"] →
       r = ([], Some "当前适配器不支持通过引用消息获取图片")).
Proof.
  intros r. destruct (fetched_images py_str io platform bot reply_id) as [H1 H2].
  split; [done|]. split; [done|].
  intros name -> Hname Hother. subst r. unfold fetch_images_from_reply, _get_onebot_api.
  cbn [py_truthy default]. by rewrite !bool_decide_eq_false_2.
Qed.

Lemma quoted_message_result_witness :
  fetch_images_from_reply (λ _, "") {| http_get := λ _, Raised "404";
                                       read_file := λ _, Ok None |}
    (Some "Telegram")
    (Some {| bot_api := None;
             bot_call_action := Some {| get_msg := λ _, Raised "unused";
                                        get_image := λ _, Raised "unused" |} |})
    "42"
  = ([], Some "当前适配器不支持通过引用消息获取图片").
Proof.
  refine (proj2 (proj2 (quoted_message_result _ _ _ _ _)) "Telegram" eq_refl _ _).
  - discriminate.
  - change (str_lower "Telegram") with "telegram".
    rewrite !elem_of_cons, elem_of_nil. intros [?|[?|[?|[?|[]]]]]; discriminate.
Defined.

Lemma image_data_uris (conv : outcome string) :
  Forall (λ i, String.prefix "data:" i = true) (image_data conv).
Proof.
  unfold image_data. destruct conv as [b|e]; [|done]. case_bool_decide; [done|].
  destruct (String.prefix "data:" b) eqn:E; by apply Forall_singleton.
Qed.

Lemma scanned_images (components : list component) : ∀ acc : list string * list string,
  Forall (λ i, String.prefix "data:" i = true) acc.1 →
  Forall (λ i, String.prefix "data:" i = true) (foldl scan_component acc components).1.
Proof.
  induction components as [|comp components IH]; intros acc Hacc; [done|].
  cbn [foldl]. apply IH. destruct comp as [conv|chain reply_id|]; cbn; [| |done].
  - apply Forall_app. split; [done|apply image_data_uris].
  - clear IH. revert acc Hacc. induction chain as [|c chain IHc]; intros acc Hacc; [done|].
    cbn [foldl]. destruct c as [conv| |]; cbn; try apply (IHc acc Hacc).
    apply (IHc (acc.1 ++ image_data conv, acc.2)). cbn.
    apply Forall_app. split; [done|apply image_data_uris].
Qed.

Lemma fetch_first_from (w : World) (P : string → Prop) (reply_ids : list string) :
  (∀ reply_id, Forall P (_fetch_images_from_reply w reply_id).1) →
  ∀ last_error, Forall P (fetch_first w reply_ids last_error).1.
Proof.
  intros Hfetch. induction reply_ids as [|reply_id rest IH]; intros last_error; [done|].
  cbn [fetch_first]. specialize (Hfetch reply_id).
  destruct (_fetch_images_from_reply w reply_id) as [[|i fetched] error]; [apply IH|done].
Qed.

(** The requests of the core operation carry its first image. *)
Lemma core_requests_carry (cfg : Config) (w : World) (event : Event) (prompt : string)
    (prefetched_images : option (list string)) (P : string → Prop) :
  Forall P (default (_extract_images_from_message w event).1 prefetched_images) →
  Forall (λ request, P (payload_image_url request))
         (_generate_image_edit_core cfg w event prompt prefetched_images None).2.
Proof.
  intros Himages. unfold _generate_image_edit_core.
  destruct (enabled cfg); [|done]. cbn [negb py_truthy].
  assert (∀ images extract_error,
            Forall P images →
            Forall (λ request, P (payload_image_url request))
              (if py_truthy extract_error then (([], [], extract_error), [])
               else match images with
                    | [] => (([], [], Some "未找到图片，请在消息中包含图片或引用包含图片的消息"), [])
                    | image_base64 :: _ =>
                        let '((image_urls, data_urls, error_msg), sent) :=
                          _call_grok_api cfg w prompt image_base64 in
                        let requests :=
                          replicate sent (build_payload cfg prompt image_base64) in
                        if py_truthy error_msg then (([], [], error_msg), requests)
                        else ((image_urls, save_all w data_urls, None), requests)
                    end).2) as Hcore.
  { intros images extract_error Hall. destruct (py_truthy extract_error); [done|].
    destruct images as [|image others]; [done|].
    apply Forall_cons in Hall as [Himage _].
    destruct (_call_grok_api cfg w prompt image)
      as [[[image_urls data_urls] error_msg] sent].
    assert (Forall (λ request, P (payload_image_url request))
                   (replicate sent (build_payload cfg prompt image))) as Hsent.
    { apply Forall_replicate. exact Himage. }
    by destruct (py_truthy error_msg). }
  destruct prefetched_images as [images|]; cbn [default] in Himages.
  - by apply (Hcore images None).
  - destruct (_extract_images_from_message w event) as [images extract_error].
    by apply Hcore.
Qed.

(** X20.  Whatever the message holds and whatever the platform answers,
    every image the resolver returns is a data URI, those fetched from a
    quoted message included; so every request sent upstream for the event
    carries a data URI as its image, both when the core operation resolves
    the images itself and when it runs for a task that [/修图] created. *)
Theorem resolver_gives_data_uris (cfg : Config) (w : World) (io : Files)
    (platform : option string) (bot : option Bot) (event : Event) (prompt : string) :
  let w' := with_quoted w io platform bot in
  Forall (λ i, String.prefix "data:" i = true) (_extract_images_from_message w' event).1
  ∧ Forall (λ request, String.prefix "data:" (payload_image_url request) = true)
           (_generate_image_edit_core cfg w' event prompt None None).2
  ∧ (∀ st now new_id task,
       (cmd_edit_image cfg w' st event prompt now new_id).2 = Some task →
       Forall (λ request, String.prefix "data:" (payload_image_url request) = true)
              (_generate_image_edit_core cfg w' (task_event task) (task_prompt task)
                                         (Some (task_images task)) None).2).
Proof.
  intros w'.
  assert (Forall (λ i, String.prefix "data:" i = true)
                 (_extract_images_from_message w' event).1) as Himages.
  { unfold _extract_images_from_message.
    pose proof (scanned_images (message event) ([], []) (Forall_nil_2 _)) as Hscan.
    destruct (foldl scan_component ([], []) (message event)) as [images reply_ids].
    destruct images as [|i images]; [|done].
    destruct reply_ids as [|reply_id reply_ids]; [done|].
    apply fetch_first_from. intros id.
    eapply Forall_impl; [apply (fetched_images (py_str w) io platform bot id)|].
    apply data_image_prefix. }
  split; [done|]. split.
  - by apply (core_requests_carry cfg w' event prompt None
                (λ i, String.prefix "data:" i = true)).
  - intros st now new_id task Htask.
    destruct (command_accepted cfg w' st event prompt now new_id task Htask)
      as (_ & _ & _ & Htaken & _).
    apply (core_requests_carry cfg w' (task_event task) (task_prompt task)
             (Some (task_images task)) (λ i, String.prefix "data:" i = true)).
    cbn [default]. by rewrite Htaken.
Qed.

(** A quoted message with one image, fetched through the bot. *)
Lemma resolver_gives_data_uris_witness :
  Forall (λ request, String.prefix "data:" (payload_image_url request) = true)
         (_generate_image_edit_core two_per_minute
            (with_quoted flaky_server png_network (Some "aiocqhttp") (Some quoted_bot))
            quoting "add sunglasses" (Some ["data:image/png;base64,iVBO"]) None).2.
Proof.
  refine (proj2 (proj2 (resolver_gives_data_uris two_per_minute flaky_server png_network
                          (Some "aiocqhttp") (Some quoted_bot) quoting "add sunglasses"))
            init_state 100%Z "t1"
            {| task_event := quoting; task_prompt := "add sunglasses"; task_id := "t1";
               task_images := ["data:image/png;base64,iVBO"] |} _).
  vm_compute. reflexivity.
Defined.

(** ** Saving an inline result *)

Lemma str_all_true (s : string) : str_all any_char s.
Proof. induction s; by cbn. Qed.

(** How the pattern of [_save_base64_image] reads a data URI. *)
Lemma save_pattern_reads (ext data : string) :
  ext ≠ "" → str_all ext_char ext → data ≠ "" →
  match_here false save_pattern_ext ("data:image/" +:+ ext +:+ ";base64," +:+ data)
  = Some ("", Some ext)
  ∧ match_here false save_pattern_data ("data:image/" +:+ ext +:+ ";base64," +:+ data)
    = Some ("", Some data).
Proof.
  intros Hext Hchars Hdata.
  destruct ext as [|e ext]; [done|]. destruct data as [|d data]; [done|].
  destruct Hchars as [He Hchars].
  unfold match_here, save_pattern_ext, save_pattern_data, Plus. cbn [Seq]. split.
  - rewrite rmatch_Cat, rmatch_Lit_self, rmatch_Cat, rmatch_Group, rmatch_Cat.
    change (String e ext +:+ ";base64," +:+ String d data)
      with (String e (ext +:+ ";base64," +:+ String d data)).
    rewrite rmatch_Cls by done.
    apply star_greedy; [done|exact eq_refl|].
    rewrite rmatch_Cat, rmatch_Lit_self, rmatch_Cat, rmatch_Cat, rmatch_Cls by done.
    rewrite <- (str_app_nil_r data) at 1.
    apply star_greedy; [apply str_all_true|done|]. cbn [rmatch].
    change (String e (ext +:+ ";base64," +:+ String d data))
      with (String e ext +:+ ";base64," +:+ String d data).
    by rewrite consumed_app.
  - rewrite rmatch_Cat, rmatch_Lit_self, rmatch_Cat, rmatch_Cat.
    change (String e ext +:+ ";base64," +:+ String d data)
      with (String e (ext +:+ ";base64," +:+ String d data)).
    rewrite rmatch_Cls by done.
    apply star_greedy; [done|exact eq_refl|].
    rewrite rmatch_Cat, rmatch_Lit_self, rmatch_Cat, rmatch_Group, rmatch_Cat,
      rmatch_Cls by done.
    rewrite <- (str_app_nil_r data) at 1.
    apply star_greedy; [apply str_all_true|done|]. cbn [rmatch].
    rewrite <- (str_app_nil_r (String d data)) at 1. by rewrite consumed_app.
Qed.

Lemma saved_has_prefix (disk : Disk) (data_url path : string) :
  save_base64_image disk data_url = Some path → ∃ tail, data_url = "data:image/" +:+ tail.
Proof.
  unfold save_base64_image.
  destruct (match_here false save_pattern_ext data_url) as [[rest cap]|] eqn:E; [|done].
  intros _. unfold match_here in E.
  apply rmatch_sound in E as (s' & cap' & Hm & _).
  unfold save_pattern_ext in Hm. cbn [Seq matches] in Hm.
  destruct Hm as (m & (e & -> & _ & He)%matches_Lit & _).
  exists m. by rewrite (He eq_refl).
Qed.

(** X21.  [_save_base64_image] writes what the parser built: for a data URI
    made of [data:image/], a format name, [;base64,] and a payload, it
    decodes exactly the payload and writes the bytes under the format name in
    lower case, whatever characters the payload holds; it returns no path
    when decoding or writing fails.  It saves nothing that does not begin
    with [data:image/] in lower case, so an inline image the text scan found
    under another letter case is dropped. *)
Theorem inline_results_saved (disk : Disk) :
  (∀ ext data,
     ext ≠ "" → str_all ext_char ext → data ≠ "" →
     save_base64_image disk ("data:image/" +:+ ext +:+ ";base64," +:+ data)
     = match b64decode disk data with
       | Ok image_bytes =>
           match write_image disk (str_lower ext) image_bytes with
           | Ok absolute_path => Some absolute_path
           | Raised _ => None
           end
       | Raised _ => None
       end)
  ∧ (∀ data_url path,
       save_base64_image disk data_url = Some path →
       ∃ tail, data_url = "data:image/" +:+ tail)
  ∧ (∀ content data_url,
       data_url ∈ _extract_data_urls_from_text content →
       String.prefix "data:image/" data_url = false →
       save_base64_image disk data_url = None).
Proof.
  split; [|split].
  - intros ext data Hext Hchars Hdata. unfold save_base64_image.
    by destruct (save_pattern_reads ext data Hext Hchars Hdata) as [-> ->].
  - apply saved_has_prefix.
  - intros content data_url _ Hprefix.
    destruct (save_base64_image disk data_url) as [path|] eqn:E; [|done].
    apply saved_has_prefix in E as [tail ->]. by rewrite prefix_app in Hprefix.
Qed.

Lemma inline_results_saved_witness :
  save_base64_image {| b64decode := λ b, Ok b; write_image := λ ext _, Ok ("/img." +:+ ext) |}
                    "DATA:image/PNG;base64,iVBO" = None.
Proof.
  refine (proj2 (proj2 (inline_results_saved _)) "got DATA:image/PNG;base64,iVBO."
            "DATA:image/PNG;base64,iVBO" _ eq_refl).
  vm_compute. apply list_elem_of_here.
Defined.

(** ** The commands *)

(** X22.  Every [/修图] command is answered with exactly one reply, except an
    accepted one in [silent] mode, which is answered with none; the reply to
    an accepted command names the identifier of the task. *)
Theorem command_replies (cfg : Config) (w : World) (st : State) (event : Event)
    (prompt : string) (now : Z) (new_id : string) :
  let r := cmd_edit_image cfg w st event prompt now new_id in
  length r.1.2 ≤ 1
  ∧ (r.2 = None → length r.1.2 = 1)
  ∧ (r.1.2 = [] ↔ is_Some r.2 ∧ status_message_mode cfg = "silent")
  ∧ (∀ task, r.2 = Some task → status_message_mode cfg ≠ "silent" →
       ∃ text, r.1.2 = [text] ∧ occurs_in new_id text).
Proof.
  unfold cmd_edit_image.
  destruct (cmd_edit_image_gate cfg st event now) as [st1 [reply|]]; cbn [fst snd].
  { repeat split; try done; try lia; by intros [[? ?] _]. }
  unfold cmd_edit_image_start.
  destruct (_extract_images_from_message w event) as [images extract_error].
  destruct (py_truthy extract_error); cbn [fst snd].
  { repeat split; try done; try lia; by intros [[? ?] _]. }
  destruct images as [|image images]; cbn [fst snd].
  { repeat split; try done; try lia; by intros [[? ?] _]. }
  case_bool_decide as Hmode; cbn [length].
  - repeat split; try done; try lia.
  - repeat split; try done; try lia; try (by intros [_ ?]).
    intros task _ _. eexists. split; [done|].
    exists ("🖼️ 正在使用Grok为您编辑图片，请稍候..." +:+ String "010" "🆔 任务ID: "),
           (String "010" "📝 提示：如果显示超时但稍后收到图片，说明发送成功。").
    by rewrite !str_app_assoc.
Qed.

Lemma command_replies_witness :
  ∃ text,
    (cmd_edit_image two_per_minute flaky_server init_state two_images "add sunglasses"
                    100 "3f2a9c1e").1.2 = [text]
    ∧ occurs_in "3f2a9c1e" text.
Proof.
  refine (proj2 (proj2 (proj2 (command_replies two_per_minute flaky_server init_state
                                 two_images "add sunglasses" 100 "3f2a9c1e")))
            _ eq_refl _).
  discriminate.
Defined.

Lemma check_after_terminate (cfg : Config) (st : State) (event : Event) (now : Z) :
  (_check_group_access cfg (terminate st) event now).2
  = (_check_group_access cfg st event now).2
  ∧ _rate_limit_bucket (_check_group_access cfg (terminate st) event now).1
    = _rate_limit_bucket (_check_group_access cfg st event now).1
  ∧ _processing_tasks (_check_group_access cfg (terminate st) event now).1
    = _processing_tasks (_check_group_access cfg st event now).1.
Proof.
  unfold _check_group_access, _check_group_access_try.
  case_bool_decide; [done|]. destruct (group_control_denial cfg _); [done|].
  destruct (rate_limit_enabled cfg); [|done]. unfold rate_limit_locked. cbn.
  destruct (py_ge "float" _ _) as [expired|e]; [|done].
  destruct (if expired then _ else _) as [ws c].
  destruct (py_ge "int" c _) as [[|]|e]; done.
Qed.

(** X23.  [terminate] forgets the locks and nothing else: the call counts
    of the groups and the tokens of the pending tasks stay, so a command
    handled afterwards is answered as it would have been, and leaves the
    same counts and tokens behind. *)
Theorem terminate_keeps_counts_and_tokens (cfg : Config) (w : World) (st : State)
    (event : Event) (prompt : string) (now : Z) (new_id : string) :
  let before := cmd_edit_image cfg w st event prompt now new_id in
  let after := cmd_edit_image cfg w (terminate st) event prompt now new_id in
  _rate_limit_locks (terminate st) = ∅
  ∧ after.1.2 = before.1.2 ∧ after.2 = before.2
  ∧ _rate_limit_bucket after.1.1 = _rate_limit_bucket before.1.1
  ∧ _processing_tasks after.1.1 = _processing_tasks before.1.1.
Proof.
  split; [done|].
  destruct (check_after_terminate cfg st event now) as (Hanswer & Hbucket & Htasks).
  unfold cmd_edit_image. rewrite !command_gate. rewrite Hanswer.
  cbn [terminate _processing_tasks].
  destruct (_check_group_access cfg st event now) as [s1 a1].
  destruct (_check_group_access cfg (terminate st) event now) as [s2 a2].
  cbn [fst snd] in *.
  destruct (if py_truthy a1 then a1 else _) as [reply|]; [done|].
  unfold cmd_edit_image_start.
  destruct (_extract_images_from_message w event) as [images extract_error].
  destruct (py_truthy extract_error); [done|].
  destruct images; [done|]. cbn. by rewrite Htasks.
Qed.

(** X25.  The asynchronous body leaves the plugin state alone but for its
    own token: call counts and locks stay as they are, and a token that is
    not the task's own (the user's newer task, say) is not removed. *)
Theorem task_touches_own_token_only (cfg : Config) (w : World) (st : State)
    (event : Event) (prompt task_id : string) (prefetched_images : option (list string))
    (prefetched_error : option string) :
  let st' := (_async_edit_image cfg w st event prompt task_id
                                prefetched_images prefetched_error).1.1 in
  _rate_limit_bucket st' = _rate_limit_bucket st
  ∧ _rate_limit_locks st' = _rate_limit_locks st
  ∧ (_processing_tasks st !! get_sender_id event ≠ Some task_id → st' = st)
  ∧ (_processing_tasks st !! get_sender_id event = Some task_id →
     _processing_tasks st' = delete (get_sender_id event) (_processing_tasks st)).
Proof.
  unfold _async_edit_image.
  destruct (async_edit_except w _) as [done_ escaped]. cbn [fst snd].
  unfold async_edit_finally. case_bool_decide; cbn; repeat split; done.
Qed.

Lemma task_touches_own_token_only_witness :
  (_async_edit_image two_per_minute flaky_server (set_tasks {["u1" := "t2"]} init_state)
     two_images "add sunglasses" "t1" (Some ["data:image/jpeg;base64,AAAA"]) None).1.1
  = set_tasks {["u1" := "t2"]} init_state.
Proof.
  refine (proj1 (proj2 (proj2 (task_touches_own_token_only two_per_minute flaky_server
            (set_tasks {["u1" := "t2"]} init_state) two_images "add sunglasses" "t1"
            (Some ["data:image/jpeg;base64,AAAA"]) None))) _).
  vm_compute. discriminate.
Defined.

(** X26.  The test report keeps the key to itself: whoever is not an
    administrator gets the same refusal whatever the configuration, and for
    an administrator the report is the same for any two keys that are set,
    so nothing of the key can be read off it. *)
Theorem test_report_hides_key (cfg : Config) (admin_users : gset string)
    (images_dir : string) (event : Event) :
  (get_sender_id event ∉ admin_users →
   ∀ cfg', cmd_test cfg' admin_users images_dir event
           = cmd_test cfg admin_users images_dir event)
  ∧ (∀ key key', key ≠ "" → key' ≠ "" →
       cmd_test (with_key cfg key) admin_users images_dir event
       = cmd_test (with_key cfg key') admin_users images_dir event).
Proof.
  split.
  - intros Hother cfg'. unfold cmd_test, _is_admin.
    by rewrite bool_decide_eq_false_2.
  - intros key key' Hkey Hkey'. unfold cmd_test. destruct (negb _); [done|].
    cbn [with_key api_key api_url model_id timeout_seconds max_retry_attempts
         max_images_per_response enabled].
    by rewrite !bool_decide_eq_false_2.
Qed.

Lemma test_report_hides_key_witness :
  cmd_test (with_key default_config "xai-1") {["u1"]} "/data/images" group_event
  = cmd_test (with_key default_config "xai-2") {["u1"]} "/data/images" group_event.
Proof.
  refine (proj2 (test_report_hides_key default_config {["u1"]} "/data/images" group_event)
            "xai-1" "xai-2" _ _); discriminate.
Defined.

Lemma build_components_nil (cfg : Config) (w : World) : build_components cfg w [] [] = [].
Proof. rewrite build_components_take. unfold all_components. cbn. apply take_nil. Qed.

(** X27.  A failure to hand the chain over does not go unnoticed: when the
    chat platform raises on the chain, the chain is the last thing attempted
    before the user is told, with the text of the exception; and as long as
    texts can be sent, no exception leaves the body, whatever the upstream
    API and the chat platform do. *)
Theorem delivery_failure_is_reported (cfg : Config) (w : World) (st : State)
    (event : Event) (prompt task_id : string) (prefetched_images : option (list string))
    (prefetched_error : option string) :
  let run := _async_edit_image cfg w st event prompt task_id
                               prefetched_images prefetched_error in
  let result :=
    (_generate_image_edit_core cfg w event prompt prefetched_images prefetched_error).1 in
  let components := build_components cfg w result.1.1 result.1.2 in
  ((∀ text, send_plain w text = Ok tt) → run.2 = None)
  ∧ (∀ e, components ≠ [] → send_chain w components = DeliveryRaised e →
       status_message_mode cfg ≠ "verbose" ∨ (∀ text, send_plain w text = Ok tt) →
       ∃ before, run.1.2 = before ++ [SendChain components;
                                      SendPlain ("❌ 图片编辑时遇到问题: " +:+ e)]
                 ∧ chains before = [] ∧ unlinked before = []).
Proof.
  intros run result components. subst run. unfold _async_edit_image. split.
  - intros Hplain. destruct (async_edit_try _ _ _ _ _ _) as [done_ [[]|e]]; cbn; [done|].
    by rewrite Hplain.
  - intros e Hcomps Hsent Hplain. unfold async_edit_try. fold result.
    destruct (core_result cfg w event prompt prefetched_images prefetched_error)
      as [[Herr Hnil]|(image & data_urls & Hres & _)].
    { fold result in Hnil. subst components. rewrite Hnil in Hcomps.
      cbn [fst snd] in Hcomps. by rewrite build_components_nil in Hcomps. }
    fold result in Hres. subst components. rewrite Hres in *. cbn [fst snd py_truthy] in *.
    set (image_urls := (_call_grok_api cfg w prompt image).1.1.1) in *.
    set (image_paths := save_all w data_urls) in *.
    set (components := build_components cfg w image_urls image_paths) in *.
    unfold skip. rewrite (cleanup_trace cfg image_paths []). cbn [app].
    rewrite (bool_decide_eq_false_2 _ Hcomps). cbn [negb when].
    unfold deliver. rewrite Hsent.
    assert (∀ a : action, a = and_then
              (when (bool_decide (status_message_mode cfg = "verbose"))
                    (plain w "🖼️ 正在发送编辑后的图片，请稍候..."))
              (and_then ([SendChain components], Raised e)
                        (if save_image_enabled cfg then []
                         else Unlink <$> filter (λ p, p ≠ "") image_paths, Ok tt)) →
            ∃ before, (let '(done_, escaped) := async_edit_except w a in
                       (async_edit_finally st (get_sender_id event) task_id, done_,
                        escaped)).1.2
                      = before ++ [SendChain components;
                                   SendPlain ("❌ 图片编辑时遇到问题: " +:+ e)]
                      ∧ chains before = [] ∧ unlinked before = []) as Hmain.
    { intros a ->. destruct Hplain as [Hmode|Hplain].
      - rewrite (bool_decide_eq_false_2 _ Hmode). cbn.
        exists []. by destruct (send_plain w _).
      - unfold plain, when. rewrite Hplain. case_bool_decide; cbn; rewrite Hplain;
          [by exists [SendPlain "🖼️ 正在发送编辑后的图片，请稍候..."]|by exists []]. }
    destruct image_urls as [|u us], image_paths as [|p ps];
      [subst components; by rewrite build_components_nil in Hcomps|..]; by apply Hmain.
Qed.

Lemma delivery_failure_is_reported_witness :
  (_async_edit_image two_per_minute flaky_server u1_pending two_images "add sunglasses"
                     "t1" (Some ["data:image/jpeg;base64,AAAA"]) None).2 = None.
Proof.
  refine (proj1 (delivery_failure_is_reported two_per_minute flaky_server u1_pending
                   two_images "add sunglasses" "t1"
                   (Some ["data:image/jpeg;base64,AAAA"]) None) _).
  reflexivity.
Defined.

(** ** The validator and the inline scan on the whole of [str] *)

Lemma wide_rmatch_sound {A : Type} (ic : bool) (r : Unicode.regex) :
  ∀ (s : Unicode.text) (cap : option Unicode.text)
    (k : Unicode.text → option Unicode.text → option A) (a : A),
    Unicode.rmatch ic r s cap k = Some a →
    ∃ s' cap', Unicode.matches ic r s s' ∧ k s' cap' = Some a.
Proof.
  induction r as [|c|p|p|r1 IH1 r2 IH2|r1 IH1 r2 IH2|r1 IH1|]; intros s cap k a H; cbn in H.
  - by exists s, cap.
  - destruct s as [|x s']; [done|]. destruct (Unicode.chr_eq ic c x) eqn:E; [|done].
    exists s', cap. cbn. eauto.
  - destruct s as [|x s']; [done|]. destruct (p x) eqn:E; [|done].
    exists s', cap. cbn. eauto.
  - revert H. induction s as [|x s' IHs]; intros H.
    + exists [], cap. split; [|done]. by exists [].
    + destruct (p x) eqn:E.
      * match type of H with match ?star with _ => _ end = _ =>
          destruct star as [a'|] eqn:Hstar end.
        -- injection H as ->. destruct (IHs eq_refl) as (s2 & cap' & (w & -> & Hw) & Hk).
           exists s2, cap'. split; [|done]. exists (x :: w). split; [done|].
           by constructor.
        -- exists (x :: s'), cap. split; [|done]. by exists [].
      * exists (x :: s'), cap. split; [|done]. by exists [].
  - apply IH1 in H as (m & cap1 & Hm1 & H). apply IH2 in H as (s' & cap' & Hm2 & H).
    exists s', cap'. split; [|done]. by exists m.
  - destruct (Unicode.rmatch ic r1 s cap k) as [a'|] eqn:E.
    + injection H as ->. apply IH1 in E as (s' & cap' & Hm & Hk).
      exists s', cap'. cbn. eauto.
    + apply IH2 in H as (s' & cap' & Hm & Hk). exists s', cap'. cbn. eauto.
  - apply IH1 in H as (s' & cap' & Hm & Hk). by exists s', (Some (Unicode.consumed s s')).
  - destruct s as [|x [|]]; try done.
    + exists [], cap. cbn. eauto.
    + destruct (x =? 10)%N eqn:E; [|done]. apply N.eqb_eq in E as ->.
      exists [10%N], cap. cbn. eauto.
Qed.

Lemma wide_re_search_sound (ic : bool) (r : Unicode.regex) (s : Unicode.text) :
  Unicode.re_search ic r s = true →
  ∃ before from rest, s = before ++ from ∧ Unicode.matches ic r from rest.
Proof.
  induction s as [|c s IH]; cbn; destruct (Unicode.match_here ic r _) as [[rest cap]|] eqn:E.
  - intros _. apply wide_rmatch_sound in E as (s' & cap' & Hm & _). by exists [], [], s'.
  - done.
  - intros _. apply wide_rmatch_sound in E as (s' & cap' & Hm & _).
    by exists [], (c :: s), s'.
  - intros (before & from & rest & -> & Hm)%IH. by exists (c :: before), from, rest.
Qed.

(** A literal matches the texts that fold to what it folds to. *)
Lemma wide_matches_Lit (x s s' : Unicode.text) :
  Unicode.matches true (Unicode.Lit x) s s' →
  ∃ e, s = e ++ s' ∧ Unicode.fold <$> e = Unicode.fold <$> x.
Proof.
  revert s. induction x as [|c x IH]; intros s; cbn.
  - intros ->. by exists [].
  - intros (m & (c' & -> & Hc) & (e & -> & He)%IH).
    exists (c' :: e). split; [done|]. apply N.eqb_eq in Hc. cbn. by rewrite Hc, He.
Qed.

Lemma wide_matches_Alts (ic : bool) (rs : list Unicode.regex) (s s' : Unicode.text) :
  Unicode.matches ic (Unicode.Alts rs) s s' → ∃ r, r ∈ rs ∧ Unicode.matches ic r s s'.
Proof.
  induction rs as [|r [|r' rs] IH]; cbn.
  - by intros (? & _ & ?).
  - intros ?. exists r. split; [apply list_elem_of_here|done].
  - intros [?|(r0 & ? & ?)%IH].
    + exists r. split; [apply list_elem_of_here|done].
    + exists r0. split; [by apply list_elem_of_further|done].
Qed.

Lemma wide_matches_split (ic : bool) (r : Unicode.regex) : ∀ (s s' : Unicode.text),
  Unicode.matches ic r s s' → ∃ w, s = w ++ s'.
Proof.
  induction r as [|c|p|p|r1 IH1 r2 IH2|r1 IH1 r2 IH2|r1 IH1|]; intros s s'; cbn.
  - intros ->. by exists [].
  - intros (x & -> & _). by exists [x].
  - intros (x & -> & _). by exists [x].
  - intros (w & -> & _). by exists w.
  - intros (m & (w1 & ->)%IH1 & (w2 & ->)%IH2). exists (w1 ++ w2). by rewrite app_assoc.
  - intros [H%IH1|H%IH2]; done.
  - apply IH1.
  - intros [-> _]. by exists [].
Qed.

Lemma consumed_wide_app (w s' : Unicode.text) : Unicode.consumed (w ++ s') s' = w.
Proof.
  unfold Unicode.consumed. rewrite length_app.
  replace (length w + length s' - length s') with (length w) by lia.
  by rewrite take_app_length.
Qed.

(** The five names are written in lower case: folding keeps them. *)
Lemma fold_extension (x : string) :
  x ∈ image_extensions → Unicode.fold <$> Unicode.wide x = Unicode.wide x.
Proof.
  unfold image_extensions. rewrite !elem_of_cons, elem_of_nil.
  intros [->|[->|[->|[->|[->|[]]]]]]; reflexivity.
Qed.

Lemma fold_is_dot (x : N) : Unicode.fold 46 = Unicode.fold x → x = 46%N.
Proof.
  unfold Unicode.fold, Unicode.lower. cbn.
  destruct ((x =? 304) || (x =? 305))%N; [done|].
  destruct (x =? 383)%N; [done|]. destruct (x =? 8490)%N; [done|].
  destruct ((65 <=? x) && (x <=? 90))%N eqn:E; [|done].
  apply andb_true_iff in E as [?%N.leb_le ?%N.leb_le]. lia.
Qed.

(** What a match of the extension pattern looks like. *)
Lemma wide_matches_extension_pattern (s s' : Unicode.text) :
  Unicode.matches true Unicode.extension_pattern s s' →
  ∃ ext tail, s = [46%N] ++ ext ++ tail
    ∧ Unicode.fold <$> ext ∈ Unicode.wide <$> image_extensions
    ∧ (tail = [] ∨ tail = [10%N] ∨ ∃ c rest, tail = c :: rest ∧ c ∈ [63; 38; 35]%N).
Proof.
  cbn -[Unicode.Alts image_extensions Unicode.wide Unicode.chr_eq].
  intros (m1 & (c & -> & Hc) & m2 & Hext & m3 & Htail & ->).
  unfold Unicode.chr_eq in Hc. apply N.eqb_eq, fold_is_dot in Hc as ->.
  apply wide_matches_Alts in Hext as (r & Hr & Hext).
  apply list_elem_of_fmap in Hr as (x & -> & Hx).
  apply wide_matches_Lit in Hext as (ext & -> & Hext).
  exists ext, m2. split; [done|]. split.
  { rewrite Hext, (fold_extension x Hx). apply list_elem_of_fmap. by exists x. }
  destruct Htail as [[-> [->| ->]]|(c & -> & Hc)]; [tauto|tauto|].
  right; right. exists c, m3. split; [done|]. by apply bool_decide_eq_true in Hc.
Qed.

Lemma startswith_prefix (p url : Unicode.text) :
  Unicode.startswith p url = true ↔ p `prefix_of` url.
Proof.
  revert url. induction p as [|c p IH]; intros [|x url]; cbn.
  - split; [intros _; by exists []|done].
  - split; [intros _; by exists (x :: url)|done].
  - split; [done|]. by intros ?%prefix_nil_not.
  - rewrite andb_true_iff, N.eqb_eq, IH. split.
    + intros [-> ?]. by apply prefix_cons.
    + intros H. split; [by apply prefix_cons_inv_1 in H|by apply prefix_cons_inv_2 in H].
Qed.

Lemma accepted_holds_none (url : Unicode.text) (c : N) :
  existsb (λ ch, bool_decide (ch ∈ url)) Unicode.invalid_chars = false →
  c ∈ Unicode.invalid_chars → c ∉ url.
Proof.
  intros Hbad Hc Hin.
  assert (existsb (λ ch, bool_decide (ch ∈ url)) Unicode.invalid_chars = true);
    [|congruence].
  apply existsb_exists. exists c. split; [by apply list_elem_of_In|].
  by apply bool_decide_eq_true.
Qed.

(** C5.  The validator accepts a URL only if it starts with [http://] or
    [https://], is at least ten characters long and holds none of
    [< > D ' \n \r \t] (D being the double quote); asked to require an
    extension, it accepts only a URL that ends in one of png, jpg, jpeg, webp
    and gif as [re.IGNORECASE] reads them (any ASCII letter case, and U+0130
    or U+0131 for the i of gif), followed by nothing or by a tail that starts
    with [?], [&] or [#].  It rejects [ftp://x/a.png], it rejects
    [http://x/a] when an extension is required, and it rejects every URL
    that holds a [<]. *)
Theorem validator_accepts_only_if :
  (∀ url require_extension,
     Unicode._is_valid_image_url url require_extension = true →
     (Unicode.wide "http://" `prefix_of` url ∨ Unicode.wide "https://" `prefix_of` url)
     ∧ 10 ≤ length url
     ∧ (∀ c, c ∈ [60; 62; 34; 39; 10; 13; 9]%N → c ∉ url)
     ∧ (require_extension = true → Unicode.ends_with_folded_extension url))
  ∧ (∀ require_extension,
       Unicode._is_valid_image_url (Unicode.wide "ftp://x/a.png") require_extension = false)
  ∧ Unicode._is_valid_image_url (Unicode.wide "http://x/a") true = false
  ∧ (∀ url require_extension,
       60%N ∈ url → Unicode._is_valid_image_url url require_extension = false).
Proof.
  split; [|split; [|split]].
  - intros url req. unfold Unicode._is_valid_image_url.
    destruct (length url <? 10) eqn:Hlen; [done|].
    apply Nat.ltb_ge in Hlen.
    destruct (Unicode.startswith (Unicode.wide "http://") url
              || Unicode.startswith (Unicode.wide "https://") url) eqn:Hscheme;
      [|done]. cbn [negb].
    destruct (req && negb (Unicode.re_search true Unicode.extension_pattern url)) eqn:Hext;
      [done|].
    destruct (existsb _ Unicode.invalid_chars) eqn:Hbad; [done|]. intros _.
    split; [|split; [done|split]].
    + apply orb_true_iff in Hscheme as [H|H]; apply startswith_prefix in H; tauto.
    + intros c Hc. by apply accepted_holds_none.
    + intros ->. cbn in Hext. apply negb_false_iff in Hext.
      apply wide_re_search_sound in Hext as (before & from & rest & -> & Hm).
      apply wide_matches_extension_pattern in Hm as (ext & tail & -> & Hlow & Htail).
      exists before, ext, tail. split; [done|]. split; [done|].
      destruct Htail as [->|[->|Htail]]; [by left| |by right].
      exfalso. apply (accepted_holds_none _ 10%N Hbad).
      * unfold Unicode.invalid_chars. rewrite !elem_of_cons. tauto.
      * rewrite !elem_of_app. do 3 right. apply list_elem_of_here.
  - by intros [].
  - done.
  - intros url req Hin. unfold Unicode._is_valid_image_url.
    destruct (length url <? 10); [done|].
    destruct (negb _); [done|]. destruct (req && _); [done|].
    cbn. by rewrite bool_decide_eq_true_2.
Qed.

Lemma validator_accepts_only_if_witness :
  Unicode.ends_with_folded_extension dotless_gif.
Proof.
  refine (proj2 (proj2 (proj2 (proj1 validator_accepts_only_if dotless_gif true _))) eq_refl).
  vm_compute. reflexivity.
Defined.

(** The validator, asked to require an extension, accepts [http://x/a.g?f]
    with U+0131 (the dotless i) in the place of [?]: a URL that ends in no
    recognised image extension, in whatever case its ASCII letters are. *)
Lemma dotless_i_passes_as_gif :
  Unicode._is_valid_image_url dotless_gif true = true
  ∧ ¬ Unicode.ends_with_image_extension dotless_gif.
Proof.
  split; [by vm_compute|].
  intros (stem & ext & tail & H & Hext & _).
  assert (ext ++ tail = [103; 305; 102]%N) as Hrest.
  { vm_compute in H.
    do 10 (destruct stem as [|? stem]; [discriminate H|injection H as <- H]).
    destruct stem as [|? stem]; [injection H as H; exact (eq_sym H)|].
    injection H as <- H.
    do 3 (destruct stem as [|? stem]; [discriminate H|injection H as <- H]).
    by destruct stem. }
  revert Hext. unfold image_extensions.
  rewrite !fmap_cons, !elem_of_cons, fmap_nil, elem_of_nil.
  intros [Hx|[Hx|[Hx|[Hx|[Hx|[]]]]]];
    (destruct ext as [|a [|b [|c [|d ext]]]]; cbn in Hrest; try discriminate Hrest;
     [by vm_compute in Hx..|]; injection Hrest as -> -> -> _; by vm_compute in Hx).
Qed.

Lemma fold_lower (c : N) : Unicode.fold (Unicode.lower c) = Unicode.fold c.
Proof.
  unfold Unicode.fold, Unicode.lower.
  destruct (N.leb_spec 65 c), (N.leb_spec c 90); cbn [andb];
    repeat match goal with
           | |- context [(?a =? ?b)%N] => destruct (N.eqb_spec a b)
           | |- context [(?a <=? ?b)%N] => destruct (N.leb_spec a b)
           end; cbn; lia.
Qed.

(** A recognised extension in some ASCII letter case is one for
    [re.IGNORECASE] too. *)
Lemma image_extension_is_folded (url : Unicode.text) :
  Unicode.ends_with_image_extension url → Unicode.ends_with_folded_extension url.
Proof.
  intros (stem & ext & tail & -> & Hext & Htail).
  exists stem, ext, tail. split; [done|]. split; [|done].
  apply list_elem_of_fmap in Hext as (x & Hx & Hin). apply list_elem_of_fmap.
  exists x. split; [|done]. rewrite <- (fold_extension x Hin), <- Hx.
  rewrite <- list_fmap_compose. apply list_fmap_ext. intros _ c _. cbn.
  by rewrite fold_lower.
Qed.

Lemma wide_findall_elem (ic : bool) (r : Unicode.regex) (x : Unicode.text) :
  ∀ (fuel : nat) (s : Unicode.text),
    x ∈ Unicode.findall_from fuel ic r s →
    ∃ before from rest cap,
      s = before ++ from ∧ Unicode.match_here ic r from = Some (rest, cap)
      ∧ x = default [] cap.
Proof.
  induction fuel as [|fuel IH]; intros s; cbn [Unicode.findall_from].
  { by intros ?%elem_of_nil. }
  assert (∀ c t, x ∈ Unicode.findall_from fuel ic r t →
                 ∃ before from rest cap, c :: t = before ++ from
                   ∧ Unicode.match_here ic r from = Some (rest, cap) ∧ x = default [] cap)
    as Hnext.
  { intros c t (before & from & rest & cap & -> & Hm & ->)%IH.
    by exists (c :: before), from, rest, cap. }
  destruct (Unicode.match_here ic r s) as [[s' cap]|] eqn:E.
  - intros [->|Hin]%elem_of_cons; [by exists [], s, s', cap|].
    destruct (length s' <? length s).
    + apply wide_rmatch_sound in E as (s2 & cap2 & Hm & [= <- <-]).
      destruct (wide_matches_split _ _ _ _ Hm) as (w & ->).
      apply IH in Hin as (before & from & rest & cap' & -> & Hm' & ->).
      exists (w ++ before), from, rest, cap'. by rewrite app_assoc.
    + destruct s as [|c t]; [by apply elem_of_nil in Hin|by apply Hnext].
  - destruct s as [|c t]; [by intros ?%elem_of_nil|by apply Hnext].
Qed.

Lemma wide_match_here_group (ic : bool) (r : Unicode.regex) (s s' : Unicode.text)
    (cap : option Unicode.text) :
  Unicode.match_here ic (Unicode.Group r) s = Some (s', cap) →
  ∃ w, s = w ++ s' ∧ cap = Some w ∧ Unicode.matches ic r s s'.
Proof.
  unfold Unicode.match_here. cbn. intros (s2 & cap2 & Hm & [= <- <-])%wide_rmatch_sound.
  destruct (wide_matches_split ic r s s2 Hm) as (w & ->).
  exists w. by rewrite consumed_wide_app.
Qed.

(** X7.  Every entry [_extract_data_urls_from_text] returns occurs in the
    text and reads, as [re.IGNORECASE] compares letters, [data:image/], one
    of the five image formats, [;base64,] and then at least one character,
    each a letter, a digit, [+], [/], [=] or one of U+0130, U+0131, U+017F
    and U+212A, which the flag lets into the class. *)
Theorem text_data_urls_shape (content url : Unicode.text) :
  url ∈ Unicode._extract_data_urls_from_text content →
  (∃ before after, content = before ++ url ++ after)
  ∧ ∃ head ext sep payload,
      url = head ++ ext ++ sep ++ payload
      ∧ Unicode.fold <$> head = Unicode.wide "data:image/"
      ∧ Unicode.fold <$> ext ∈ Unicode.wide <$> image_extensions
      ∧ Unicode.fold <$> sep = Unicode.wide ";base64,"
      ∧ payload ≠ [] ∧ Forall (λ x, Unicode.b64_char x = true) payload.
Proof.
  unfold Unicode._extract_data_urls_from_text.
  destruct content as [|c0 content]; [by intros ?%elem_of_nil|].
  generalize (c0 :: content). clear. intros content.
  intros (before & from & rest & cap & -> & Hm & ->)%wide_findall_elem.
  apply wide_match_here_group in Hm as (url & -> & -> & Hm). cbn [default].
  split; [by exists before, rest|].
  revert Hm. cbn -[Unicode.Alts Unicode.Lit Unicode.wide image_extensions].
  intros (m1 & (head & Hurl & Hhead)%wide_matches_Lit
          & m2 & (r & Hr & Hext)%wide_matches_Alts
          & m3 & (sep & -> & Hsep)%wide_matches_Lit
          & m4 & (m5 & (c & -> & Hc) & (w & -> & Hw)) & ->).
  assert (∃ x, r = Unicode.Lit (Unicode.wide x) ∧ x ∈ image_extensions) as (x & -> & Hx).
  { revert Hr. unfold image_extensions. rewrite !elem_of_cons, !elem_of_nil.
    intros [->|[->|[->|[->|[->|[]]]]]]; eexists; (split; [done|]);
      rewrite !elem_of_cons; tauto. }
  apply wide_matches_Lit in Hext as (ext & -> & Hext).
  exists head, ext, sep, (c :: w). split.
  { match type of Hurl with _ ++ ?t = _ =>
      apply (app_inv_tail t); rewrite Hurl, <- !app_assoc end. done. }
  split; [by rewrite Hhead|]. split.
  { rewrite Hext, (fold_extension x Hx). apply list_elem_of_fmap. by exists x. }
  split; [by rewrite Hsep|]. split; [done|]. by constructor.
Qed.

(** A reply in which U+0131 stands for the i of image and U+212A closes the
    payload: the scan returns it whole. *)
Lemma text_data_urls_shape_witness :
  (∃ before after, kelvin_data ++ Unicode.wide " ok" = before ++ kelvin_data ++ after)
  ∧ ∃ head ext sep payload,
      kelvin_data = head ++ ext ++ sep ++ payload
      ∧ Unicode.fold <$> head = Unicode.wide "data:image/"
      ∧ Unicode.fold <$> ext ∈ Unicode.wide <$> image_extensions
      ∧ Unicode.fold <$> sep = Unicode.wide ";base64,"
      ∧ payload ≠ [] ∧ Forall (λ x, Unicode.b64_char x = true) payload.
Proof.
  refine (text_data_urls_shape (kelvin_data ++ Unicode.wide " ok") kelvin_data _).
  vm_compute. apply list_elem_of_here.
Defined.

(** ** Text below U+0100

    On strings of code points below U+0100 the matcher over [ascii] is the
    matcher over code points, and the validator and the inline scan of the
    sections above are those of [Unicode]. *)

Lemma wide_length (s : string) : length (Unicode.wide s) = String.length s.
Proof. induction s as [|c s IH]; [done|]. cbn. by rewrite <- IH. Qed.

Lemma wide_substring (n : nat) (s : string) :
  Unicode.wide (String.substring 0 n s) = take n (Unicode.wide s).
Proof.
  revert n. induction s as [|c s IH]; intros [|n]; try done.
  change (N_of_ascii c :: Unicode.wide (String.substring 0 n s)
          = N_of_ascii c :: take n (Unicode.wide s)). by rewrite IH.
Qed.

Lemma wide_consumed (s s' : string) :
  Unicode.wide (consumed s s') = Unicode.consumed (Unicode.wide s) (Unicode.wide s').
Proof. unfold consumed, Unicode.consumed. by rewrite wide_substring, !wide_length. Qed.

Lemma code_eqb (a b : ascii) : (N_of_ascii a =? N_of_ascii b)%N = Ascii.eqb a b.
Proof.
  destruct (Ascii.eqb_spec a b) as [->|Hne]; [apply N.eqb_refl|].
  apply N.eqb_neq. intros H. apply Hne.
  by rewrite <- (ascii_N_embedding a), <- (ascii_N_embedding b), H.
Qed.

Lemma fold_narrow (a : ascii) : Unicode.fold (N_of_ascii a) = N_of_ascii (ascii_lower a).
Proof. destruct a as [[] [] [] [] [] [] [] []]; reflexivity. Qed.

Lemma chr_eq_narrow (ic : bool) (c a : ascii) :
  Unicode.chr_eq ic (N_of_ascii c) (N_of_ascii a) = chr_eq ic c a.
Proof.
  unfold Unicode.chr_eq, chr_eq. destruct ic; [|apply code_eqb].
  rewrite !fold_narrow. apply code_eqb.
Qed.

(** The two matchers in step: the same pattern, the same subject, and
    continuations that agree. *)
Lemma rmatch_narrow {A B : Type} (f : A → B) (ic : bool) (r : regex) (R : Unicode.regex) :
  same_pattern r R →
  ∀ (s : string) (cap : option string) (k : string → option string → option A)
    (K : Unicode.text → option Unicode.text → option B),
    (∀ s' cap', K (Unicode.wide s') (Unicode.wide <$> cap') = f <$> k s' cap') →
    Unicode.rmatch ic R (Unicode.wide s) (Unicode.wide <$> cap) K
    = f <$> rmatch ic r s cap k.
Proof.
  induction 1 as [|c|p q Hq|p q Hq|r1 r2 R1 R2 _ IH1 _ IH2|r1 r2 R1 R2 _ IH1 _ IH2
                  |r1 R1 _ IH1|]; intros s cap k K HK.
  - apply HK.
  - destruct s as [|a s]; [done|]. cbn. rewrite chr_eq_narrow.
    destruct (chr_eq ic c a); [apply HK|done].
  - destruct s as [|a s]; [done|]. cbn. rewrite Hq. destruct (p a); [apply HK|done].
  - cbn. induction s as [|a s IHs]; [apply (HK "")|].
    change (Unicode.wide (String a s)) with (N_of_ascii a :: Unicode.wide s).
    cbn beta iota. rewrite Hq. destruct (p a); [|apply (HK (String a s))]. rewrite IHs.
    match goal with |- context [f <$> ?star] => destruct star end;
      [done|apply (HK (String a s))].
  - cbn. apply IH1. intros s' cap'. by apply IH2.
  - cbn. rewrite (IH1 s cap k K HK), (IH2 s cap k K HK).
    by destruct (rmatch ic r1 s cap k).
  - cbn. apply IH1. intros s' cap'. rewrite <- wide_consumed.
    apply (HK s' (Some (consumed s s'))).
  - destruct s as [|a [|b s]]; [apply (HK "")| |done].
    change (Unicode.rmatch ic Unicode.Eos (Unicode.wide (String a "")) (Unicode.wide <$> cap) K)
      with (if (N_of_ascii a =? N_of_ascii "010")%N
            then K (Unicode.wide (String a "")) (Unicode.wide <$> cap) else None).
    rewrite code_eqb. cbn [rmatch]. destruct (Ascii.eqb a "010"); [apply HK|done].
Qed.

Lemma match_here_narrow (ic : bool) (r : regex) (R : Unicode.regex) (s : string) :
  same_pattern r R →
  Unicode.match_here ic R (Unicode.wide s)
  = (λ m : string * option string, (Unicode.wide m.1, Unicode.wide <$> m.2))
      <$> match_here ic r s.
Proof.
  intros Hsame. unfold Unicode.match_here, match_here.
  by apply (rmatch_narrow _ ic r R Hsame s None).
Qed.

Lemma re_search_narrow (ic : bool) (r : regex) (R : Unicode.regex) (s : string) :
  same_pattern r R → Unicode.re_search ic R (Unicode.wide s) = re_search ic r s.
Proof.
  intros Hsame. induction s as [|a s IH]; cbn [re_search];
    pose proof (match_here_narrow ic r R) as Hm.
  - specialize (Hm "" Hsame). cbn in *. rewrite Hm. by destruct (match_here ic r "").
  - specialize (Hm (String a s) Hsame).
    change (Unicode.wide (String a s)) with (N_of_ascii a :: Unicode.wide s) in *.
    cbn [Unicode.re_search]. rewrite Hm. by destruct (match_here ic r (String a s)).
Qed.

Lemma findall_narrow (ic : bool) (r : regex) (R : Unicode.regex) :
  same_pattern r R →
  ∀ (fuel : nat) (s : string),
    Unicode.findall_from fuel ic R (Unicode.wide s)
    = Unicode.wide <$> findall_from fuel ic r s.
Proof.
  intros Hsame. induction fuel as [|fuel IH]; intros s; [done|].
  cbn [Unicode.findall_from findall_from]. rewrite (match_here_narrow ic r R s Hsame).
  destruct (match_here ic r s) as [[s' cap]|]; cbn [fmap option_fmap option_map fst snd].
  - rewrite fmap_cons, !wide_length. f_equal; [by destruct cap|].
    destruct (String.length s' <? String.length s); [apply IH|].
    destruct s as [|a t]; [done|apply IH].
  - destruct s as [|a t]; [done|apply IH].
Qed.

Lemma same_Lit (x : string) : same_pattern (Lit x) (Unicode.Lit (Unicode.wide x)).
Proof. induction x as [|c x IH]; cbn; by repeat constructor. Qed.

Lemma same_extension_pattern : same_pattern extension_pattern Unicode.extension_pattern.
Proof.
  repeat constructor; try apply same_Lit.
  intros a. by destruct a as [[] [] [] [] [] [] [] []].
Qed.

Lemma same_data_url_pattern : same_pattern data_url_pattern Unicode.data_url_pattern.
Proof.
  repeat constructor; try apply same_Lit; try apply (same_Lit "data:image/");
    try apply (same_Lit ";base64,"); intros a; by destruct a as [[] [] [] [] [] [] [] []].
Qed.

Lemma startswith_narrow (p url : string) :
  Unicode.startswith (Unicode.wide p) (Unicode.wide url) = String.prefix p url.
Proof.
  revert url. induction p as [|c p IH]; intros [|a url]; try done.
  change (Unicode.startswith (Unicode.wide (String c p)) (Unicode.wide (String a url)))
    with ((N_of_ascii c =? N_of_ascii a)%N
          && Unicode.startswith (Unicode.wide p) (Unicode.wide url)).
  rewrite code_eqb, IH. cbn. destruct (ascii_dec c a) as [->|Hne].
  - by rewrite Ascii.eqb_refl.
  - by rewrite (proj2 (Ascii.eqb_neq c a) Hne).
Qed.

Lemma contains_narrow (c : ascii) (s : string) :
  bool_decide (N_of_ascii c ∈ Unicode.wide s) = str_contains c s.
Proof.
  induction s as [|a s IH]; [done|].
  change (Unicode.wide (String a s)) with (N_of_ascii a :: Unicode.wide s).
  cbn [str_contains]. rewrite <- IH, <- code_eqb.
  destruct (N.eqb_spec (N_of_ascii a) (N_of_ascii c)) as [E|E]; cbn.
  - apply bool_decide_eq_true. rewrite E. apply list_elem_of_here.
  - apply bool_decide_ext. rewrite elem_of_cons. naive_solver.
Qed.

(** On a URL of code points below U+0100 the two validators agree. *)
Lemma valid_image_url_narrow (url : string) (require_extension : bool) :
  Unicode._is_valid_image_url (Unicode.wide url) require_extension
  = _is_valid_image_url url require_extension.
Proof.
  unfold Unicode._is_valid_image_url, _is_valid_image_url.
  rewrite wide_length, !startswith_narrow,
    (re_search_narrow true _ _ url same_extension_pattern).
  do 3 (match goal with |- (if ?b then _ else _) = _ => destruct b end; [done|]).
  unfold Unicode.invalid_chars, invalid_chars. cbn [existsb].
  by rewrite <- !contains_narrow.
Qed.

(** On such a text the two inline scans agree. *)
Lemma data_urls_from_text_narrow (content : string) :
  Unicode._extract_data_urls_from_text (Unicode.wide content)
  = Unicode.wide <$> _extract_data_urls_from_text content.
Proof.
  unfold Unicode._extract_data_urls_from_text, _extract_data_urls_from_text.
  destruct content as [|a content]; [done|].
  rewrite bool_decide_eq_false_2 by done.
  change (Unicode.wide (String a content)) with (N_of_ascii a :: Unicode.wide content).
  change (N_of_ascii a :: Unicode.wide content) with (Unicode.wide (String a content)).
  unfold Unicode.re_findall, re_findall. rewrite wide_length.
  apply (findall_narrow true _ _ same_data_url_pattern).
Qed.

(** ** The request of the core operation *)

(** The attempt loop reads the world through the replies to its payload and
    through [str] only. *)
Lemma attempt_loop_same_replies (cfg : Config) (w w' : World) (payload : Payload) :
  (∀ attempt, post w payload attempt = post w' payload attempt) →
  py_str w = py_str w' →
  ∀ remaining attempt,
    attempt_loop cfg w payload remaining attempt
    = attempt_loop cfg w' payload remaining attempt.
Proof.
  intros Hpost Hstr. induction remaining as [|remaining IH]; intros attempt; [done|].
  cbn [attempt_loop]. rewrite <- Hpost, IH.
  assert (∀ status_code text body,
            request_failed_msg w status_code text body
            = request_failed_msg w' status_code text body) as Hmsg.
  { intros. unfold request_failed_msg. by rewrite Hstr. }
  destruct (post w payload attempt) as [status_code text body| |e]; [|done..].
  by rewrite Hmsg.
Qed.

(** A first reply with status 200 and a body the parser accepts ends the
    loop after one request. *)
Lemma attempt_loop_answered (cfg : Config) (w : World) (payload : Payload)
    (remaining : nat) (text : string) (v : json) (image_urls data_urls : list string) :
  post w payload 0 = Response 200 text (Decoded v) →
  _extract_image_results v = (image_urls, data_urls, None) →
  attempt_loop cfg w payload (S remaining) 0 = ((image_urls, data_urls, None), 1).
Proof.
  intros Hpost Hv. cbn [attempt_loop]. rewrite Hpost.
  rewrite bool_decide_eq_true_2 by done.
  by rewrite (on_status_200_success text v image_urls data_urls Hv).
Qed.

(** With the feature enabled and an image at hand, the core operation is the
    client's call on the first image. *)
Lemma core_on_images (cfg : Config) (w : World) (event : Event) (prompt image : string)
    (others : list string) :
  enabled cfg = true →
  _generate_image_edit_core cfg w event prompt (Some (image :: others)) None
  = let '((image_urls, data_urls, error_msg), sent) := _call_grok_api cfg w prompt image in
    let requests := replicate sent (build_payload cfg prompt image) in
    if py_truthy error_msg then (([], [], error_msg), requests)
    else ((image_urls, save_all w data_urls, None), requests).
Proof. intros Hon. unfold _generate_image_edit_core. by rewrite Hon. Qed.

(** C10.  Of the images handed to the core edit operation, whether passed in
    by the command or extracted by the resolver from the message and its
    quoted reply, only the first reaches the upstream API.  The result, the
    requests and the outcome of the task are the same as if the first image
    had been the only one, and every request carries the payload built from
    the prompt and that first image.  Such a request is sent: with the
    feature enabled, a key configured and at least one attempt allowed, the
    requests are that payload once or more, at most once per attempt
    allowed.  The reply to it is the result: when the server answers the
    first request with status 200 and a body the parser accepts, the core
    operation returns the parser's URLs and the files saved from its inline
    images after that one request.  And the replies the server would give to
    any other request, such as one carrying another of the images, play no
    part: two servers that answer the request with the first image alike
    give the same result and the same requests. *)
Theorem only_first_image_is_sent :
  (∀ cfg w event prompt image others prefetched_error,
     _generate_image_edit_core cfg w event prompt (Some (image :: others)) prefetched_error
     = _generate_image_edit_core cfg w event prompt (Some [image]) prefetched_error
     ∧ ∀ request,
         request ∈ (_generate_image_edit_core cfg w event prompt (Some (image :: others))
                                              prefetched_error).2 →
         request = build_payload cfg prompt image ∧ payload_image_url request = image)
  ∧ (∀ cfg w event prompt image others,
       (_extract_images_from_message w event).1 = image :: others →
       _generate_image_edit_core cfg w event prompt None None
       = _generate_image_edit_core cfg w event prompt (Some [image]) None)
  ∧ (∀ cfg w st event prompt task_id image others,
       _async_edit_image cfg w st event prompt task_id (Some (image :: others)) None
       = _async_edit_image cfg w st event prompt task_id (Some [image]) None)
  ∧ (∀ cfg w event prompt image others,
       enabled cfg = true → api_key cfg ≠ "" → (1 ≤ max_retry_attempts cfg)%Z →
       ∃ n, (_generate_image_edit_core cfg w event prompt (Some (image :: others)) None).2
            = replicate (S n) (build_payload cfg prompt image)
            ∧ S n ≤ Z.to_nat (max_retry_attempts cfg))
  ∧ (∀ cfg w event prompt image others text v image_urls data_urls,
       enabled cfg = true → api_key cfg ≠ "" → (1 ≤ max_retry_attempts cfg)%Z →
       post w (build_payload cfg prompt image) 0 = Response 200 text (Decoded v) →
       _extract_image_results v = (image_urls, data_urls, None) →
       _generate_image_edit_core cfg w event prompt (Some (image :: others)) None
       = ((image_urls, save_all w data_urls, None), [build_payload cfg prompt image]))
  ∧ (∀ cfg w w' event prompt image others prefetched_error,
       (∀ attempt, post w (build_payload cfg prompt image) attempt
                   = post w' (build_payload cfg prompt image) attempt) →
       py_str w = py_str w' →
       _save_base64_image w = _save_base64_image w' →
       _generate_image_edit_core cfg w event prompt (Some (image :: others)) prefetched_error
       = _generate_image_edit_core cfg w' event prompt (Some (image :: others))
                                   prefetched_error).
Proof.
  assert (∀ cfg w event prompt image others prefetched_error,
     _generate_image_edit_core cfg w event prompt (Some (image :: others)) prefetched_error
     = _generate_image_edit_core cfg w event prompt (Some [image]) prefetched_error)
    as Hsame by done.
  split; [|split; [|split; [|split; [|split]]]].
  - intros cfg w event prompt image others perr. split; [apply Hsame|].
    intros request. unfold _generate_image_edit_core.
    destruct (negb (enabled cfg)); [by intros ?%elem_of_nil|].
    destruct (py_truthy perr); [by intros ?%elem_of_nil|]. cbn [py_truthy].
    destruct (_call_grok_api cfg w prompt image) as [[[u dd] e] sent].
    assert (request ∈ replicate sent (build_payload cfg prompt image) →
            request = build_payload cfg prompt image ∧ payload_image_url request = image)
      as Hreq by (by intros [-> _]%elem_of_replicate).
    by destruct (py_truthy e).
  - intros cfg w event prompt image others Himages.
    pose proof (extracted_images_no_error w event) as Herr.
    unfold _generate_image_edit_core.
    destruct (_extract_images_from_message w event) as [images err].
    cbn in Himages, Herr. subst images. by rewrite Herr.
  - intros cfg w st event prompt task_id image others.
    unfold _async_edit_image, async_edit_try. by rewrite Hsame.
  - intros cfg w event prompt image others Hon Hkey Hmax.
    rewrite core_on_images by done. unfold _call_grok_api.
    rewrite bool_decide_eq_false_2 by done.
    destruct (Z.to_nat (max_retry_attempts cfg)) as [|remaining] eqn:Hn; [lia|].
    pose proof (attempt_loop_sends cfg w (build_payload cfg prompt image) remaining 0)
      as Hsent.
    pose proof (attempt_loop_count cfg w (build_payload cfg prompt image) (S remaining) 0)
      as Hcount.
    destruct (attempt_loop cfg w (build_payload cfg prompt image) (S remaining) 0)
      as [[[image_urls data_urls] error_msg] [|n]]; cbn [fst snd] in *; [lia|].
    exists n. by destruct (py_truthy error_msg).
  - intros cfg w event prompt image others text v image_urls data_urls
      Hon Hkey Hmax Hpost Hv.
    rewrite core_on_images by done. unfold _call_grok_api.
    rewrite bool_decide_eq_false_2 by done.
    destruct (Z.to_nat (max_retry_attempts cfg)) as [|remaining] eqn:Hn; [lia|].
    by rewrite (attempt_loop_answered cfg w _ remaining text v image_urls data_urls Hpost Hv).
  - intros cfg w w' event prompt image others perr Hpost Hstr Hsave.
    unfold _generate_image_edit_core, _call_grok_api.
    rewrite (attempt_loop_same_replies cfg w w' _ Hpost Hstr).
    unfold save_all. by rewrite Hsave.
Qed.

(** The command came with two images and the server edits the first only:
    the result is the edited first image, after one request. *)
Lemma only_first_image_is_sent_witness :
  _generate_image_edit_core two_per_minute picky_server two_images "add sunglasses"
    (Some ["data:image/jpeg;base64,AAAA"; "data:image/png;base64,BBBB"]) None
  = ((["https://x/a.png"], save_all picky_server [], None),
     [build_payload two_per_minute "add sunglasses" "data:image/jpeg;base64,AAAA"]).
Proof.
  refine (proj1 (proj2 (proj2 (proj2 (proj2 only_first_image_is_sent))))
            two_per_minute picky_server two_images "add sunglasses"
            "data:image/jpeg;base64,AAAA" ["data:image/png;base64,BBBB"] "{...}"
            (JObj [("data", JArr [JObj [("url", JStr "https://x/a.png")]])])
            ["https://x/a.png"] [] _ _ _ _ _).
  - reflexivity.
  - discriminate.
  - vm_compute. discriminate.
  - reflexivity.
  - vm_compute. reflexivity.
Defined.

(** ** Commands that overlap *)

(** A command the gate lets through waits for its images. *)
Lemma gate_passed (cfg : Config) (w : World) (st st' : State)
    (waiting : list (Event * string)) (running : list Task) (event : Event)
    (prompt : string) (now : Z) :
  cmd_edit_image_gate cfg st event now = (st', None) →
  handler_step cfg w (st, waiting, running) (st', waiting ++ [(event, prompt)], running).
Proof.
  intros Hgate. pose proof (handler_gate cfg w st waiting running event prompt now) as Hstep.
  by rewrite Hgate in Hstep.
Qed.

(** A command the gate answers is over. *)
Lemma gate_answered (cfg : Config) (w : World) (st st' : State)
    (waiting : list (Event * string)) (running : list Task) (event : Event)
    (prompt : string) (now : Z) (reply : string) :
  cmd_edit_image_gate cfg st event now = (st', Some reply) →
  handler_step cfg w (st, waiting, running) (st', waiting, running).
Proof.
  intros Hgate. pose proof (handler_gate cfg w st waiting running event prompt now) as Hstep.
  rewrite Hgate in Hstep. cbn [fst snd] in Hstep. by rewrite app_nil_r in Hstep.
Qed.

(** A waiting command that has its images creates its task. *)
Lemma resumed_with_task (cfg : Config) (w : World) (st st' : State)
    (waiting1 waiting2 : list (Event * string)) (running : list Task) (event : Event)
    (prompt new_id : string) (replies : list string) (task : Task) :
  cmd_edit_image_start cfg st event prompt (_extract_images_from_message w event) new_id
  = (st', replies, Some task) →
  handler_step cfg w (st, waiting1 ++ (event, prompt) :: waiting2, running)
    (st', waiting1 ++ waiting2, running ++ [task]).
Proof.
  intros Hstart.
  pose proof (handler_resume cfg w st waiting1 waiting2 running event prompt new_id) as Hstep.
  by rewrite Hstart in Hstep.
Qed.

(** Commands handled one at a time are a special case of handlers that
    overlap: no command waits between the steps. *)
Lemma serial_is_interleaved (cfg : Config) (w : World) (s s' : State * list Task) :
  serial_step cfg w s s' →
  rtc (handler_step cfg w) (s.1, [], s.2) (s'.1, [], s'.2).
Proof.
  intros [st running event prompt now new_id|st running1 running2 task]; cbn [fst snd].
  - unfold cmd_edit_image.
    destruct (cmd_edit_image_gate cfg st event now) as [st1 [reply|]] eqn:Hgate;
      cbn [fst snd option_list].
    + rewrite app_nil_r. apply rtc_once. by eapply (gate_answered _ _ _ _ [] _ _ prompt).
    + eapply rtc_l; [by apply (gate_passed cfg w st st1 [] running event prompt now)|].
      apply rtc_once.
      apply (handler_resume cfg w st1 [] [] running event prompt new_id).
  - apply rtc_once. apply handler_task_end.
Qed.

(** C2.  One pending task per user is not what the code keeps when two
    commands of a user overlap.  User [u1] sends the command twice, each
    time with an image, and the second command is handled while the first
    waits for its images at line 806.  Both commands pass the busy test of
    line 802, since the token is stored only in line 816, after the wait:
    neither gets the busy notice.  Both then store a token and create a
    task: two tasks of [u1] are pending at once, and of their identifiers
    [t1] and [t2] only [t2] is in [_processing_tasks], so the tokens are not
    those of the running tasks.  When the second task ends, its [finally]
    clause removes the token while the first task is still running, and a
    third command of [u1] passes the busy test as well. *)
Theorem overlapping_commands_two_tasks :
  let cfg := two_per_minute in
  let w := flaky_server in
  let prompt := "add sunglasses" in
  let first := cmd_edit_image_gate cfg init_state two_images 0 in
  let second := cmd_edit_image_gate cfg first.1 two_images 1 in
  let started1 :=
    cmd_edit_image_start cfg second.1 two_images prompt
      (_extract_images_from_message w two_images) "t1" in
  let started2 :=
    cmd_edit_image_start cfg started1.1.1 two_images prompt
      (_extract_images_from_message w two_images) "t2" in
  let ended2 := run_task cfg w started2.1.1 (sunglasses_task "t2") in
  first.2 = None ∧ second.2 = None
  ∧ started1.2 = Some (sunglasses_task "t1")
  ∧ started2.2 = Some (sunglasses_task "t2")
  ∧ task_user (sunglasses_task "t1") = "u1" ∧ task_user (sunglasses_task "t2") = "u1"
  ∧ rtc (handler_step cfg w) (init_state, [], [])
        (started2.1.1, [], [sunglasses_task "t1"; sunglasses_task "t2"])
  ∧ _processing_tasks started2.1.1 = {["u1" := "t2"]}
  ∧ ¬ tokens_match (started2.1.1, [sunglasses_task "t1"; sunglasses_task "t2"])
  ∧ handler_step cfg w (started2.1.1, [], [sunglasses_task "t1"; sunglasses_task "t2"])
      (ended2.1.1, [], [sunglasses_task "t1"])
  ∧ _processing_tasks ended2.1.1 = ∅
  ∧ (cmd_edit_image_gate cfg ended2.1.1 two_images 61).2 = None.
Proof.
  cbn zeta.
  set (first := cmd_edit_image_gate two_per_minute init_state two_images 0).
  set (second := cmd_edit_image_gate two_per_minute first.1 two_images 1).
  set (started1 := cmd_edit_image_start two_per_minute second.1 two_images "add sunglasses"
                     (_extract_images_from_message flaky_server two_images) "t1").
  set (started2 := cmd_edit_image_start two_per_minute started1.1.1 two_images
                     "add sunglasses"
                     (_extract_images_from_message flaky_server two_images) "t2").
  assert (first = (first.1, None)) as Hfirst by (by vm_compute).
  assert (second = (second.1, None)) as Hsecond by (by vm_compute).
  assert (started1 = (started1.1.1, started1.1.2, Some (sunglasses_task "t1"))) as H1
    by (by vm_compute).
  assert (started2 = (started2.1.1, started2.1.2, Some (sunglasses_task "t2"))) as H2
    by (by vm_compute).
  split; [by rewrite Hfirst|]. split; [by rewrite Hsecond|].
  split; [by rewrite H1|]. split; [by rewrite H2|]. split; [done|]. split; [done|].
  split.
  { eapply rtc_l.
    { apply (gate_passed two_per_minute flaky_server init_state first.1 [] [] two_images
               "add sunglasses" 0 Hfirst). }
    eapply rtc_l.
    { apply (gate_passed two_per_minute flaky_server first.1 second.1 _ [] two_images
               "add sunglasses" 1 Hsecond). }
    eapply rtc_l.
    { apply (resumed_with_task two_per_minute flaky_server second.1 started1.1.1 []
               [(two_images, "add sunglasses")] [] two_images "add sunglasses" "t1"
               started1.1.2 (sunglasses_task "t1") H1). }
    apply rtc_once.
    apply (resumed_with_task two_per_minute flaky_server started1.1.1 started2.1.1 [] []
             [sunglasses_task "t1"] two_images "add sunglasses" "t2"
             started2.1.2 (sunglasses_task "t2") H2). }
  split; [by vm_compute|]. split.
  { intros [Hnodup _]. cbn in Hnodup. apply NoDup_cons in Hnodup as [Hnot _].
    apply Hnot. apply list_elem_of_here. }
  split.
  { apply (handler_task_end two_per_minute flaky_server started2.1.1 []
             [sunglasses_task "t1"] [] (sunglasses_task "t2")). }
  split; by vm_compute.
Qed.
